(** * Repository manager of the Seafile client daemon (daemon/repo-mgr.c)

    A shallow embedding of the parts of [daemon/repo-mgr.c] that decide the
    properties stated about the repository engine: the ignore matcher and
    the recursive add, the passphrase proof, the commit builder, the
    in-memory registry and its lookups, the purge of a repository from the
    embedded store, and the temporary tokens; and, beyond those, the
    registration of repositories, the LAN tokens, the merge flag, the
    properties of a repository, its head branch and the metadata it
    exchanges with its commits.

    Conventions.
    - A C string is a [string]: the bytes before the terminating NUL.
    - [int] results keep their C values in [Z] (0, -1, 1).
    - Undefined behaviour of the C program (a read outside a buffer, a
      store through a NULL pointer) is the outcome [Fault]; it propagates.
      A call that is handed more bytes than a buffer holds ([memcpy],
      [memcmp]) is such a read, whatever the bytes are.
    - A pointer that was moved forward inside its buffer keeps the bytes
      in front of it: a read just before the string it points at is
      inside the buffer when there is such a byte.
    - [errno] is followed through the walk of the worktree as a boolean,
      "non-zero".
    - A statement that pastes a string from outside into a fixed buffer
      with [%s] is the statement meant only when the string holds no
      quote and the text fits; otherwise what the store makes of the text
      is left open.
    - Collaborators whose code lives in other files (glib, the AVL library,
      the index, the commit and branch managers, sqlite) are modelled by
      small executable definitions, or left open as the methods of a class
      (the crypto primitive, the object stores, the differ, the commit
      ids); each one says so in its comment.
    - Locks and the wait for the garbage collector are matters of
      scheduling and are left out. *)

From Stdlib Require Import ZArith String Ascii Bool List Lia DecimalString.
From stdpp Require Import base option list gmap strings.

Local Open Scope string_scope.
Local Open Scope Z_scope.

(** ** Outcomes: a result or undefined behaviour *)

Inductive outcome (A : Type) : Type :=
| Done (a : A)
| Fault.
Arguments Done {A} a.
Arguments Fault {A}.

Definition obind {A B} (m : outcome A) (k : A -> outcome B) : outcome B :=
  match m with
  | Done a => k a
  | Fault => Fault
  end.

Notation "x <-! m ; k" := (obind m (fun x => k))
  (at level 100, m at next level, right associativity,
   format "x  <-!  m ;  '/' k").

Definition defined {A} (m : outcome A) : Prop := exists a, m = Done a.

(** ** C strings *)

Module CStr.

Definition chars (s : string) : list ascii := list_ascii_of_string s.

Definition strlen (s : string) : Z := Z.of_nat (String.length s).

Definition NUL : ascii := ascii_of_nat 0.

(** [s[i]] for the buffer holding [s] and its terminator: offsets
    [0 .. strlen s] are inside the buffer, every other offset is not. *)
Definition char_at (s : string) (i : Z) : outcome ascii :=
  if i <? 0 then Fault
  else match String.get (Z.to_nat i) s with
       | Some c => Done c
       | None => if i =? strlen s then Done NUL else Fault
       end.

(** [strchr (s, c)]: offset of the first occurrence of [c], the terminator
    included; [None] is the NULL result. *)
Fixpoint strchr_from (l : list ascii) (c : ascii) (off : nat) : option nat :=
  match l with
  | [] => if Ascii.eqb c NUL then Some off else None
  | d :: l' => if Ascii.eqb d c then Some off else strchr_from l' c (S off)
  end.

Definition strchr (s : string) (c : ascii) : option nat :=
  strchr_from (chars s) c 0.

(** [strrchr (s, c)]: offset of the last occurrence. *)
Fixpoint strrchr_from (l : list ascii) (c : ascii) (off : nat)
    (found : option nat) : option nat :=
  match l with
  | [] => if Ascii.eqb c NUL then Some off else found
  | d :: l' =>
      strrchr_from l' c (S off) (if Ascii.eqb d c then Some off else found)
  end.

Definition strrchr (s : string) (c : ascii) : option nat :=
  strrchr_from (chars s) c 0 None.

(** [strcmp (a, b) == 0] *)
Definition strcmp_eq (a b : string) : bool := String.eqb a b.

(** [strncmp (a, b, n) == 0] *)
Fixpoint strncmp_eq_list (a b : list ascii) (n : nat) : bool :=
  match n with
  | O => true
  | S n' =>
      match a, b with
      | [], [] => true
      | c :: a', d :: b' => Ascii.eqb c d && strncmp_eq_list a' b' n'
      | _, _ => false
      end
  end.

Definition strncmp_eq (a b : string) (n : nat) : bool :=
  strncmp_eq_list (chars a) (chars b) n.

(** The suffix of [s] from offset [n] ([&s[n]]). *)
Definition drop_chars (n : nat) (s : string) : string :=
  String.substring n (String.length s - n) s.

End CStr.

(** ** Ignore matcher ([ignore_table], [should_ignore], [has_trailing_space]) *)

Module Ignore.
Import CStr.

(** [ignore_table], without its NULL end marker. *)
Definition ignore_table : list string :=
  [ "*~"; "*#";
    "*.tmp"; "*.TMP";
    "~$*.doc"; "~$*.docx"; "~$*.xls"; "~$*.xlsx"; "~$*.ppt"; "~$*.pptx";
    "Thumbs.db";
    ".DS_Store" ].

(** glib's [g_pattern_match_string] on a compiled [GPatternSpec], by its
    documented meaning: [*] matches any run of characters, the empty one
    included, [?] matches exactly one character, every other character
    matches itself; the whole string has to match.  (glib is not part of
    the repository; characters are bytes here.) *)
Fixpoint glob_match (pat s : list ascii) : bool :=
  match pat with
  | [] => match s with [] => true | _ :: _ => false end
  | p :: pat' =>
      if Ascii.eqb p "*" then
        (fix star (s : list ascii) : bool :=
           glob_match pat' s
           || match s with [] => false | _ :: s' => star s' end) s
      else
        match s with
        | [] => false
        | c :: s' => (Ascii.eqb p "?" || Ascii.eqb p c) && glob_match pat' s'
        end
  end.

Definition g_pattern_match_string (spec filename : string) : bool :=
  glob_match (chars spec) (chars filename).

(** [ignore_patterns]: one compiled pattern per table entry, filled in by
    [seaf_repo_manager_new]. *)
Definition ignore_patterns : list string := ignore_table.

(** [static char illegals[]] of [should_ignore]. *)
Definition illegals : list ascii :=
  [ ascii_of_nat 92  (* \ *); ascii_of_nat 47  (* / *);
    ascii_of_nat 58  (* : *); ascii_of_nat 42  (* * *);
    ascii_of_nat 63  (* ? *); ascii_of_nat 34  (* double quote *);
    ascii_of_nat 60  (* < *); ascii_of_nat 62  (* > *);
    ascii_of_nat 124 (* | *); ascii_of_nat 8   (* \b *);
    ascii_of_nat 9   (* \t *) ].

(** The values taken by [c] in [for (c = 1; c <= 31; c++)]. *)
Definition control_bytes : list ascii := map ascii_of_nat (seq 1 31).

Definition should_ignore (filename : string) : bool :=
  if existsb (fun spec => g_pattern_match_string spec filename) ignore_patterns
  then true
  else if existsb (fun ill => bool_decide (is_Some (strchr filename ill))) illegals
  then true
  else if existsb (fun c => bool_decide (is_Some (strchr filename c))) control_bytes
  then true
  else false.

(** [has_trailing_space (path)] for a [path] that points at the first
    byte of its buffer. *)
Definition has_trailing_space (path : string) : outcome bool :=
  let len := strlen path in
  c <-! char_at path (len - 1);
  if Ascii.eqb c " " then Done true else Done false.

(** [has_trailing_space (path)] for a [path] that points into a buffer,
    with the bytes [before] in front of it: [path[len - 1]] for the empty
    string is the last of these bytes, and a read outside the buffer when
    there is none. *)
Definition has_trailing_space_at (before : list ascii) (path : string)
    : outcome bool :=
  match path with
  | EmptyString =>
      match last before with
      | Some c => if Ascii.eqb c " " then Done true else Done false
      | None => Fault
      end
  | String _ _ => has_trailing_space path
  end.

(** *** The ignore rule in the words of the specification *)

Definition is_control_byte (c : ascii) : Prop :=
  (1 <= nat_of_ascii c <= 31)%nat.

Definition is_forbidden_char (c : ascii) : Prop :=
  In (nat_of_ascii c) [92; 47; 58; 42; 63; 34; 60; 62; 124; 8; 9]%nat.

Definition matches_ignore_glob (name : string) : Prop :=
  exists pat, In pat ignore_table /\ g_pattern_match_string pat name = true.

Definition spec_ignored (name : string) : Prop :=
  matches_ignore_glob name
  \/ exists c, In c (chars name) /\ (is_control_byte c \/ is_forbidden_char c).

(** The last byte of a non-empty path is an ASCII space. *)
Definition spec_trailing_space (path : string) : Prop :=
  exists p, path = p +:+ " ".

End Ignore.

(** ** Data model *)

(** [SeafBranch]: a named commit pointer of a repository. *)
Record SeafBranch := mkBranch {
  b_name : string;
  b_repo_id : string;
  b_commit_id : string
}.

(** The fields of [SeafRepo] read or written by the functions below.
    [repo_head = None] is the NULL head of a repository without a bound
    branch; [repo_email], [repo_worktree] are NULL when [None]. *)
Record SeafRepo := mkRepo {
  repo_id : string;
  repo_name : string;
  repo_desc : string;
  repo_encrypted : bool;
  repo_enc_version : Z;
  repo_magic : string;
  repo_enc_key : string;
  repo_enc_iv : string;
  repo_email : option string;
  repo_head : option SeafBranch;
  repo_worktree : option string;
  repo_worktree_invalid : bool;
  repo_auto_sync : bool;
  repo_delete_pending : bool;
  repo_no_local_history : bool
}.

Definition set_worktree_invalid (b : bool) (r : SeafRepo) : SeafRepo :=
  mkRepo (repo_id r) (repo_name r) (repo_desc r) (repo_encrypted r)
    (repo_enc_version r) (repo_magic r) (repo_enc_key r) (repo_enc_iv r)
    (repo_email r) (repo_head r) (repo_worktree r) b (repo_auto_sync r)
    (repo_delete_pending r) (repo_no_local_history r).

Definition set_magic (m : string) (r : SeafRepo) : SeafRepo :=
  mkRepo (repo_id r) (repo_name r) (repo_desc r) (repo_encrypted r)
    (repo_enc_version r) m (repo_enc_key r) (repo_enc_iv r)
    (repo_email r) (repo_head r) (repo_worktree r) (repo_worktree_invalid r)
    (repo_auto_sync r) (repo_delete_pending r) (repo_no_local_history r).

Definition set_head (h : option SeafBranch) (r : SeafRepo) : SeafRepo :=
  mkRepo (repo_id r) (repo_name r) (repo_desc r) (repo_encrypted r)
    (repo_enc_version r) (repo_magic r) (repo_enc_key r) (repo_enc_iv r)
    (repo_email r) h (repo_worktree r) (repo_worktree_invalid r)
    (repo_auto_sync r) (repo_delete_pending r) (repo_no_local_history r).

Definition set_delete_pending (b : bool) (r : SeafRepo) : SeafRepo :=
  mkRepo (repo_id r) (repo_name r) (repo_desc r) (repo_encrypted r)
    (repo_enc_version r) (repo_magic r) (repo_enc_key r) (repo_enc_iv r)
    (repo_email r) (repo_head r) (repo_worktree r) (repo_worktree_invalid r)
    (repo_auto_sync r) b (repo_no_local_history r).

(** [SeafileCrypt], as built by [seafile_crypt_new (version, key, iv)]. *)
Record SeafileCrypt := seafile_crypt_new {
  crypt_version : Z;
  crypt_key : string;
  crypt_iv : string
}.

(** The crypto primitive of seafile-crypt.h: [seafile_generate_enc_key
    (data, len, version, key, iv)] fills the 16-byte buffers [key] and
    [iv]; here it returns them.  [CURRENT_ENC_VERSION] is the macro of the
    same header. *)
Class CryptoPrimitive := {
  seafile_generate_enc_key : string -> Z -> list ascii * list ascii;
  CURRENT_ENC_VERSION : Z
}.

(** ** The worktree as a file tree *)

Module Fs.
Import CStr.

(** What [g_dir_open] and [g_dir_read_name] do on a directory: list it,
    fail to open it, or stop with [errno] set once the listing is read. *)
Inductive dir_status := DirOk | DirOpenFails | DirReadFails.

(** An inode: a regular file, a directory with its entries in the order
    [g_dir_read_name] returns them, or anything else (symbolic link,
    device, socket). *)
#[warnings="-register-all"]
Inductive fsnode :=
| FsReg
| FsDir (status : dir_status) (entries : list (string * fsnode))
| FsOther.

Definition S_IFMT : Z := 61440.   (* 0170000 *)
Definition S_IFREG : Z := 32768.  (* 0100000 *)
Definition S_IFDIR : Z := 16384.  (* 0040000 *)
Definition S_IFLNK : Z := 40960.  (* 0120000 *)

Definition S_ISREG (m : Z) : bool := Z.land m S_IFMT =? S_IFREG.
Definition S_ISDIR (m : Z) : bool := Z.land m S_IFMT =? S_IFDIR.

(** [st.st_mode] after a successful [g_lstat] on the node. *)
Definition st_mode (n : fsnode) : Z :=
  match n with
  | FsReg => Z.lor S_IFREG 420      (* 0644 *)
  | FsDir _ _ => Z.lor S_IFDIR 493  (* 0755 *)
  | FsOther => Z.lor S_IFLNK 511    (* 0777 *)
  end.

Definition sep : ascii := "/".

Fixpoint skip_seps (l : list ascii) : list ascii :=
  match l with
  | c :: l' => if Ascii.eqb c sep then skip_seps l' else l
  | [] => []
  end.

Fixpoint leading_seps (l : list ascii) : list ascii :=
  match l with
  | c :: l' => if Ascii.eqb c sep then c :: leading_seps l' else []
  | [] => []
  end.

Definition trim_seps (l : list ascii) : list ascii :=
  rev (skip_seps (rev (skip_seps l))).

Definition trailing_seps (l : list ascii) : list ascii :=
  leading_seps (rev (skip_seps l)).

(** glib's [g_build_path (PATH_SEPERATOR, a, b, NULL)] with the separator
    [/]: empty elements are dropped, the leading separators of the first
    element and the trailing ones of the last are kept, and exactly one
    separator is put between the two.  (glib is not part of the
    repository.) *)
Definition g_build_path (a b : string) : string :=
  if String.eqb a "" then b
  else if String.eqb b "" then a
  else
    let ma := trim_seps (chars a) in
    let mb := trim_seps (chars b) in
    string_of_list_ascii
      (leading_seps (chars a) ++ ma
         ++ (match ma, mb with
             | _ :: _, _ :: _ => [sep]
             | _, _ => []
             end)
         ++ mb ++ trailing_seps (chars b)).

(** Components of a path: the non-empty runs between separators. *)
Fixpoint split_path_from (l : list ascii) (cur : list ascii) : list string :=
  match l with
  | [] => match cur with [] => [] | _ => [string_of_list_ascii (rev cur)] end
  | c :: l' =>
      if Ascii.eqb c sep then
        match cur with
        | [] => split_path_from l' []
        | _ => string_of_list_ascii (rev cur) :: split_path_from l' []
        end
      else split_path_from l' (c :: cur)
  end.

Definition split_path (p : string) : list string := split_path_from (chars p) [].

Fixpoint lookup_entry (name : string) (es : list (string * fsnode))
    : option fsnode :=
  match es with
  | [] => None
  | (n, child) :: es' =>
      if String.eqb n name then Some child else lookup_entry name es'
  end.

Fixpoint walk (n : fsnode) (comps : list string) : option fsnode :=
  match comps with
  | [] => Some n
  | c :: comps' =>
      match n with
      | FsDir _ es =>
          match lookup_entry c es with
          | Some child => walk child comps'
          | None => None
          end
      | _ => None
      end
  end.

(** [g_lstat (path, &st) >= 0], with the node found; [None] is the
    failure.  The file system is the tree under its root directory. *)
Definition g_lstat (root : fsnode) (path : string) : option fsnode :=
  walk root (split_path path).

(** [g_stat (path, &st) >= 0], with the node found, and [g_access (path,
    F_OK) >= 0].  Both follow symbolic links where [g_lstat] does not; the
    tree holds no link that leads to a file or a directory ([FsOther] is
    what is neither of the two once links are followed), so the node they
    look at is the one [g_lstat] finds. *)
Definition g_stat (root : fsnode) (path : string) : option fsnode :=
  g_lstat root path.

Definition g_access (root : fsnode) (path : string) : bool :=
  bool_decide (is_Some (g_lstat root path)).

End Fs.

(** ** The index *)

Module Index.
Import CStr Fs.

(** A cache entry, with the fields the add and remove paths touch. *)
Record cache_entry := mkCe {
  ce_name : string;
  ce_mode : Z;
  ce_sha1 : string;
  ce_flags : Z
}.

(** [istate->cache[0 .. cache_nr)]. *)
Definition index_state := list cache_entry.

Definition names (istate : index_state) : list string := map ce_name istate.

(** [CE_REMOVE] of index/index.h (bit 17, as in git's cache.h). *)
Definition CE_REMOVE : Z := Z.shiftl 1 17.

Definition mark_remove (ce : cache_entry) : cache_entry :=
  mkCe (ce_name ce) (ce_mode ce) (ce_sha1 ce) (Z.lor (ce_flags ce) CE_REMOVE).

(** Modelled from the spec: [add_index_entry] of index/index.c, which is
    not in the source file.  "insert or replace the entry at the sorted
    position": entries stay ordered by name in byte order, one per name. *)
Fixpoint add_index_entry (ce : cache_entry) (istate : index_state)
    : index_state :=
  match istate with
  | [] => [ce]
  | e :: rest =>
      match String.compare (ce_name ce) (ce_name e) with
      | Lt => ce :: istate
      | Eq => ce :: rest
      | Gt => e :: add_index_entry ce rest
      end
  end.

(** Modelled from the spec: [add_to_index (istate, path, full_path, st, 0,
    crypt, index_cb)] of index/index.c.  The callback turns the file into
    an object id; when it fails the index is left alone and the result is
    -1, otherwise the entry is inserted or replaced and the result is 0. *)
Definition add_to_index (istate : index_state) (path full_path : string)
    (mode : Z) (crypt : option SeafileCrypt)
    (index_cb : string -> option SeafileCrypt -> outcome (Z * string))
    : outcome (Z * index_state) :=
  r <-! index_cb full_path crypt;
  if fst r <? 0 then Done (-1, istate)
  else Done (0, add_index_entry (mkCe path mode (snd r) 0) istate).

(** Modelled from the spec: [add_empty_dir_to_index (istate, path)] of
    index/index.c: "empty directories are represented by a synthetic entry
    with a directory mode". *)
Definition add_empty_dir_to_index (istate : index_state) (path : string)
    : index_state :=
  add_index_entry (mkCe path S_IFDIR "" 0) istate.

(** Modelled from the spec: [remove_marked_cache_entries] of
    index/index.c drops the entries flagged [CE_REMOVE]. *)
Definition remove_marked_cache_entries (istate : index_state) : index_state :=
  filter (fun ce => Z.land (ce_flags ce) CE_REMOVE = 0) istate.

(** The index file of a repository under the index directory. *)
Inductive index_file :=
| IndexCorrupt
| IndexData (istate : index_state).

End Index.

(** The block and tree stores (fs-mgr.h, index/cache-tree.h), which turn
    file content and index snapshots into object ids.  A [None] result is
    the negative return value of the C function.
    [errno_after_add_to_index full_path crypt e] tells whether [errno] is
    non-zero when [add_to_index], which checks the blocks of the file in
    through the block store, returns, [e] telling whether it was non-zero
    at the call. *)
Class ObjectStore := {
  seaf_fs_manager_index_blocks : string -> option SeafileCrypt -> option string;
  cache_tree_update : Index.index_state -> option string;
  errno_after_add_to_index : string -> option SeafileCrypt -> bool -> bool
}.

(** ** Commits and the session *)

(** [SeafCommit]; NULL parents and a NULL magic are [None]. *)
Record SeafCommit := mkCommit {
  commit_id : string;
  c_repo_id : string;
  c_root_id : string;
  c_creator_name : string;
  c_creator_id : string;
  c_desc : string;
  c_ctime : Z;
  c_parent_id : option string;
  c_second_parent_id : option string;
  c_repo_name : string;
  c_repo_desc : string;
  c_encrypted : bool;
  c_enc_version : Z;
  c_magic : option string;
  c_no_local_history : bool
}.

(** The process-wide [seaf] session as far as the modelled functions reach
    into it: the file system holding the worktrees, the index directory,
    the commit store with the commits written so far, the branch store
    keyed by (repository id, branch name), the identity of the session and
    the wall clock.  [index_writable] and [commit_store_ok] say whether a
    write to the index directory, respectively to the commit store,
    succeeds. *)
Record SeafileSession := mkSession {
  fs_root : Fs.fsnode;
  index_files : gmap string Index.index_file;
  index_writable : bool;
  commits : list SeafCommit;
  commit_store_ok : bool;
  branches : gmap (string * string) string;
  user_name : string;
  session_id : string;
  clock : Z
}.

Definition set_index_files (m : gmap string Index.index_file)
    (s : SeafileSession) : SeafileSession :=
  mkSession (fs_root s) m (index_writable s) (commits s) (commit_store_ok s)
    (branches s) (user_name s) (session_id s) (clock s).

Definition set_commits (l : list SeafCommit) (s : SeafileSession)
    : SeafileSession :=
  mkSession (fs_root s) (index_files s) (index_writable s) l
    (commit_store_ok s) (branches s) (user_name s) (session_id s) (clock s).

Definition set_branches (m : gmap (string * string) string)
    (s : SeafileSession) : SeafileSession :=
  mkSession (fs_root s) (index_files s) (index_writable s) (commits s)
    (commit_store_ok s) m (user_name s) (session_id s) (clock s).

(** ** Worktree scanner: recursive add, removal of deleted entries *)

Module Worktree.
Import CStr Fs Index Ignore.

Section WithObjectStore.
Context {store : ObjectStore}.

(** [index_cb]: check the blocks of the file in and get the object id.
    The blocks go to the block store, which is not a part of
    [SeafileSession]: what the call writes there is not tracked. *)
Definition index_cb (path : string) (crypt : option SeafileCrypt)
    : outcome (Z * string) :=
  match seaf_fs_manager_index_blocks path crypt with
  | None => Done (-1, "")
  | Some sha1 => Done (0, sha1)
  end.

(** [add_recursive] from the point where [g_lstat (full_path)] has found
    [node], that is after the test for a trailing space.  [errno] tells
    whether the variable of that name is non-zero, at the call and, in the
    result, at the return; the result is the return value, the index and
    [errno].

    [g_dir_open] leaves [errno] non-zero when it fails, and so does a
    failed read of the directory; the calls that succeed ([g_build_path],
    [g_lstat], [g_dir_read_name], [g_dir_close], [g_free]) leave it as it
    is.  An entry read from a directory is there when the recursive call
    looks at it: its [g_lstat] finds the child. *)
Fixpoint add_recursive_node (node : fsnode) (istate : index_state)
    (errno : bool) (worktree path : string) (crypt : option SeafileCrypt)
    (ignore_empty_dir : bool) {struct node}
    : outcome (Z * index_state * bool) :=
  let full_path := g_build_path worktree path in
  if S_ISREG (st_mode node) then
    r <-! add_to_index istate path full_path (st_mode node) crypt index_cb;
    Done (fst r, snd r, errno_after_add_to_index full_path crypt errno)
  else if S_ISDIR (st_mode node) then
    match node with
    | FsDir DirOpenFails _ => Done (-1, istate, true)
    | FsDir status entries =>
        r <-! (fix loop (es : list (string * fsnode)) (istate : index_state)
                 (n : Z) (errno : bool) {struct es}
                 : outcome (index_state * Z * bool) :=
                 match es with
                 | [] => Done (istate, n, errno)
                 | (dname, child) :: es' =>
                     if should_ignore dname then loop es' istate n errno
                     else
                       let subpath := g_build_path path dname in
                       ts <-! has_trailing_space subpath;
                       if ts then loop es' istate (n + 1) errno
                       else
                         r <-! add_recursive_node child istate errno worktree
                                 subpath crypt ignore_empty_dir;
                         loop es' (snd (fst r)) (n + 1) (snd r)
                 end) entries istate 0 false;
        let errno := match status with
                     | DirReadFails => true
                     | _ => snd r
                     end in
        if errno then Done (-1, fst (fst r), true)
        else if (snd (fst r) =? 0) && negb ignore_empty_dir
        then Done (0, add_empty_dir_to_index (fst (fst r)) path, false)
        else Done (0, fst (fst r), false)
    | _ => Done (-1, istate, errno)
    end
  else Done (0, istate, errno).

(** A recursive call of [add_recursive] on an entry read from a
    directory: [path] is the string [g_build_path] has just allocated,
    [node] is what its [g_lstat] finds. *)
Definition add_recursive_found (node : fsnode) (istate : index_state)
    (errno : bool) (worktree path : string) (crypt : option SeafileCrypt)
    (ignore_empty_dir : bool) : outcome (Z * index_state * bool) :=
  ts <-! has_trailing_space path;
  if ts then Done (0, istate, errno)
  else add_recursive_node node istate errno worktree path crypt ignore_empty_dir.

(** One turn of the [while ((dname = g_dir_read_name (dir)) != NULL)]
    loop of [add_recursive], for the entry just read: the index, the
    counter [n] and [errno] after it. *)
Definition add_dir_entry (e : string * fsnode) (istate : index_state) (n : Z)
    (errno : bool) (worktree path : string) (crypt : option SeafileCrypt)
    (ignore_empty_dir : bool) : outcome (index_state * Z * bool) :=
  let (dname, child) := e in
  if should_ignore dname then Done (istate, n, errno)
  else
    let subpath := g_build_path path dname in
    r <-! add_recursive_found child istate errno worktree subpath crypt
            ignore_empty_dir;
    Done (snd (fst r), n + 1, snd r).

(** The whole loop, from the entries still to be read. *)
Fixpoint add_dir_entries (es : list (string * fsnode)) (istate : index_state)
    (n : Z) (errno : bool) (worktree path : string)
    (crypt : option SeafileCrypt) (ignore_empty_dir : bool)
    : outcome (index_state * Z * bool) :=
  match es with
  | [] => Done (istate, n, errno)
  | e :: es' =>
      r <-! add_dir_entry e istate n errno worktree path crypt ignore_empty_dir;
      add_dir_entries es' (fst (fst r)) (snd (fst r)) (snd r) worktree path crypt
        ignore_empty_dir
  end.

(** [add_recursive] as its callers reach it: [path] points into a buffer
    with the bytes [before] in front of it.  The return value and the
    index do not depend on [errno] at the call: nothing reads it before
    the directory loop sets it to 0. *)
Definition add_recursive (root : fsnode) (istate : index_state)
    (before : list ascii) (worktree path : string)
    (crypt : option SeafileCrypt) (ignore_empty_dir : bool)
    : outcome (Z * index_state) :=
  ts <-! has_trailing_space_at before path;
  if ts then Done (0, istate)
  else
    match g_lstat root (g_build_path worktree path) with
    | None => Done (1, istate)
    | Some node =>
        r <-! add_recursive_node node istate false worktree path crypt
                ignore_empty_dir;
        Done (fst r)
    end.

(** [is_empty_dir (path)], on what [g_dir_open (path)] finds. *)
Definition is_empty_dir (node : option fsnode) : bool :=
  match node with
  | Some (FsDir DirOpenFails _) => false
  | Some (FsDir _ entries) =>
      (fold_left (fun n e => if should_ignore (fst e) then n else n + 1)
         entries 0) =? 0
  | _ => false
  end.

Definition remove_deleted (root : fsnode) (istate : index_state)
    (worktree prefix : string) : index_state :=
  let len := String.length prefix in
  remove_marked_cache_entries
    (map (fun ce =>
            if negb (strncmp_eq (ce_name ce) prefix len) then ce
            else
              let path := worktree +:+ "/" +:+ ce_name ce in
              let ret := g_lstat root path in
              if S_ISDIR (ce_mode ce) then
                match ret with
                | None => mark_remove ce
                | Some st =>
                    if negb (S_ISDIR (st_mode st)) || negb (is_empty_dir ret)
                    then mark_remove ce else ce
                end
              else
                match ret with
                | None => mark_remove ce
                | Some st =>
                    if negb (S_ISREG (st_mode st)) then mark_remove ce else ce
                end)
       istate).

(** [seaf_repo_check_worktree]: 0 when the worktree is set and is an
    existing directory, -1 otherwise. *)
Definition seaf_repo_check_worktree (s : SeafileSession) (repo : SeafRepo) : Z :=
  match repo_worktree repo with
  | None => -1
  | Some wt =>
      if negb (g_access (fs_root s) wt) then -1
      else
        match g_stat (fs_root s) wt with
        | None => -1
        | Some st => if negb (S_ISDIR (st_mode st)) then -1 else 0
        end
  end.

(** [seaf_repo_manager_invalidate_repo_worktree] and its counterpart, on
    the repository; the subscription to the worktree monitor they trigger
    is outside the model. *)
Definition seaf_repo_manager_invalidate_repo_worktree (repo : SeafRepo)
    : SeafRepo :=
  if repo_worktree_invalid repo then repo else set_worktree_invalid true repo.

Definition seaf_repo_manager_validate_repo_worktree (repo : SeafRepo)
    : SeafRepo :=
  if negb (repo_worktree_invalid repo) then repo
  else set_worktree_invalid false repo.

Definition check_worktree_common (s : SeafileSession) (repo : SeafRepo)
    : bool * SeafRepo :=
  match repo_head repo with
  | None => (false, repo)
  | Some _ =>
      if seaf_repo_check_worktree s repo <? 0
      then (false, seaf_repo_manager_invalidate_repo_worktree repo)
      else (true, seaf_repo_manager_validate_repo_worktree repo)
  end.

(** Modelled from the spec: [read_index_from] of index/index.c on the
    file [<index_dir>/<repo_id>]: "fails with Corrupt if
    signature/version/checksum mismatch; empty or missing file yields an
    unborn index". *)
Definition read_index_from (s : SeafileSession) (repo_id : string)
    : option index_state :=
  match index_files s !! repo_id with
  | None => Some []
  | Some IndexCorrupt => None
  | Some (IndexData istate) => Some istate
  end.

(** Modelled from the spec: [update_index] of index/index.c writes the
    index file of the repository, or fails and leaves it as it was. *)
Definition update_index (s : SeafileSession) (repo_id : string)
    (istate : index_state) : Z * SeafileSession :=
  if index_writable s
  then (0, set_index_files (<[repo_id := IndexData istate]> (index_files s)) s)
  else (-1, s).

(** [while (path[0] == '/') path = &path[1];]: the string [path] points
    at afterwards, and the bytes of the buffer that then lie in front of
    it. *)
Definition skip_leading_slashes (path : string) : string :=
  string_of_list_ascii (skip_seps (chars path)).

Definition skipped_slashes (path : string) : list ascii :=
  leading_seps (chars path).

(** [seaf_repo_index_add], for a [path] that points at the first byte of
    its buffer.  The wait for the garbage collector at its start is a
    matter of scheduling and is left out. *)
Definition seaf_repo_index_add (s : SeafileSession) (repo : SeafRepo)
    (path : string) : outcome (Z * SeafRepo * SeafileSession) :=
  let (ok, repo) := check_worktree_common s repo in
  if negb ok then Done (-1, repo, s)
  else
    match read_index_from s (repo_id repo) with
    | None => Done (-1, repo, s)
    | Some istate =>
        let before := skipped_slashes path in
        let path := skip_leading_slashes path in
        let crypt :=
          if repo_encrypted repo
          then Some (seafile_crypt_new (repo_enc_version repo)
                       (repo_enc_key repo) (repo_enc_iv repo))
          else None in
        let worktree := default "" (repo_worktree repo) in
        r <-! add_recursive (fs_root s) istate before worktree path crypt true;
        if fst r <? 0 then Done (-1, repo, s)
        else
          let istate := remove_deleted (fs_root s) (snd r) worktree path in
          let (ret, s') := update_index s (repo_id repo) istate in
          if ret <? 0 then Done (-1, repo, s) else Done (0, repo, s')
    end.

End WithObjectStore.

Section WithCrypto.
Context {store : ObjectStore} {crypto : CryptoPrimitive}.

(** [seaf_repo_index_worktree_files]: the return value, the root id
    written to [root_id] when the cache tree was built, and the session.
    The path it hands to [add_recursive] is the string literal [""],
    with nothing in front of it. *)
Definition seaf_repo_index_worktree_files (s : SeafileSession)
    (repo_id worktree : string) (passwd : option string)
    : outcome (Z * option string * SeafileSession) :=
  let s :=
    match passwd with
    | Some _ => set_index_files (delete repo_id (index_files s)) s
    | None => s
    end in
  match read_index_from s repo_id with
  | None => Done (-1, None, s)
  | Some istate =>
      let crypt :=
        match passwd with
        | Some pw =>
            let (key, iv) := seafile_generate_enc_key pw 1 in
            Some (seafile_crypt_new 1 (string_of_list_ascii key)
                    (string_of_list_ascii iv))
        | None => None
        end in
      r <-! add_recursive (fs_root s) istate [] worktree "" crypt false;
      if fst r <? 0 then Done (-1, None, s)
      else
        let istate := remove_deleted (fs_root s) (snd r) worktree "" in
        match cache_tree_update istate with
        | None => Done (-1, None, s)
        | Some root_id =>
            let (ret, s') := update_index s repo_id istate in
            if ret <? 0 then Done (-1, Some root_id, s)
            else Done (0, Some root_id, s')
        end
  end.

End WithCrypto.

End Worktree.

(** ** Passphrase proof ([seaf_repo_generate_magic], [seaf_repo_verify_passwd]) *)

Module Crypt.
Import CStr.

Definition hex_digit (n : nat) : ascii :=
  nth n (chars "0123456789abcdef") "0"%char.

(** The value of a hexadecimal digit. *)
Definition hex_val (c : ascii) : nat :=
  let n := nat_of_ascii c in
  if (n <? 58)%nat then (n - 48)%nat else (n - 87)%nat.

(** [rawdata_to_hex (rawdata, hex, len)] of utils.c, which is not in the
    source file: two lower-case hexadecimal digits for each of the first
    [len] bytes, high nibble first. *)
Definition rawdata_to_hex (rawdata : list ascii) (len : nat) : string :=
  string_of_list_ascii
    (flat_map (fun b => [hex_digit (nat_of_ascii b / 16);
                         hex_digit (nat_of_ascii b mod 16)])
       (take len rawdata)).

Section WithCrypto.
Context {crypto : CryptoPrimitive}.

(** The content of the buffer [key] once [seafile_generate_enc_key] has
    run on [data] at encryption version [version]. *)
Definition derived_key (data : string) (version : Z) : list ascii :=
  take 16 (fst (seafile_generate_enc_key data version)).

Definition seaf_repo_generate_magic (repo : SeafRepo) (passwd : string)
    : SeafRepo :=
  let buf := repo_id repo +:+ passwd in
  let (key, iv) := seafile_generate_enc_key buf CURRENT_ENC_VERSION in
  set_magic (rawdata_to_hex key 16) repo.

Definition seaf_repo_verify_passwd (repo : SeafRepo) (passwd : string) : Z :=
  let buf := repo_id repo +:+ passwd in
  let (key, iv) := seafile_generate_enc_key buf (repo_enc_version repo) in
  let hex := rawdata_to_hex key 16 in
  if strcmp_eq hex (repo_magic repo) then 0 else -1.

End WithCrypto.
End Crypt.

(** ** Commit builder ([status_to_description], [gen_commit_description],
       [commit_tree], [seaf_repo_index_commit]) *)

Module Commit.
Import CStr Fs Index Worktree.

Inductive diff_status :=
| DIFF_STATUS_ADDED
| DIFF_STATUS_DELETED
| DIFF_STATUS_MODIFIED
| DIFF_STATUS_RENAMED
| DIFF_STATUS_UNMERGED
| DIFF_STATUS_DIR_ADDED
| DIFF_STATUS_DIR_DELETED.

Record DiffEntry := mkDiffEntry {
  de_status : diff_status;
  de_name : string
}.

(** The differ of status.h and diff-simple.h: the index against the tree
    of the head commit, and the two passes run over its result. *)
Class Differ := {
  wt_status_collect_changes_index :
    index_state -> SeafRepo -> SeafileSession -> list DiffEntry;
  diff_resolve_empty_dirs : list DiffEntry -> list DiffEntry;
  diff_resolve_renames : list DiffEntry -> list DiffEntry
}.

(** [seaf_commit_new] of commit-mgr.c computes the id of a new commit
    from its root, creator, description and creation time. *)
Class CommitIds := {
  compute_commit_id : string -> string -> string -> string -> Z -> string
}.

Definition get_basename (path : string) : string :=
  match strrchr path "/" with
  | None => path
  | Some slash => drop_chars (S slash) path
  end.

Definition dq : string := String (ascii_of_nat 34) EmptyString.
Definition nl : string := String (ascii_of_nat 10) EmptyString.

(** [%d] of an [int]. *)
Definition string_of_int (z : Z) : string :=
  DecimalString.NilZero.string_of_int (Z.to_int z).

(** The counters and first names gathered by the loop of
    [status_to_description]. *)
Record counts := mkCounts {
  n_new : Z; new_file : string;
  n_removed : Z; removed_file : string;
  n_renamed : Z; renamed_file : string;
  n_modified : Z; modified_file : string;
  n_new_dir : Z; new_dir : string;
  n_removed_dir : Z; removed_dir : string
}.

Definition first_name (n : Z) (old : string) (de : DiffEntry) : string :=
  if n =? 0 then get_basename (de_name de) else old.

Definition count_entry (c : counts) (de : DiffEntry) : counts :=
  match de_status de with
  | DIFF_STATUS_ADDED =>
      mkCounts (n_new c + 1) (first_name (n_new c) (new_file c) de)
        (n_removed c) (removed_file c) (n_renamed c) (renamed_file c)
        (n_modified c) (modified_file c) (n_new_dir c) (new_dir c)
        (n_removed_dir c) (removed_dir c)
  | DIFF_STATUS_DELETED =>
      mkCounts (n_new c) (new_file c)
        (n_removed c + 1) (first_name (n_removed c) (removed_file c) de)
        (n_renamed c) (renamed_file c)
        (n_modified c) (modified_file c) (n_new_dir c) (new_dir c)
        (n_removed_dir c) (removed_dir c)
  | DIFF_STATUS_RENAMED =>
      mkCounts (n_new c) (new_file c) (n_removed c) (removed_file c)
        (n_renamed c + 1) (first_name (n_renamed c) (renamed_file c) de)
        (n_modified c) (modified_file c) (n_new_dir c) (new_dir c)
        (n_removed_dir c) (removed_dir c)
  | DIFF_STATUS_MODIFIED =>
      mkCounts (n_new c) (new_file c) (n_removed c) (removed_file c)
        (n_renamed c) (renamed_file c)
        (n_modified c + 1) (first_name (n_modified c) (modified_file c) de)
        (n_new_dir c) (new_dir c) (n_removed_dir c) (removed_dir c)
  | DIFF_STATUS_DIR_ADDED =>
      mkCounts (n_new c) (new_file c) (n_removed c) (removed_file c)
        (n_renamed c) (renamed_file c) (n_modified c) (modified_file c)
        (n_new_dir c + 1) (first_name (n_new_dir c) (new_dir c) de)
        (n_removed_dir c) (removed_dir c)
  | DIFF_STATUS_DIR_DELETED =>
      mkCounts (n_new c) (new_file c) (n_removed c) (removed_file c)
        (n_renamed c) (renamed_file c) (n_modified c) (modified_file c)
        (n_new_dir c) (new_dir c)
        (n_removed_dir c + 1) (first_name (n_removed_dir c) (removed_dir c) de)
  | DIFF_STATUS_UNMERGED => c
  end.

(** One [if (n == 1) ... else if (n > 1) ...] block: the line appended to
    the description. *)
Definition describe (n : Z) (verb one many : string) (file : string) : string :=
  if n =? 1 then verb +:+ one +:+ dq +:+ file +:+ dq +:+ "." +:+ nl
  else if n >? 1 then
    verb +:+ " " +:+ dq +:+ file +:+ dq +:+ " and "
      +:+ string_of_int (n - 1) +:+ " more " +:+ many +:+ "." +:+ nl
  else "".

(** [status_to_description]; [None] is the NULL result. *)
Definition status_to_description (results : list DiffEntry) : option string :=
  match results with
  | [] => None
  | _ =>
      let c := fold_left count_entry results
                 (mkCounts 0 "" 0 "" 0 "" 0 "" 0 "" 0 "") in
      Some (describe (n_new c) "Added" " " "files" (new_file c)
            +:+ describe (n_removed c) "Deleted" " " "files" (removed_file c)
            +:+ describe (n_renamed c) "Renamed" " " "files" (renamed_file c)
            +:+ describe (n_modified c) "Modified" " " "files" (modified_file c)
            +:+ describe (n_new_dir c) "Added" " directory " "directories"
                  (new_dir c)
            +:+ describe (n_removed_dir c) "Removed" " directory " "directories"
                  (removed_dir c))
  end.

Inductive seaf_err := SEAF_ERR_INTERNAL.

(** A [GError] of the seafile domain. *)
Record GError := g_error {
  err_code : seaf_err;
  err_message : string
}.

Definition set_parent_id (p : option string) (c : SeafCommit) : SeafCommit :=
  mkCommit (commit_id c) (c_repo_id c) (c_root_id c) (c_creator_name c)
    (c_creator_id c) (c_desc c) (c_ctime c) p (c_second_parent_id c)
    (c_repo_name c) (c_repo_desc c) (c_encrypted c) (c_enc_version c)
    (c_magic c) (c_no_local_history c).

Definition set_second_parent_id (p : option string) (c : SeafCommit)
    : SeafCommit :=
  mkCommit (commit_id c) (c_repo_id c) (c_root_id c) (c_creator_name c)
    (c_creator_id c) (c_desc c) (c_ctime c) (c_parent_id c) p
    (c_repo_name c) (c_repo_desc c) (c_encrypted c) (c_enc_version c)
    (c_magic c) (c_no_local_history c).

(** [seaf_repo_to_commit]. *)
Definition seaf_repo_to_commit (repo : SeafRepo) (c : SeafCommit) : SeafCommit :=
  mkCommit (commit_id c) (c_repo_id c) (c_root_id c) (c_creator_name c)
    (c_creator_id c) (c_desc c) (c_ctime c) (c_parent_id c)
    (c_second_parent_id c)
    (repo_name repo) (repo_desc repo) (repo_encrypted repo)
    (if repo_encrypted repo then repo_enc_version repo else c_enc_version c)
    (if repo_encrypted repo && (repo_enc_version repo >=? 1)
     then Some (repo_magic repo) else c_magic c)
    (repo_no_local_history repo).

(** Modelled from the spec: [seaf_branch_manager_get_branch] of
    branch-mgr.c reads the named branch of a repository from the branch
    store; [None] is the NULL result for an absent branch. *)
Definition seaf_branch_manager_get_branch (s : SeafileSession)
    (repo_id name : string) : option SeafBranch :=
  match branches s !! (repo_id, name) with
  | Some cid => Some (mkBranch name repo_id cid)
  | None => None
  end.

(** Modelled from the spec: [seaf_branch_manager_update_branch] of
    branch-mgr.c persists the branch row ("persist the branch row"). *)
Definition seaf_branch_manager_update_branch (s : SeafileSession)
    (b : SeafBranch) : SeafileSession :=
  set_branches (<[(b_repo_id b, b_name b) := b_commit_id b]> (branches s)) s.

(** [seaf_branch_set_commit (branch, commit_id)] of branch-mgr.c. *)
Definition seaf_branch_set_commit (b : SeafBranch) (cid : string) : SeafBranch :=
  mkBranch (b_name b) (b_repo_id b) cid.

(** Modelled from the spec: [seaf_commit_manager_add_commit] of
    commit-mgr.c writes the commit through the commit store; the result
    is negative, and nothing is stored, when the store fails. *)
Definition seaf_commit_manager_add_commit (s : SeafileSession)
    (c : SeafCommit) : Z * SeafileSession :=
  if commit_store_ok s then (0, set_commits (c :: commits s) s) else (-1, s).

Section WithCollaborators.
Context {store : ObjectStore} {differ : Differ} {ids : CommitIds}.

(** Modelled from the spec: [seaf_commit_new (NULL, repo_id, root_id,
    creator_name, creator_id, desc, ctime)] of commit-mgr.c: a commit
    without parents whose id is computed from its fields; a [ctime] of 0
    asks for the wall clock ("creation time is wall-clock seconds"). *)
Definition seaf_commit_new (s : SeafileSession) (repo_id root_id creator_name
    creator_id desc : string) (ctime : Z) : SeafCommit :=
  let ctime := if ctime =? 0 then clock s else ctime in
  mkCommit (compute_commit_id root_id creator_id creator_name desc ctime)
    repo_id root_id creator_name creator_id desc ctime None None
    "" "" false 0 None false.

(** The list [gen_commit_description] hands to [status_to_description]:
    the changes of the index against the head commit, with empty
    directories and renames resolved. *)
Definition index_vs_head_diff (s : SeafileSession) (repo : SeafRepo)
    (istate : index_state) : list DiffEntry :=
  let results := wt_status_collect_changes_index istate repo s in
  let results := diff_resolve_empty_dirs results in
  let results := diff_resolve_renames results in
  results.

Definition gen_commit_description (s : SeafileSession) (repo : SeafRepo)
    (istate : index_state) : option string :=
  status_to_description (index_vs_head_diff s repo istate).

(** [commit_tree]; [root_id] is the hexadecimal form of [it->sha1].  The
    result is the return value, the id copied to [commit_id] on success,
    the repository and the session. *)
Definition commit_tree (s : SeafileSession) (repo : SeafRepo)
    (root_id desc : string) (unmerged : bool) (remote_name : string)
    : outcome (Z * option string * SeafRepo * SeafileSession) :=
  let creator := default (user_name s) (repo_email repo) in
  let commit :=
    if negb unmerged
    then seaf_commit_new s (repo_id repo) root_id creator (session_id s) desc 0
    else seaf_commit_new s (repo_id repo) root_id creator (session_id s)
           "Auto merge by seafile system" 0 in
  let commit :=
    match repo_head repo with
    | Some h => set_parent_id (Some (b_commit_id h)) commit
    | None => commit
    end in
  match (if unmerged
         then match seaf_branch_manager_get_branch s (repo_id repo) "master" with
              | None => None
              | Some b => Some (set_second_parent_id (Some (b_commit_id b)) commit)
              end
         else Some commit) with
  | None => Done (-1, None, repo, s)
  | Some commit =>
      let commit := seaf_repo_to_commit repo commit in
      let (ret, s) := seaf_commit_manager_add_commit s commit in
      if ret <? 0 then Done (-1, None, repo, s)
      else
        match repo_head repo with
        | None => Fault
        | Some h =>
            let h := seaf_branch_set_commit h (commit_id commit) in
            let repo := set_head (Some h) repo in
            let s := seaf_branch_manager_update_branch s h in
            Done (0, Some (commit_id commit), repo, s)
        end
  end.

(** [seaf_repo_index_commit]: the commit id returned (NULL is [None]),
    the error stored through [error] if any, the repository and the
    session.  The "repo-committed" signal emitted at the end is outside
    the model. *)
Definition seaf_repo_index_commit (s : SeafileSession) (repo : SeafRepo)
    (desc : string) (unmerged : bool) (remote_name : string)
    : outcome (option string * option GError * SeafRepo * SeafileSession) :=
  let (ok, repo) := check_worktree_common s repo in
  if negb ok then Done (None, None, repo, s)
  else
    match read_index_from s (repo_id repo) with
    | None =>
        Done (None,
              Some (g_error SEAF_ERR_INTERNAL "Internal data structure error"),
              repo, s)
    | Some istate =>
        match (if negb unmerged && String.eqb desc ""
               then gen_commit_description s repo istate
               else Some desc) with
        | None => Done (None, None, repo, s)
        | Some my_desc =>
            match cache_tree_update istate with
            | None =>
                Done (None,
                      Some (g_error SEAF_ERR_INTERNAL
                              "Internal data structure error"),
                      repo, s)
            | Some root_id =>
                r <-! commit_tree s repo root_id my_desc unmerged remote_name;
                let '(ret, cid, repo', s') := r in
                if ret <? 0
                then Done (None,
                           Some (g_error SEAF_ERR_INTERNAL "Internal error"),
                           repo', s')
                else Done (cid, None, repo', s')
            end
        end
    end.

End WithCollaborators.
End Commit.

(** ** The embedded store (repo.db) *)

Module Db.

(** The tables created by [open_db].  A table with a primary key is a
    finite map from the key, [RepoProperty] has none and is a list of
    rows.  [db_ok] says whether the store executes statements; when it
    does not, every statement fails and changes nothing. *)
Record sqlite3 := mkDb {
  db_ok : bool;
  Repo : gset string;
  DeletedRepo : gset string;
  RepoBranch : gmap string string;
  RepoLanToken : gmap string string;
  RepoTmpToken : gmap (string * string) (string * Z);
  RepoPasswd : gmap string string;
  RepoKeys : gmap string (string * string);
  RepoProperty : list (string * string * string);
  MergeInfo : gmap string (Z * string)
}.

(** The statements the modelled functions send to the store. *)
Inductive sql :=
| DELETE_FROM_Repo (repo_id : string)
| INSERT_INTO_DeletedRepo (repo_id : string)
| DELETE_FROM_DeletedRepo (repo_id : string)
| DELETE_FROM_RepoBranch (branch_name repo_id : string)
| DELETE_FROM_RepoProperty (repo_id : string)
| DELETE_FROM_RepoPasswd (repo_id : string)
| DELETE_FROM_RepoKeys (repo_id : string)
| DELETE_FROM_MergeInfo (repo_id : string)
| REPLACE_INTO_RepoTmpToken (repo_id peer_id token : string) (timestamp : Z)
| DELETE_FROM_RepoTmpToken (repo_id peer_id : string).

(** What a statement does to the tables; [None] is a constraint
    violation. *)
Definition run (db : sqlite3) (q : sql) : option sqlite3 :=
  match q with
  | DELETE_FROM_Repo id =>
      Some (mkDb (db_ok db) (Repo db ∖ {[id]}) (DeletedRepo db) (RepoBranch db)
              (RepoLanToken db) (RepoTmpToken db) (RepoPasswd db) (RepoKeys db)
              (RepoProperty db) (MergeInfo db))
  | INSERT_INTO_DeletedRepo id =>
      if bool_decide (id ∈ DeletedRepo db) then None
      else
        Some (mkDb (db_ok db) (Repo db) ({[id]} ∪ DeletedRepo db) (RepoBranch db)
                (RepoLanToken db) (RepoTmpToken db) (RepoPasswd db) (RepoKeys db)
                (RepoProperty db) (MergeInfo db))
  | DELETE_FROM_DeletedRepo id =>
      Some (mkDb (db_ok db) (Repo db) (DeletedRepo db ∖ {[id]}) (RepoBranch db)
              (RepoLanToken db) (RepoTmpToken db) (RepoPasswd db) (RepoKeys db)
              (RepoProperty db) (MergeInfo db))
  | DELETE_FROM_RepoBranch name id =>
      Some (mkDb (db_ok db) (Repo db) (DeletedRepo db)
              (match RepoBranch db !! id with
               | Some n => if String.eqb n name then delete id (RepoBranch db)
                           else RepoBranch db
               | None => RepoBranch db
               end)
              (RepoLanToken db) (RepoTmpToken db) (RepoPasswd db) (RepoKeys db)
              (RepoProperty db) (MergeInfo db))
  | DELETE_FROM_RepoProperty id =>
      Some (mkDb (db_ok db) (Repo db) (DeletedRepo db) (RepoBranch db)
              (RepoLanToken db) (RepoTmpToken db) (RepoPasswd db) (RepoKeys db)
              (filter (fun row => row.1.1 ≠ id) (RepoProperty db))
              (MergeInfo db))
  | DELETE_FROM_RepoPasswd id =>
      Some (mkDb (db_ok db) (Repo db) (DeletedRepo db) (RepoBranch db)
              (RepoLanToken db) (RepoTmpToken db) (delete id (RepoPasswd db))
              (RepoKeys db) (RepoProperty db) (MergeInfo db))
  | DELETE_FROM_RepoKeys id =>
      Some (mkDb (db_ok db) (Repo db) (DeletedRepo db) (RepoBranch db)
              (RepoLanToken db) (RepoTmpToken db) (RepoPasswd db)
              (delete id (RepoKeys db)) (RepoProperty db) (MergeInfo db))
  | DELETE_FROM_MergeInfo id =>
      Some (mkDb (db_ok db) (Repo db) (DeletedRepo db) (RepoBranch db)
              (RepoLanToken db) (RepoTmpToken db) (RepoPasswd db) (RepoKeys db)
              (RepoProperty db) (delete id (MergeInfo db)))
  | REPLACE_INTO_RepoTmpToken id peer token ts =>
      Some (mkDb (db_ok db) (Repo db) (DeletedRepo db) (RepoBranch db)
              (RepoLanToken db) (<[(id, peer) := (token, ts)]> (RepoTmpToken db))
              (RepoPasswd db) (RepoKeys db) (RepoProperty db) (MergeInfo db))
  | DELETE_FROM_RepoTmpToken id peer =>
      Some (mkDb (db_ok db) (Repo db) (DeletedRepo db) (RepoBranch db)
              (RepoLanToken db) (delete (id, peer) (RepoTmpToken db))
              (RepoPasswd db) (RepoKeys db) (RepoProperty db) (MergeInfo db))
  end.

(** [sqlite_query_exec (db, sql)] of db.c: 0 when the statement ran,
    -1 when it failed. *)
Definition sqlite_query_exec (db : sqlite3) (q : sql) : Z * sqlite3 :=
  if db_ok db then
    match run db q with
    | Some db' => (0, db')
    | None => (-1, db)
    end
  else (-1, db).

(** [sqlite_check_for_existence] on [SELECT timestamp FROM RepoTmpToken
    WHERE repo_id=.. AND peer_id=.. AND token=..]: whether a row comes
    back. *)
Definition tmp_token_row_exists (db : sqlite3) (repo_id peer_id token : string)
    : bool :=
  db_ok db &&
  match RepoTmpToken db !! (repo_id, peer_id) with
  | Some (t, _) => String.eqb t token
  | None => false
  end.

End Db.

(** ** Statements as text

    The code builds most of its statements with [snprintf], pasting its
    arguments between single quotes with [%s].  Repository ids, peer ids
    and branch names are identifiers made by the daemon (36 characters
    of a UUID, 40 of a peer id, no quote): pasted, they give the
    statement the code means to send, and the statements that paste
    nothing else are modelled by what they mean ([Db.sql]).  A token or
    a property key comes from outside: pasted, it gives the statement
    meant only when it holds no quote and the text fits the buffer; what
    sqlite makes of any other text is left open, as the methods of a
    class. *)

Module SqlText.
Import CStr Db.

Definition quote_free (s : string) : bool :=
  forallb (fun c => negb (Ascii.eqb c "'")) (chars s).

(** [snprintf (buf, size, ...)] stores the first [size - 1] bytes of the
    text and a terminator. *)
Definition snprintf (size : nat) (text : string) : string :=
  String.substring 0 (size - 1) text.

Definition tmp_token_select_text (repo_id peer_id token : string) : string :=
  "SELECT timestamp FROM RepoTmpToken WHERE repo_id='" +:+ repo_id
  +:+ "' AND peer_id='" +:+ peer_id +:+ "' AND token='" +:+ token +:+ "'".

Definition lantoken_replace_text (repo_id token : string) : string :=
  "REPLACE INTO RepoLanToken VALUES ('" +:+ repo_id +:+ "', '" +:+ token
  +:+ "');".

Definition property_select_text (repo_id key : string) : string :=
  "SELECT value FROM RepoProperty WHERE repo_id='" +:+ repo_id
  +:+ "' and key='" +:+ key +:+ "'".

(** The bytes left for the string from outside once the fixed text and
    the identifiers are in the buffer: [sql[512]] in
    [seaf_repo_manager_verify_tmp_token], [sql[256]] in
    [seaf_repo_manager_set_repo_lantoken] and in [load_repo_property]. *)
Definition tmp_token_room : nat :=
  511 - String.length (tmp_token_select_text "" "" "") - 36 - 40.

Definition lantoken_room : nat :=
  255 - String.length (lantoken_replace_text "" "") - 36.

Definition property_key_room : nat :=
  255 - String.length (property_select_text "" "") - 36.

(** A string that, pasted with [%s] where [room] bytes are left, gives
    the statement meant. *)
Definition plain (room : nat) (s : string) : bool :=
  quote_free s && (String.length s <=? room)%nat.

(** What sqlite makes of the text of a statement that is not the one
    meant: whether [sqlite_check_for_existence] finds a row, the result
    of [sqlite_query_exec] and the tables after it, the value
    [sqlite_foreach_selected_row] hands to the callback of
    [load_repo_property] for the first row (NULL when there is no row or
    the statement fails). *)
Class SqlEngine := {
  sqlite_check_for_existence_text : sqlite3 -> string -> bool;
  sqlite_query_exec_text : sqlite3 -> string -> Z * sqlite3;
  sqlite_select_value_text : sqlite3 -> string -> option string
}.

End SqlText.

(** ** Repository manager: registry, lookups, purge, temporary tokens *)

Module Manager.
Import CStr Db SqlText.

(** The AVL tree of avl/avl.h holding the repositories, ordered by
    [compare_repo].  The library is not part of the source file; only the
    shape its search walks is kept, balance is not. *)
Inductive avl_tree :=
| AvlLeaf
| AvlNode (left : avl_tree) (item : SeafRepo) (right : avl_tree).

(** [compare_repo]: [g_strcmp0] of the two ids. *)
Definition compare_repo (srepo_id trepo_id : string) : comparison :=
  String.compare srepo_id trepo_id.

(** [avl_search_closest (tree, item, &node)] of the AVL library: walk
    down from the top comparing [item] with each node; stop at an equal
    node (result 0) or at the node below which [item] would be inserted
    (result -1 or 1).  An empty tree gives a NULL node and 0. *)
Fixpoint avl_search_closest (t : avl_tree) (key : string)
    : option SeafRepo * Z :=
  match t with
  | AvlLeaf => (None, 0)
  | AvlNode l item r =>
      match compare_repo key (repo_id item) with
      | Eq => (Some item, 0)
      | Lt => match l with
              | AvlLeaf => (Some item, -1)
              | _ => avl_search_closest l key
              end
      | Gt => match r with
              | AvlLeaf => (Some item, 1)
              | _ => avl_search_closest r key
              end
      end
  end.

(** [avl_search]: the node found by [avl_search_closest] when its result
    is 0, NULL otherwise. *)
Definition avl_search (t : avl_tree) (key : string) : option SeafRepo :=
  let (node, c) := avl_search_closest t key in
  if c =? 0 then node else None.

(** The nodes from [tree->head] along [node->next] to [tree->tail]. *)
Fixpoint avl_nodes (t : avl_tree) : list SeafRepo :=
  match t with
  | AvlLeaf => []
  | AvlNode l item r => avl_nodes l ++ item :: avl_nodes r
  end.

(** A store through a [SeafRepo *] that points into the tree. *)
Fixpoint avl_update (f : SeafRepo -> SeafRepo) (id : string) (t : avl_tree)
    : avl_tree :=
  match t with
  | AvlLeaf => AvlLeaf
  | AvlNode l item r =>
      AvlNode (avl_update f id l)
        (if String.eqb (repo_id item) id then f item else item)
        (avl_update f id r)
  end.

(** [SeafRepoManager] with its private part: the registry and the store.
    The two locks are a matter of scheduling and are left out. *)
Record SeafRepoManager := mkMgr {
  repo_tree : avl_tree;
  db : sqlite3
}.

(** [seaf_repo_manager_mark_repo_deleted], for the repository of the
    registry with the given id. *)
Definition seaf_repo_manager_mark_repo_deleted (mgr : SeafRepoManager)
    (id : string) : Z * SeafRepoManager :=
  let (ret, db') := sqlite_query_exec (db mgr) (INSERT_INTO_DeletedRepo id) in
  if ret <? 0 then (-1, mgr)
  else (0, mkMgr (avl_update (set_delete_pending true) id (repo_tree mgr)) db').

Definition seaf_repo_manager_get_repo (mgr : SeafRepoManager) (id : string)
    : option SeafRepo :=
  let len := strlen id in
  if len >=? 37 then None
  else
    match avl_search (repo_tree mgr) id with
    | Some ret => if negb (repo_delete_pending ret) then Some ret else None
    | None => None
    end.

Definition seaf_repo_manager_get_repo_prefix (mgr : SeafRepoManager)
    (id : string) : option SeafRepo :=
  let len := strlen id in
  if len >=? 37 then None
  else
    match fst (avl_search_closest (repo_tree mgr) id) with
    | Some result =>
        if strncmp_eq id (repo_id result) (Z.to_nat len) then Some result
        else None
    | None => None
    end.

(** [memcpy (repo.id, id, 37)] reads 37 bytes of [id]: for an id of less
    than 36 characters that is more than the buffer of [id] holds.  For
    an id of more than 36 the array [repo.id] then holds its first 37
    bytes and no terminator; [compare_repo] on it and the id of a
    repository of the registry, which has at most 36 characters, stops
    at the terminator of that id at the latest, so inside the array, and
    does not find the two equal. *)
Definition memcpy_id_37 (id : string) : outcome string :=
  if strlen id <? 36 then Fault else Done (String.substring 0 37 id).

Definition seaf_repo_manager_repo_exists (mgr : SeafRepoManager) (id : string)
    : outcome bool :=
  key <-! memcpy_id_37 id;
  match avl_search (repo_tree mgr) key with
  | Some ret => if negb (repo_delete_pending ret) then Done true else Done false
  | None => Done false
  end.

Definition seaf_repo_manager_repo_exists_prefix (mgr : SeafRepoManager)
    (id : string) : outcome bool :=
  key <-! memcpy_id_37 id;
  match fst (avl_search_closest (repo_tree mgr) key) with
  | Some _ => Done true
  | None => Done false
  end.

(** [seaf_repo_manager_get_repo_list]; [start] and [limit] are not read. *)
Definition seaf_repo_manager_get_repo_list (mgr : SeafRepoManager)
    (start limit : Z) : list SeafRepo :=
  fold_left (fun repo_list repo =>
               if negb (repo_delete_pending repo) then repo :: repo_list
               else repo_list)
    (avl_nodes (repo_tree mgr)) [].

(** *** Temporary tokens *)

(** [seaf_repo_manager_generate_tmp_token]; [now] is the value of
    [time (NULL)] and [uuid] the string [gen_uuid ()] returns. *)
Definition seaf_repo_manager_generate_tmp_token (mgr : SeafRepoManager)
    (repo_id peer_id : string) (now : Z) (uuid : string)
    : option string * SeafRepoManager :=
  let token := uuid in
  let (ret, db') :=
    sqlite_query_exec (db mgr) (REPLACE_INTO_RepoTmpToken repo_id peer_id token now) in
  if ret <? 0 then (None, mgr)
  else (Some token, mkMgr (repo_tree mgr) db').

Section WithEngine.
Context {engine : SqlEngine}.

(** [seaf_repo_manager_verify_tmp_token]; a NULL argument is [None].
    The SELECT pastes the token into [sql[512]]; the DELETE pastes the two
    ids only.  [delete_runs] tells whether the store executes the DELETE:
    a statement can fail on its own (the file is locked by another
    process, the disk is full), and the code does not look at the result
    of this one. *)
Definition seaf_repo_manager_verify_tmp_token (delete_runs : bool)
    (mgr : SeafRepoManager) (repo_id peer_id token : option string)
    : Z * SeafRepoManager :=
  match repo_id, peer_id, token with
  | Some repo_id, Some peer_id, Some token =>
      let sql := snprintf 512 (tmp_token_select_text repo_id peer_id token) in
      let ret :=
        if plain tmp_token_room token
        then tmp_token_row_exists (db mgr) repo_id peer_id token
        else sqlite_check_for_existence_text (db mgr) sql in
      if ret then
        let db' :=
          if delete_runs
          then snd (sqlite_query_exec (db mgr)
                      (DELETE_FROM_RepoTmpToken repo_id peer_id))
          else db mgr in
        (1, mkMgr (repo_tree mgr) db')
      else (0, mgr)
  | _, _, _ => (0, mgr)
  end.

(** *** The token rule in the words of the specification *)

(** The result of a verification made when the wall clock reads [now];
    the call itself does not read the clock. *)
Definition verified_at (now : Z) (delete_runs : bool) (mgr : SeafRepoManager)
    (repo_id peer_id token : string) : Z :=
  fst (seaf_repo_manager_verify_tmp_token delete_runs mgr (Some repo_id)
         (Some peer_id) (Some token)).

End WithEngine.

(** Tokens are bounded in time by [bound]: a token generated at [t_gen]
    does not verify at any time after [t_gen + bound], whatever the
    store does with the texts it is sent and with the DELETE. *)
Definition time_bounded (bound : Z) : Prop :=
  forall (engine : SqlEngine) delete_runs mgr repo_id peer_id uuid t_gen
         t_verify token mgr',
    seaf_repo_manager_generate_tmp_token mgr repo_id peer_id t_gen uuid
    = (Some token, mgr') ->
    t_gen + bound < t_verify ->
    verified_at t_verify delete_runs mgr' repo_id peer_id token = 0.

End Manager.

(** ** Purge of a repository ([remove_repo_ondisk]) *)

Module Purge.
Import CStr Db Manager.

(** What [remove_repo_ondisk] asks of the store, the index directory and
    the branch manager, one event per request. *)
Inductive event :=
| EvSql (q : sql)
| EvUnlinkIndex (repo_id : string)
| EvDelBranch (repo_id name : string).

#[global] Instance sql_eq_dec : EqDecision sql.
Proof. solve_decision. Defined.

#[global] Instance event_eq_dec : EqDecision event.
Proof. solve_decision. Defined.

(** The state the purge runs in: the store, the session (index directory
    and branch store) and the requests made so far, oldest first. *)
Record env := mkEnv {
  e_db : sqlite3;
  e_session : SeafileSession;
  e_log : list event
}.

Definition exec (q : sql) (e : env) : Z * env :=
  let (ret, db') := sqlite_query_exec (e_db e) q in
  (ret, mkEnv db' (e_session e) (e_log e ++ [EvSql q])).

(** [g_unlink (<index_dir>/<repo_id>)]; a missing file is not an error
    worth more than a warning. *)
Definition g_unlink_index (repo_id : string) (e : env) : env :=
  mkEnv (e_db e)
    (set_index_files (delete repo_id (index_files (e_session e))) (e_session e))
    (e_log e ++ [EvUnlinkIndex repo_id]).

(** Modelled from the spec: [seaf_branch_manager_get_branch_list] of
    branch-mgr.c: the branches of the repository in the branch store. *)
Definition seaf_branch_manager_get_branch_list (s : SeafileSession)
    (repo_id : string) : list SeafBranch :=
  map (fun kv => mkBranch kv.1.2 kv.1.1 kv.2)
    (filter (fun kv => kv.1.1 = repo_id) (map_to_list (branches s))).

(** Modelled from the spec: [seaf_branch_manager_del_branch] of
    branch-mgr.c removes the branch from the branch store. *)
Definition seaf_branch_manager_del_branch (repo_id name : string) (e : env)
    : env :=
  mkEnv (e_db e)
    (set_branches (delete (repo_id, name) (branches (e_session e))) (e_session e))
    (e_log e ++ [EvDelBranch repo_id name]).

Definition seaf_repo_manager_branch_repo_unmap (b : SeafBranch) (e : env)
    : Z * env :=
  let (ret, e) := exec (DELETE_FROM_RepoBranch (b_name b) (b_repo_id b)) e in
  if ret <? 0 then (-1, e) else (0, e).

Definition seaf_repo_manager_del_repo_property (repo_id : string) (e : env)
    : env :=
  snd (exec (DELETE_FROM_RepoProperty repo_id) e).

(** The body of the loop of [remove_repo_ondisk] over the branch list. *)
Definition remove_branch (repo_id : string) (e : env) (b : SeafBranch) : env :=
  let e := snd (seaf_repo_manager_branch_repo_unmap b e) in
  seaf_branch_manager_del_branch repo_id (b_name b) e.

Definition remove_repo_ondisk (e : env) (repo_id : string) : env :=
  let (ret, e) := exec (DELETE_FROM_Repo repo_id) e in
  if ret <? 0 then e
  else
    let e := snd (exec (DELETE_FROM_DeletedRepo repo_id) e) in
    (* remove index *)
    let e := g_unlink_index repo_id e in
    (* remove branch *)
    let branch_list := seaf_branch_manager_get_branch_list (e_session e) repo_id in
    let e := fold_left (remove_branch repo_id) branch_list e in
    (* delete repo property firstly *)
    let e := seaf_repo_manager_del_repo_property repo_id e in
    let e := snd (exec (DELETE_FROM_RepoPasswd repo_id) e) in
    let e := snd (exec (DELETE_FROM_RepoKeys repo_id) e) in
    snd (exec (DELETE_FROM_MergeInfo repo_id) e).

(** The requests made by one call, oldest first. *)
Definition emitted (e : env) (repo_id : string) : list event :=
  drop (length (e_log e)) (e_log (remove_repo_ondisk e repo_id)).

(** The requests of the loop over the branches of the repository. *)
Definition branch_events (repo_id : string) (bs : list SeafBranch) : list event :=
  flat_map (fun b => [EvSql (DELETE_FROM_RepoBranch (b_name b) (b_repo_id b));
                      EvDelBranch repo_id (b_name b)]) bs.

(** The requests that follow the removal of the registry row. *)
Definition cleanup_events (repo_id : string) (bs : list SeafBranch) : list event :=
  ([EvSql (DELETE_FROM_DeletedRepo repo_id); EvUnlinkIndex repo_id]
   ++ branch_events repo_id bs
   ++ [EvSql (DELETE_FROM_RepoProperty repo_id);
      EvSql (DELETE_FROM_RepoPasswd repo_id);
      EvSql (DELETE_FROM_RepoKeys repo_id);
      EvSql (DELETE_FROM_MergeInfo repo_id)])%list.

(** *** Order of requests *)

Fixpoint position (x : event) (l : list event) : option nat :=
  match l with
  | [] => None
  | y :: l' => if decide (x = y) then Some O else S <$> position x l'
  end.

(** [a] is requested before [b]. *)
Definition before (a b : event) (l : list event) : Prop :=
  match position a l, position b l with
  | Some i, Some j => (i < j)%nat
  | _, _ => False
  end.

(** The registry row goes last: every other request of the purge comes
    before the removal of the row of the [Repo] table. *)
Definition registry_row_last (repo_id : string) (l : list event) : Prop :=
  forall x, In x l -> x <> EvSql (DELETE_FROM_Repo repo_id) ->
            before x (EvSql (DELETE_FROM_Repo repo_id)) l.

(** The registry row goes first. *)
Definition registry_row_first (repo_id : string) (l : list event) : Prop :=
  forall x, In x l -> x <> EvSql (DELETE_FROM_Repo repo_id) ->
            before (EvSql (DELETE_FROM_Repo repo_id)) x l.

End Purge.

(** ** A concrete installation

    One repository with the id of the specification's scenarios, its
    worktree [/w] holding the files of the "ignore rules" scenario, and
    simple stand-ins for the collaborators; used to run the definitions. *)

Module Scenario.
Import CStr Fs Index Db Manager Purge Commit.

Definition id0 : string := "11111111-1111-1111-1111-111111111111".

Definition local0 : SeafBranch := mkBranch "local" id0 "c0".

Definition repo0 : SeafRepo :=
  mkRepo id0 "docs" "my documents" false 1 "" "" "" None (Some local0)
    (Some "/w") false true false false.

Definition worktree0 : fsnode :=
  FsDir DirOk
    [ (".DS_Store", FsReg); ("Thumbs.db", FsReg); ("foo ", FsReg);
      ("bar.txt", FsReg);
      ("notes", FsDir DirOk [("a.txt", FsReg); ("draft.tmp", FsReg)]) ].

Definition fs0 : fsnode := FsDir DirOk [("w", worktree0)].

Definition session0 : SeafileSession :=
  mkSession fs0 (<[id0 := IndexData []]> ∅) true [] true
    (<[(id0, "local") := "c0"]> (<[(id0, "master") := "c0"]> ∅))
    "alice" "session-1" 1000.

(** The same session with a commit store that refuses writes. *)
Definition session_failing : SeafileSession :=
  mkSession fs0 (<[id0 := IndexData []]> ∅) true [] false
    (<[(id0, "local") := "c0"]> (<[(id0, "master") := "c0"]> ∅))
    "alice" "session-1" 1000.

Definition db0 : sqlite3 :=
  mkDb true {[id0]} ∅ (<[id0 := "local"]> ∅) ∅ ∅ ∅ ∅
    [(id0, "worktree", "/w")] ∅.

Definition mgr0 : SeafRepoManager :=
  mkMgr (AvlNode AvlLeaf repo0 AvlLeaf) db0.

Definition env0 : env := mkEnv db0 session0 [].

(** The same store when it executes no statement. *)
Definition db_down : sqlite3 :=
  mkDb false {[id0]} ∅ (<[id0 := "local"]> ∅) ∅ ∅ ∅ ∅
    [(id0, "worktree", "/w")] ∅.

Definition env_down : env := mkEnv db_down session0 [].

(** The session before the first synchronisation: no [master] branch. *)
Definition session_nomaster : SeafileSession :=
  mkSession fs0 (<[id0 := IndexData []]> ∅) true [] true
    (<[(id0, "local") := "c0"]> ∅) "alice" "session-1" 1000.

(** An id of 37 characters. *)
Definition long_id : string := "11111111-1111-1111-1111-1111111111110".

(** Object ids that only name what they stand for. *)
Definition demo_store : ObjectStore := {|
  seaf_fs_manager_index_blocks path crypt := Some ("blocks:" +:+ path);
  cache_tree_update istate := Some "root";
  errno_after_add_to_index full_path crypt e := e
|}.

(** A block store that takes no file. *)
Definition refusing_store : ObjectStore := {|
  seaf_fs_manager_index_blocks path crypt := None;
  cache_tree_update istate := Some "root";
  errno_after_add_to_index full_path crypt e := e
|}.

(** A store that takes every text that is not a statement meant for a
    syntax error. *)
Definition demo_engine : SqlText.SqlEngine := {|
  SqlText.sqlite_check_for_existence_text d text := false;
  SqlText.sqlite_query_exec_text d text := (-1, d);
  SqlText.sqlite_select_value_text d text := None
|}.

(** A toy key derivation: the key is the first 16 bytes of the reversed
    input, padded with NUL bytes. *)
Definition demo_crypto : CryptoPrimitive := {|
  seafile_generate_enc_key data version :=
    (take 16 (rev (chars data) ++ repeat NUL 16), repeat NUL 16);
  CURRENT_ENC_VERSION := 1
|}.

(** A differ that finds no change. *)
Definition demo_differ : Differ := {|
  wt_status_collect_changes_index istate repo s := [];
  diff_resolve_empty_dirs results := results;
  diff_resolve_renames results := results
|}.

Definition demo_ids : CommitIds := {|
  compute_commit_id root_id creator_id creator_name desc ctime :=
    "commit:" +:+ root_id +:+ ":" +:+ desc
|}.

End Scenario.

(** ** More statements of the embedded store *)

Module DbMore.
Import Db.

Definition set_Repo (v : gset string) (d : sqlite3) : sqlite3 :=
  mkDb (db_ok d) v (DeletedRepo d) (RepoBranch d) (RepoLanToken d)
    (RepoTmpToken d) (RepoPasswd d) (RepoKeys d) (RepoProperty d) (MergeInfo d).

Definition set_RepoBranch (v : gmap string string) (d : sqlite3) : sqlite3 :=
  mkDb (db_ok d) (Repo d) (DeletedRepo d) v (RepoLanToken d)
    (RepoTmpToken d) (RepoPasswd d) (RepoKeys d) (RepoProperty d) (MergeInfo d).

Definition set_RepoLanToken (v : gmap string string) (d : sqlite3) : sqlite3 :=
  mkDb (db_ok d) (Repo d) (DeletedRepo d) (RepoBranch d) v
    (RepoTmpToken d) (RepoPasswd d) (RepoKeys d) (RepoProperty d) (MergeInfo d).

Definition set_RepoProperty (v : list (string * string * string)) (d : sqlite3)
    : sqlite3 :=
  mkDb (db_ok d) (Repo d) (DeletedRepo d) (RepoBranch d) (RepoLanToken d)
    (RepoTmpToken d) (RepoPasswd d) (RepoKeys d) v (MergeInfo d).

Definition set_MergeInfo (v : gmap string (Z * string)) (d : sqlite3) : sqlite3 :=
  mkDb (db_ok d) (Repo d) (DeletedRepo d) (RepoBranch d) (RepoLanToken d)
    (RepoTmpToken d) (RepoPasswd d) (RepoKeys d) (RepoProperty d) v.

(** The statements of the functions of this part. *)
Inductive sql_more :=
| INSERT_INTO_Repo (repo_id : string)
| REPLACE_INTO_RepoBranch (repo_id branch_name : string)
| REPLACE_INTO_RepoLanToken (repo_id token : string)
| UPDATE_RepoProperty (value repo_id key : string)
| INSERT_INTO_RepoProperty (repo_id key value : string)
| REPLACE_INTO_MergeInfo (repo_id : string) (in_merge : Z) (branch : string)
| UPDATE_MergeInfo_SET_in_merge_0 (repo_id : string).

(** What a statement does to the tables; [None] is a constraint
    violation ([Repo] has [repo_id] as its primary key). *)
Definition run_more (d : sqlite3) (q : sql_more) : option sqlite3 :=
  match q with
  | INSERT_INTO_Repo id =>
      if bool_decide (id ∈ Repo d) then None
      else Some (set_Repo ({[id]} ∪ Repo d) d)
  | REPLACE_INTO_RepoBranch id name =>
      Some (set_RepoBranch (<[id := name]> (RepoBranch d)) d)
  | REPLACE_INTO_RepoLanToken id token =>
      Some (set_RepoLanToken (<[id := token]> (RepoLanToken d)) d)
  | UPDATE_RepoProperty value id key =>
      Some (set_RepoProperty
              (map (fun row =>
                      if String.eqb row.1.1 id && String.eqb row.1.2 key
                      then (row.1.1, row.1.2, value) else row)
                 (RepoProperty d)) d)
  | INSERT_INTO_RepoProperty id key value =>
      Some (set_RepoProperty (RepoProperty d ++ [(id, key, value)]) d)
  | REPLACE_INTO_MergeInfo id in_merge branch =>
      Some (set_MergeInfo (<[id := (in_merge, branch)]> (MergeInfo d)) d)
  | UPDATE_MergeInfo_SET_in_merge_0 id =>
      Some (set_MergeInfo
              (match MergeInfo d !! id with
               | Some (_, branch) => <[id := (0, branch)]> (MergeInfo d)
               | None => MergeInfo d
               end) d)
  end.

(** [sqlite_query_exec] on these statements. *)
Definition sqlite_query_exec_more (d : sqlite3) (q : sql_more) : Z * sqlite3 :=
  if db_ok d then
    match run_more d q with
    | Some d' => (0, d')
    | None => (-1, d)
    end
  else (-1, d).

(** The first row of [SELECT value FROM RepoProperty WHERE repo_id=..
    and key=..], rows coming in the order they were inserted. *)
Fixpoint select_property (rows : list (string * string * string))
    (repo_id key : string) : option string :=
  match rows with
  | [] => None
  | (r, k, v) :: rows' =>
      if String.eqb r repo_id && String.eqb k key then Some v
      else select_property rows' repo_id key
  end.

End DbMore.

(** ** Repository manager: creation and registration *)

Module Registry.
Import CStr Db DbMore Manager.

(** [seaf_repo_new]: [memcpy (repo->id, id, 36)] reads 36 bytes of [id],
    which is more than its buffer holds when [id] has less than 35
    characters; the id is what these bytes hold up to a terminator; the
    fields not assigned are the zeros of [g_new0]. *)
Definition seaf_repo_new (id name desc : string) : outcome SeafRepo :=
  if (String.length id <? 35)%nat then Fault
  else
    Done (mkRepo (String.substring 0 36 id) name desc false 0 "" "" "" None
            None None true true false false).

(** [avl_insert (tree, item)] of the AVL library: the item is put where
    [avl_search_closest] stops; when an equal item is in the tree nothing
    is inserted.  The rotations that rebalance the tree are left out:
    they do not change which items the tree holds nor their order. *)
Fixpoint avl_insert (t : avl_tree) (item : SeafRepo) : avl_tree :=
  match t with
  | AvlLeaf => AvlNode AvlLeaf item AvlLeaf
  | AvlNode l x r =>
      match compare_repo (repo_id item) (repo_id x) with
      | Eq => t
      | Lt => AvlNode (avl_insert l item) x r
      | Gt => AvlNode l x (avl_insert r item)
      end
  end.

(** [seaf_repo_manager_add_repo]; the results of the INSERT and of
    [avl_insert] are not looked at. *)
Definition seaf_repo_manager_add_repo (mgr : SeafRepoManager) (repo : SeafRepo)
    : Z * SeafRepoManager :=
  let db' := snd (sqlite_query_exec_more (db mgr) (INSERT_INTO_Repo (repo_id repo))) in
  (0, mkMgr (avl_insert (repo_tree mgr) repo) db').

(** [seaf_repo_manager_create_new_repo]; [uuid] is what [gen_uuid ()]
    returns. *)
Definition seaf_repo_manager_create_new_repo (mgr : SeafRepoManager)
    (name desc uuid : string) : outcome (SeafRepo * SeafRepoManager) :=
  repo <-! seaf_repo_new uuid name desc;
  Done (repo, snd (seaf_repo_manager_add_repo mgr repo)).

(** *** The registry as an ordered tree *)

(** The tree is a search tree for [compare_repo]: what [avl_insert]
    builds from the empty tree. *)
Fixpoint ordered (t : avl_tree) : Prop :=
  match t with
  | AvlLeaf => True
  | AvlNode l x r =>
      ordered l /\ ordered r
      /\ Forall (fun y => compare_repo (repo_id y) (repo_id x) = Lt) (avl_nodes l)
      /\ Forall (fun y => compare_repo (repo_id y) (repo_id x) = Gt) (avl_nodes r)
  end.

(** [id] is the beginning of [full]. *)
Definition is_prefix (id full : string) : Prop := exists rest, full = id +:+ rest.

End Registry.

(** ** Repository manager: tokens, merge flag, properties *)

Module Persist.
Import CStr Db DbMore SqlText Manager.

(** [DEFAULT_REPO_TOKEN] of repo-mgr.h. *)
Class Defaults := {
  DEFAULT_REPO_TOKEN : string
}.

(** The bytes of the buffer holding a C string: its characters and the
    terminator. *)
Definition buffer (s : string) : list ascii := (chars s ++ [NUL])%list.

(** [memcmp (a, b, n) == 0] on two buffers: the call is handed [n] bytes
    of each, and is a [Fault] when one of them holds less, wherever the
    first difference is. *)
Definition memcmp_eq (a b : list ascii) (n : nat) : outcome bool :=
  if (n <=? length a)%nat && (n <=? length b)%nat
  then Done (bool_decide (take n a = take n b))
  else Fault.

(** [seaf_repo_manager_get_repo_lantoken]: the token of the row, NULL
    when there is none or when the store fails. *)
Definition seaf_repo_manager_get_repo_lantoken (mgr : SeafRepoManager)
    (repo_id : string) : option string :=
  if db_ok (db mgr) then RepoLanToken (db mgr) !! repo_id else None.

Section WithEngine.
Context {engine : SqlEngine}.

(** [seaf_repo_manager_set_repo_lantoken]: the REPLACE pastes the token
    into [sql[256]]. *)
Definition seaf_repo_manager_set_repo_lantoken (mgr : SeafRepoManager)
    (repo_id token : string) : Z * SeafRepoManager :=
  let sql := snprintf 256 (lantoken_replace_text repo_id token) in
  let (ret, db') :=
    if plain lantoken_room token
    then sqlite_query_exec_more (db mgr) (REPLACE_INTO_RepoLanToken repo_id token)
    else sqlite_query_exec_text (db mgr) sql in
  if ret <? 0 then (-1, mgr) else (0, mkMgr (repo_tree mgr) db').

End WithEngine.

Section WithDefaults.
Context {defaults : Defaults}.

(** [seaf_repo_manager_verify_repo_lantoken]; a NULL [token] is [None]. *)
Definition seaf_repo_manager_verify_repo_lantoken (mgr : SeafRepoManager)
    (repo_id : string) (token : option string) : outcome Z :=
  match token with
  | None => Done 0
  | Some token =>
      let n := String.length token in
      match seaf_repo_manager_get_repo_lantoken mgr repo_id with
      | None =>
          eq <-! memcmp_eq (buffer DEFAULT_REPO_TOKEN) (buffer token) n;
          if eq then Done 1 else Done 0
      | Some my_token =>
          eq <-! memcmp_eq (buffer my_token) (buffer token) n;
          if eq then Done 1 else Done 0
      end
  end.

End WithDefaults.

(** *** Merge flag *)

Definition seaf_repo_manager_set_merge (mgr : SeafRepoManager)
    (repo_id branch : string) : Z * SeafRepoManager :=
  let (ret, db') :=
    sqlite_query_exec_more (db mgr) (REPLACE_INTO_MergeInfo repo_id 1 branch) in
  (ret, mkMgr (repo_tree mgr) db').

Definition seaf_repo_manager_clear_merge (mgr : SeafRepoManager)
    (repo_id : string) : Z * SeafRepoManager :=
  let (ret, db') :=
    sqlite_query_exec_more (db mgr) (UPDATE_MergeInfo_SET_in_merge_0 repo_id) in
  (ret, mkMgr (repo_tree mgr) db').

(** [seaf_repo_manager_get_merge_info]: the return value and
    [info->in_merge]. *)
Definition seaf_repo_manager_get_merge_info (mgr : SeafRepoManager)
    (repo_id : string) : Z * bool :=
  if db_ok (db mgr) then
    match MergeInfo (db mgr) !! repo_id with
    | Some (in_merge, _) => (0, if in_merge =? 0 then false else true)
    | None => (0, false)
    end
  else (-1, false).

(** *** Properties *)

(** Modelled from the spec: the property keys of repo-mgr.h, "recognized
    keys": [relay-addr], [relay-port], [email]. *)
Definition REPO_PROP_RELAY_ADDR : string := "relay-addr".
Definition REPO_PROP_RELAY_PORT : string := "relay-port".
Definition REPO_PROP_EMAIL : string := "email".

(** [load_repo_property]: the value of the first row, NULL when there is
    none or when the store fails.  The SELECT pastes the key into
    [sql[256]]. *)
Definition load_repo_property {engine : SqlEngine} (mgr : SeafRepoManager)
    (repo_id key : string) : option string :=
  let sql := snprintf 256 (property_select_text repo_id key) in
  if plain property_key_room key then
    if db_ok (db mgr) then select_property (RepoProperty (db mgr)) repo_id key
    else None
  else sqlite_select_value_text (db mgr) sql.

(** [save_repo_property], for a [value] that is not NULL.  Its
    statements are built by [sqlite3_mprintf] with [%Q], which quotes
    what it pastes and allocates the room it needs. *)
Definition save_repo_property (mgr : SeafRepoManager)
    (repo_id key value : string) : SeafRepoManager :=
  if db_ok (db mgr)
     && bool_decide (is_Some (select_property (RepoProperty (db mgr)) repo_id key))
  then mkMgr (repo_tree mgr)
         (snd (sqlite_query_exec_more (db mgr) (UPDATE_RepoProperty value repo_id key)))
  else mkMgr (repo_tree mgr)
         (snd (sqlite_query_exec_more (db mgr)
                 (INSERT_INTO_RepoProperty repo_id key value))).

Definition seaf_repo_manager_get_repo_property {engine : SqlEngine}
    (mgr : SeafRepoManager) (repo_id key : string) : option string :=
  load_repo_property mgr repo_id key.

Definition seaf_repo_manager_set_repo_relay_info (mgr : SeafRepoManager)
    (repo_id relay_addr relay_port : string) : Z * SeafRepoManager :=
  let mgr := save_repo_property mgr repo_id REPO_PROP_RELAY_ADDR relay_addr in
  let mgr := save_repo_property mgr repo_id REPO_PROP_RELAY_PORT relay_port in
  (0, mgr).

(** [seaf_repo_manager_get_repo_relay_info], called with two non-NULL
    pointers: what is stored through each of them, [None] when nothing
    is. *)
Definition seaf_repo_manager_get_repo_relay_info {engine : SqlEngine}
    (mgr : SeafRepoManager) (repo_id : string) : option string * option string :=
  let addr := load_repo_property mgr repo_id REPO_PROP_RELAY_ADDR in
  let port := load_repo_property mgr repo_id REPO_PROP_RELAY_PORT in
  (addr, port).

Definition set_email (e : option string) (r : SeafRepo) : SeafRepo :=
  mkRepo (repo_id r) (repo_name r) (repo_desc r) (repo_encrypted r)
    (repo_enc_version r) (repo_magic r) (repo_enc_key r) (repo_enc_iv r)
    e (repo_head r) (repo_worktree r) (repo_worktree_invalid r)
    (repo_auto_sync r) (repo_delete_pending r) (repo_no_local_history r).

(** [seaf_repo_manager_set_repo_email], for the repository of the
    registry with the given id and an [email] that is not NULL. *)
Definition seaf_repo_manager_set_repo_email (mgr : SeafRepoManager)
    (id email : string) : Z * SeafRepoManager :=
  let mgr := mkMgr (avl_update (set_email (Some email)) id (repo_tree mgr)) (db mgr) in
  (0, save_repo_property mgr id REPO_PROP_EMAIL email).

(** The rows of [RepoProperty] for a repository and a key. *)
Definition row_matches (repo_id key : string) (row : string * string * string)
    : bool :=
  String.eqb row.1.1 repo_id && String.eqb row.1.2 key.

Definition property_rows (mgr : SeafRepoManager) (repo_id key : string)
    : list (string * string * string) :=
  List.filter (row_matches repo_id key) (RepoProperty (db mgr)).

End Persist.

(** ** Head branch and commit metadata *)

Module Head.
Import CStr Db DbMore Manager.

(** [save_branch_repo_map]: the result of the REPLACE is not looked at. *)
Definition save_branch_repo_map (mgr : SeafRepoManager) (branch : SeafBranch)
    : Z * SeafRepoManager :=
  let db' := snd (sqlite_query_exec_more (db mgr)
                    (REPLACE_INTO_RepoBranch (b_repo_id branch) (b_name branch))) in
  (0, mkMgr (repo_tree mgr) db').

(** [set_head_common]; the commit is not read, the reference counts are
    left out. *)
Definition set_head_common (repo : SeafRepo) (branch : SeafBranch) : SeafRepo :=
  set_head (Some branch) repo.

(** [seaf_repo_set_head]: the return value, the repository and its
    manager. *)
Definition seaf_repo_set_head (mgr : SeafRepoManager) (repo : SeafRepo)
    (branch : SeafBranch) : Z * SeafRepo * SeafRepoManager :=
  let (ret, mgr') := save_branch_repo_map mgr branch in
  if ret <? 0 then (-1, repo, mgr')
  else (0, set_head_common repo branch, mgr').

(** [SELECT branch_name FROM RepoBranch WHERE repo_id=..] as [load_repo]
    reads it: the branch the repository is bound to in the store. *)
Definition load_branch (mgr : SeafRepoManager) (repo_id : string)
    : option string :=
  if db_ok (db mgr) then RepoBranch (db mgr) !! repo_id else None.

Definition set_commit_fields (name desc : string) (encrypted : bool)
    (enc_version : Z) (magic : string) (no_local_history : bool) (r : SeafRepo)
    : SeafRepo :=
  mkRepo (repo_id r) name desc encrypted enc_version magic (repo_enc_key r)
    (repo_enc_iv r) (repo_email r) (repo_head r) (repo_worktree r)
    (repo_worktree_invalid r) (repo_auto_sync r) (repo_delete_pending r)
    no_local_history.

(** [seaf_repo_from_commit].  [memcpy (repo->magic, commit->magic, 33)]
    reads 33 bytes: a NULL magic or one of less than 32 characters is a
    read outside a buffer; a longer one leaves [repo->magic] without its
    terminator, so that the repository no longer holds a C string, which
    is a [Fault] here as well. *)
Definition seaf_repo_from_commit (repo : SeafRepo) (commit : SeafCommit)
    : outcome SeafRepo :=
  if c_encrypted commit then
    if c_enc_version commit >=? 1 then
      match c_magic commit with
      | None => Fault
      | Some magic =>
          if (String.length magic =? 32)%nat
          then Done (set_commit_fields (c_repo_name commit) (c_repo_desc commit)
                       true (c_enc_version commit) magic
                       (c_no_local_history commit) repo)
          else Fault
      end
    else Done (set_commit_fields (c_repo_name commit) (c_repo_desc commit)
                 true (c_enc_version commit) (repo_magic repo)
                 (c_no_local_history commit) repo)
  else Done (set_commit_fields (c_repo_name commit) (c_repo_desc commit)
               false (repo_enc_version repo) (repo_magic repo)
               (c_no_local_history commit) repo).

End Head.

(** ** The entries of a difference, by status *)

Module Describe.
Import Commit.

Definition diff_status_eqb (a b : diff_status) : bool :=
  match a, b with
  | DIFF_STATUS_ADDED, DIFF_STATUS_ADDED
  | DIFF_STATUS_DELETED, DIFF_STATUS_DELETED
  | DIFF_STATUS_MODIFIED, DIFF_STATUS_MODIFIED
  | DIFF_STATUS_RENAMED, DIFF_STATUS_RENAMED
  | DIFF_STATUS_UNMERGED, DIFF_STATUS_UNMERGED
  | DIFF_STATUS_DIR_ADDED, DIFF_STATUS_DIR_ADDED
  | DIFF_STATUS_DIR_DELETED, DIFF_STATUS_DIR_DELETED => true
  | _, _ => false
  end.

(** The entries of [results] with status [st], in their order. *)
Definition with_status (st : diff_status) (results : list DiffEntry)
    : list DiffEntry :=
  List.filter (fun de => diff_status_eqb (de_status de) st) results.

Definition n_with (st : diff_status) (results : list DiffEntry) : Z :=
  Z.of_nat (length (with_status st results)).

(** The base name of the first entry with status [st]. *)
Definition first_with (st : diff_status) (results : list DiffEntry) : string :=
  match with_status st results with
  | [] => ""
  | de :: _ => get_basename (de_name de)
  end.

(** The line of the description for the entries with status [st]. *)
Definition line (st : diff_status) (verb one many : string)
    (results : list DiffEntry) : string :=
  describe (n_with st results) verb one many (first_with st results).

(** The counter and the name kept for a status. *)
Definition counter (st : diff_status) (c : counts) : Z :=
  match st with
  | DIFF_STATUS_ADDED => n_new c
  | DIFF_STATUS_DELETED => n_removed c
  | DIFF_STATUS_RENAMED => n_renamed c
  | DIFF_STATUS_MODIFIED => n_modified c
  | DIFF_STATUS_DIR_ADDED => n_new_dir c
  | DIFF_STATUS_DIR_DELETED => n_removed_dir c
  | DIFF_STATUS_UNMERGED => 0
  end.

Definition kept_name (st : diff_status) (c : counts) : string :=
  match st with
  | DIFF_STATUS_ADDED => new_file c
  | DIFF_STATUS_DELETED => removed_file c
  | DIFF_STATUS_RENAMED => renamed_file c
  | DIFF_STATUS_MODIFIED => modified_file c
  | DIFF_STATUS_DIR_ADDED => new_dir c
  | DIFF_STATUS_DIR_DELETED => removed_dir c
  | DIFF_STATUS_UNMERGED => ""
  end.

End Describe.

(** ** The walk and the sweep, entry by entry *)

Module Sweep.
Import CStr Fs Index Ignore Worktree.

(** The body of the loop of [remove_deleted]: the entry as the loop
    leaves it, flagged [CE_REMOVE] or not. *)
Definition checked (root : fsnode) (worktree prefix : string) (ce : cache_entry)
    : cache_entry :=
  if negb (strncmp_eq (ce_name ce) prefix (String.length prefix)) then ce
  else
    let path := worktree +:+ "/" +:+ ce_name ce in
    let ret := g_lstat root path in
    if S_ISDIR (ce_mode ce) then
      match ret with
      | None => mark_remove ce
      | Some st =>
          if negb (S_ISDIR (st_mode st)) || negb (is_empty_dir ret)
          then mark_remove ce else ce
      end
    else
      match ret with
      | None => mark_remove ce
      | Some st =>
          if negb (S_ISREG (st_mode st)) then mark_remove ce else ce
      end.

(** The entry does not carry the flag [CE_REMOVE]. *)
Definition unflagged (ce : cache_entry) : Prop :=
  Z.land (ce_flags ce) CE_REMOVE = 0.

(** The entries found in the index after a walk that ignores empty
    directories: those it held, or entries of regular files. *)
Definition old_or_regular (istate istate' : index_state) : Prop :=
  forall ce, In ce istate' -> In ce istate \/ S_ISREG (ce_mode ce) = true.

(** Every name [g_dir_read_name] returns below the node is a non-empty
    string. *)
#[warnings="-register-all"]
Inductive named : fsnode -> Prop :=
| named_reg : named FsReg
| named_other : named FsOther
| named_dir status entries :
    Forall (fun e => fst e <> "" /\ named (snd e)) entries ->
    named (FsDir status entries).

End Sweep.

(** ** The branch loop of the purge, on the two maps it works on *)

Module PurgeState.
Import CStr Db DbMore Manager Purge.

(** What [seaf_repo_manager_branch_repo_unmap] does to the table
    [RepoBranch] of a working store. *)
Definition unmap (m : gmap string string) (b : SeafBranch) : gmap string string :=
  match m !! b_repo_id b with
  | Some n => if String.eqb n (b_name b) then delete (b_repo_id b) m else m
  | None => m
  end.

(** What [seaf_branch_manager_del_branch] does to the branch store. *)
Definition forget (repo_id : string) (m : gmap (string * string) string)
    (b : SeafBranch) : gmap (string * string) string :=
  delete (repo_id, b_name b) m.

End PurgeState.

(** ** More of the concrete installation *)

Module ScenarioMore.
Import CStr Fs Index Db DbMore Manager Purge Registry Persist Head Scenario.

Definition demo_defaults : Defaults := {|
  DEFAULT_REPO_TOKEN := "default-repo-token"
|}.

Definition id_a : string := "aaaaaaaa-aaaa-aaaa-aaaa-aaaaaaaaaaaa".
Definition id_b : string := "bbbbbbbb-bbbb-bbbb-bbbb-bbbbbbbbbbbb".

(** The repositories [seaf_repo_new] returns for the two ids. *)
Definition repo_a : SeafRepo :=
  mkRepo id_a "a" "first" false 0 "" "" "" None None None true true false false.
Definition repo_b : SeafRepo :=
  mkRepo id_b "b" "second" false 0 "" "" "" None None None true true false false.

(** A manager with an empty registry and an empty store. *)
Definition mgr_empty : SeafRepoManager :=
  mkMgr AvlLeaf (mkDb true ∅ ∅ ∅ ∅ ∅ ∅ ∅ [] ∅).

(** The registry after [repo_b], then [repo_a], were registered. *)
Definition mgr_ba : SeafRepoManager :=
  snd (seaf_repo_manager_add_repo (snd (seaf_repo_manager_add_repo mgr_empty repo_b))
         repo_a).

(** The manager of the installation with a store that fails. *)
Definition mgr_down : SeafRepoManager :=
  mkMgr (AvlNode AvlLeaf repo0 AvlLeaf) db_down.

(** A repository with the id of [repo0], created anew. *)
Definition repo0_again : SeafRepo :=
  mkRepo id0 "copy" "" false 0 "" "" "" None None None true true false false.

Definition master0 : SeafBranch := mkBranch "master" id0 "c0".



(** A token longer than [DEFAULT_REPO_TOKEN] by more than a byte. *)
Definition long_token : string := "default-repo-token-and-then-some".

(** [repo0] encrypted at version 1, with a magic of 32 characters. *)
Definition repo_enc : SeafRepo :=
  mkRepo id0 "docs" "my documents" true 1 "000102030405060708090a0b0c0d0e0f"
    "" "" None (Some local0) (Some "/w") false true false false.

Definition commit0 : SeafCommit :=
  mkCommit "c0" id0 "root0" "alice" "session-1" "first" 999 None None
    "" "" false 0 None false.

Definition diff0 : list Commit.DiffEntry :=
  [ Commit.mkDiffEntry Commit.DIFF_STATUS_ADDED "d/x.txt";
    Commit.mkDiffEntry Commit.DIFF_STATUS_UNMERGED "u";
    Commit.mkDiffEntry Commit.DIFF_STATUS_ADDED "y" ].

(** An index that still lists a file and an empty directory that are no
    longer in the worktree, besides a file that is. *)
Definition index_gone : index_state :=
  [ mkCe "bar.txt" (st_mode FsReg) "blocks:/w/bar.txt" 0;
    mkCe "gone" S_IFDIR "" 0;
    mkCe "gone.txt" (st_mode FsReg) "blocks:/w/gone.txt" 0 ].

Definition session_gone : SeafileSession :=
  mkSession fs0 (<[id0 := IndexData index_gone]> ∅) true [] true
    (<[(id0, "local") := "c0"]> (<[(id0, "master") := "c0"]> ∅))
    "alice" "session-1" 1000.

(** The store of the installation with tokens and a passphrase for
    [id0], and rows of another repository. *)
Definition db_full : sqlite3 :=
  mkDb true {[id0; id_a]} {[id0]} (<[id0 := "local"]> (<[id_a := "local"]> ∅))
    (<[id0 := "lan-token"]> ∅) (<[(id0, "peer-1") := ("tmp-token", 1)]> ∅)
    (<[id0 := "secret"]> ∅) ∅
    [(id0, "worktree", "/w"); (id_a, "worktree", "/a")] (<[id0 := (1, "master")]> ∅).

Definition env_full : env := mkEnv db_full session0 [].

End ScenarioMore.

(** * Properties *)

(** ** C strings *)

Section CStrFacts.
Import CStr.

Lemma chars_append (a b : string) : chars (a +:+ b) = (chars a ++ chars b)%list.
Proof. induction a as [|c a IH]; simpl; [reflexivity | now rewrite IH]. Qed.

Lemma chars_inj (a b : string) : chars a = chars b -> a = b.
Proof.
  intros H. rewrite <- (string_of_list_ascii_of_string a).
  rewrite <- (string_of_list_ascii_of_string b). unfold chars in H.
  now rewrite H.
Qed.

Lemma length_chars (s : string) : length (chars s) = String.length s.
Proof. induction s; simpl; [reflexivity | now f_equal]. Qed.

Lemma length_append (a b : string) :
  String.length (a +:+ b) = (String.length a + String.length b)%nat.
Proof. induction a; simpl; [reflexivity | now f_equal]. Qed.

(** Every non-empty string ends in some character. *)
Lemma string_snoc (s : string) :
  s <> "" -> exists p c, s = p +:+ String c "".
Proof.
  induction s as [|c s IH]; [congruence | intros _].
  destruct s as [|d s].
  - now exists "", c.
  - destruct IH as (p & e & Hp); [discriminate |].
    exists (String c p), e. simpl. now rewrite Hp.
Qed.

Lemma get_snoc (p : string) (c : ascii) :
  String.get (String.length p) (p +:+ String c "") = Some c.
Proof. induction p; simpl; [reflexivity | assumption]. Qed.

(** The byte read at [strlen s - 1] is the last character of [s]. *)
Lemma char_at_last (p : string) (c : ascii) :
  char_at (p +:+ String c "") (strlen (p +:+ String c "") - 1) = Done c.
Proof.
  unfold char_at, strlen. rewrite length_append. simpl.
  replace (Z.of_nat (String.length p + 1) - 1) with (Z.of_nat (String.length p)) by lia.
  destruct (Z.ltb_spec (Z.of_nat (String.length p)) 0); [lia |].
  now rewrite Nat2Z.id, get_snoc.
Qed.

Lemma strchr_from_found (l : list ascii) (c : ascii) (off : nat) :
  c <> NUL -> (is_Some (strchr_from l c off) <-> In c l).
Proof.
  intros Hc. revert off. induction l as [|d l IH]; intros off; simpl.
  - destruct (Ascii.eqb_spec c NUL); [contradiction |].
    split; [intros [? ?]; discriminate | tauto].
  - destruct (Ascii.eqb_spec d c) as [->|Hne].
    + split; [now left | intros _; now eexists].
    + rewrite IH. split; [now right | intros [?|?]; [contradiction | assumption]].
Qed.

Lemma strchr_found (s : string) (c : ascii) :
  c <> NUL -> (is_Some (strchr s c) <-> In c (chars s)).
Proof. apply strchr_from_found. Qed.

End CStrFacts.

(** ** Ignore matcher *)

Section IgnoreFacts.
Import CStr Ignore.

Lemma in_map_ascii_of_nat (c : ascii) (L : list nat) :
  (forall n, In n L -> (n < 256)%nat) ->
  In c (map ascii_of_nat L) <-> In (nat_of_ascii c) L.
Proof.
  intros Hb. rewrite in_map_iff. split.
  - intros (n & <- & Hn). now rewrite nat_ascii_embedding by auto.
  - intros H. exists (nat_of_ascii c). split; [apply ascii_nat_embedding | assumption].
Qed.

Lemma not_NUL_of_pos (c : ascii) : (0 < nat_of_ascii c)%nat -> c <> NUL.
Proof. intros H ->. vm_compute in H. lia. Qed.

Lemma in_illegals (c : ascii) : In c illegals <-> is_forbidden_char c.
Proof.
  unfold is_forbidden_char.
  change illegals
    with (map ascii_of_nat [92; 47; 58; 42; 63; 34; 60; 62; 124; 8; 9]%nat).
  apply in_map_ascii_of_nat. intros n Hn. simpl in Hn.
  repeat (destruct Hn as [<-|Hn]; [lia |]). contradiction.
Qed.

Lemma in_control_bytes (c : ascii) : In c control_bytes <-> is_control_byte c.
Proof.
  unfold control_bytes, is_control_byte.
  rewrite in_map_ascii_of_nat, in_seq; [lia |].
  intros n Hn. apply in_seq in Hn. lia.
Qed.

Lemma forbidden_not_NUL (c : ascii) : is_forbidden_char c -> c <> NUL.
Proof.
  intros H. apply not_NUL_of_pos. unfold is_forbidden_char in H. simpl in H.
  repeat (destruct H as [<-|H]; [lia |]). contradiction.
Qed.

Lemma control_not_NUL (c : ascii) : is_control_byte c -> c <> NUL.
Proof. intros H. apply not_NUL_of_pos. unfold is_control_byte in H. lia. Qed.

(** [should_ignore] decides the ignore rule of the specification. *)
Lemma should_ignore_spec (name : string) :
  should_ignore name = true <-> spec_ignored name.
Proof.
  unfold should_ignore, spec_ignored, matches_ignore_glob.
  destruct (existsb _ ignore_patterns) eqn:Hg.
  { apply existsb_exists in Hg. split; [intros _; left; exact Hg | reflexivity]. }
  destruct (existsb _ illegals) eqn:Hi.
  { apply existsb_exists in Hi as (c & Hc & Hf). apply bool_decide_eq_true in Hf.
    apply in_illegals in Hc.
    split; [intros _; right; exists c | reflexivity].
    split; [| now right]. apply strchr_found; [now apply forbidden_not_NUL | exact Hf]. }
  destruct (existsb _ control_bytes) eqn:Hb.
  { apply existsb_exists in Hb as (c & Hc & Hf). apply bool_decide_eq_true in Hf.
    apply in_control_bytes in Hc.
    split; [intros _; right; exists c | reflexivity].
    split; [| now left]. apply strchr_found; [now apply control_not_NUL | exact Hf]. }
  split; [discriminate |].
  intros [Hm | (c & Hin & [Hc | Hc])]; exfalso.
  - assert (existsb (fun spec => g_pattern_match_string spec name) ignore_patterns
            = true); [| congruence].
    apply existsb_exists. exact Hm.
  - assert (existsb (fun c => bool_decide (is_Some (strchr name c))) control_bytes
            = true); [| congruence].
    apply existsb_exists. exists c. split; [now apply in_control_bytes |].
    apply bool_decide_eq_true, strchr_found; [now apply control_not_NUL | exact Hin].
  - assert (existsb (fun c => bool_decide (is_Some (strchr name c))) illegals
            = true); [| congruence].
    apply existsb_exists. exists c. split; [now apply in_illegals |].
    apply bool_decide_eq_true, strchr_found; [now apply forbidden_not_NUL | exact Hin].
Qed.

Lemma should_ignore_false (name : string) :
  should_ignore name = false <-> ~ spec_ignored name.
Proof.
  rewrite <- should_ignore_spec. destruct (should_ignore name); split; congruence.
Qed.

(** On a non-empty path [has_trailing_space] is defined and tells whether
    the last byte is a space. *)
Lemma has_trailing_space_spec (path : string) :
  path <> "" ->
  exists b, has_trailing_space path = Done b
            /\ (b = true <-> spec_trailing_space path).
Proof.
  intros Hne. destruct (string_snoc path Hne) as (p & c & ->).
  unfold has_trailing_space. rewrite char_at_last. simpl.
  exists (Ascii.eqb c " "). split; [now destruct (Ascii.eqb c " ") |].
  unfold spec_trailing_space. rewrite Ascii.eqb_eq. split.
  - intros ->. now exists p.
  - intros (q & Hq). apply (f_equal chars) in Hq.
    rewrite !chars_append in Hq. simpl in Hq.
    apply app_inj_tail in Hq. now destruct Hq.
Qed.

Lemma has_trailing_space_empty : has_trailing_space "" = Fault.
Proof. reflexivity. Qed.

End IgnoreFacts.

(** ** Worktree scanner *)

Section WorktreeFacts.
Import CStr Fs Index Ignore Worktree.
Context {store : ObjectStore}.

Lemma add_recursive_node_unfold node istate e worktree path crypt ied :
  add_recursive_node node istate e worktree path crypt ied =
  match node with
  | FsReg =>
      r <-! add_to_index istate path (g_build_path worktree path) (st_mode FsReg)
              crypt index_cb;
      Done (fst r, snd r,
            errno_after_add_to_index (g_build_path worktree path) crypt e)
  | FsDir DirOpenFails _ => Done (-1, istate, true)
  | FsDir status entries =>
      r <-! add_dir_entries entries istate 0 false worktree path crypt ied;
      if match status with DirReadFails => true | _ => snd r end
      then Done (-1, fst (fst r), true)
      else if (snd (fst r) =? 0) && negb ied
      then Done (0, add_empty_dir_to_index (fst (fst r)) path, false)
      else Done (0, fst (fst r), false)
  | FsOther => Done (0, istate, e)
  end.
Proof.
  destruct node as [|status entries|]; simpl.
  - reflexivity.
  - destruct status; try reflexivity.
    all: match goal with
         | |- obind (?f _ _ 0 false) _ = _ =>
             assert (Hloop : forall es i n e0,
                        f es i n e0
                        = add_dir_entries es i n e0 worktree path crypt ied)
         end.
    1, 3: induction es as [|[dname child] es IH]; intros i n e0; simpl;
      [reflexivity |];
      destruct (should_ignore dname); simpl; [apply IH |];
      unfold add_recursive_found;
      destruct (has_trailing_space (g_build_path path dname)) as [[|]|]; simpl;
      [apply IH | | reflexivity];
      destruct (add_recursive_node child i e0 worktree _ crypt ied)
        as [[[r idx] e1]|]; simpl; [apply IH | reflexivity].
    all: now rewrite Hloop.
  - reflexivity.
Qed.

Lemma add_dir_entries_eq es istate n e worktree path crypt ied :
  add_dir_entries es istate n e worktree path crypt ied =
  match es with
  | [] => Done (istate, n, e)
  | x :: es' =>
      r <-! add_dir_entry x istate n e worktree path crypt ied;
      add_dir_entries es' (fst (fst r)) (snd (fst r)) (snd r) worktree path crypt
        ied
  end.
Proof. destruct es; reflexivity. Qed.

Lemma skip_seps_snoc (l : list ascii) (c : ascii) :
  Ascii.eqb c sep = false -> skip_seps (l ++ [c]) <> [].
Proof.
  intros Hc. induction l as [|d l IH]; simpl.
  - now rewrite Hc.
  - destruct (Ascii.eqb d sep); [exact IH | discriminate].
Qed.

Lemma string_of_list_ascii_nil (l : list ascii) :
  string_of_list_ascii l = "" -> l = [].
Proof. destruct l; [reflexivity | discriminate]. Qed.

(** A path built from a non-empty last element is not empty. *)
Lemma g_build_path_nonempty (a b : string) : b <> "" -> g_build_path a b <> "".
Proof.
  intros Hb. unfold g_build_path.
  destruct (String.eqb_spec a ""); [assumption |].
  destruct (String.eqb_spec b ""); [contradiction |].
  intros H. apply string_of_list_ascii_nil in H.
  apply app_eq_nil in H as [Hl H]. apply app_eq_nil in H as [Hm _].
  destruct a as [|c a]; [congruence |]. simpl in Hl, Hm.
  destruct (Ascii.eqb c sep) eqn:Hc; [discriminate |].
  unfold trim_seps in Hm. simpl in Hm. rewrite Hc in Hm.
  apply (f_equal (@rev ascii)) in Hm. rewrite rev_involutive in Hm. simpl in Hm.
  now apply skip_seps_snoc in Hm.
Qed.

(** On a path that is not empty the bytes in front of it are not read. *)
Lemma has_trailing_space_at_nonempty before path :
  path <> "" -> has_trailing_space_at before path = has_trailing_space path.
Proof. destruct path; [congruence | reflexivity]. Qed.

(** *** The index only grows under [add_recursive] *)

Lemma names_add_index_entry (ce : cache_entry) (istate : index_state) (x : string) :
  In x (names (add_index_entry ce istate)) <->
  x = ce_name ce \/ In x (names istate).
Proof.
  induction istate as [|e rest IH]; simpl.
  - split; [intros [<-|[]]; now left | intros [->|[]]; now left].
  - destruct (String.compare (ce_name ce) (ce_name e)) eqn:Hcmp; simpl.
    + apply String.compare_eq_iff in Hcmp. rewrite <- Hcmp.
      split; [intros [<-|?]; auto | intros [->|[?|?]]; auto].
    + split; [intros [<-|?]; auto | intros [->|?]; auto].
    + unfold names in IH. rewrite IH.
      split; [intros [?|[?|?]]; auto | intros [?|[?|?]]; auto].
Qed.

Lemma fsnode_nested_ind (P : fsnode -> Prop) :
  P FsReg -> P FsOther ->
  (forall status es, Forall (fun e => P (snd e)) es -> P (FsDir status es)) ->
  forall node, P node.
Proof.
  intros Hreg Hother Hdir.
  fix IH 1. intros [|status es|]; [exact Hreg | | exact Hother].
  apply Hdir. induction es as [|[dname child] es IHes]; constructor.
  - apply IH.
  - exact IHes.
Qed.

(** A relation between the index before and the index after that holds
    of every insertion the walk makes holds of the walk. *)
Section WalkInvariant.
Variable R : index_state -> index_state -> Prop.
Variable ied : bool.
Hypothesis R_refl : forall i, R i i.
Hypothesis R_trans : forall a b c, R a b -> R b c -> R a c.
Hypothesis R_file :
  forall i path sha1, R i (add_index_entry (mkCe path (st_mode FsReg) sha1 0) i).
Hypothesis R_dir :
  ied = false -> forall i path, R i (add_empty_dir_to_index i path).

Lemma add_dir_entries_inv es worktree crypt :
  Forall (fun x => forall istate e path r,
            add_recursive_node (snd x) istate e worktree path crypt ied = Done r ->
            R istate (snd (fst r))) es ->
  forall istate n e path r,
    add_dir_entries es istate n e worktree path crypt ied = Done r ->
    R istate (fst (fst r)).
Proof.
  induction 1 as [|[dname child] es Hchild _ IH]; intros istate n e path r Hrun.
  - simpl in Hrun. inversion Hrun. apply R_refl.
  - simpl in Hrun. destruct (should_ignore dname); simpl in Hrun.
    + eapply IH; eassumption.
    + unfold add_recursive_found in Hrun.
      destruct (has_trailing_space (g_build_path path dname)) as [[|]|];
        simpl in Hrun; [eapply IH; eassumption | | discriminate].
      destruct (add_recursive_node child istate e worktree _ crypt ied)
        as [r1|] eqn:Hc; simpl in Hrun; [| discriminate].
      eapply R_trans; [exact (Hchild _ _ _ _ Hc) |].
      eapply IH; eassumption.
Qed.

Lemma add_recursive_node_inv node worktree crypt :
  forall istate e path r,
    add_recursive_node node istate e worktree path crypt ied = Done r ->
    R istate (snd (fst r)).
Proof.
  induction node as [| |status es IH] using fsnode_nested_ind;
    intros istate e path r Hrun; rewrite add_recursive_node_unfold in Hrun.
  - unfold add_to_index, index_cb in Hrun.
    destruct (seaf_fs_manager_index_blocks _ crypt); simpl in Hrun;
      inversion Hrun; subst; simpl; [apply R_file | apply R_refl].
  - inversion Hrun; subst. apply R_refl.
  - assert (Hloop := add_dir_entries_inv es worktree crypt IH istate 0 false path).
    destruct status; try (inversion Hrun; subst; apply R_refl).
    all: destruct (add_dir_entries es istate 0 false worktree path crypt ied)
           as [r1|]; simpl in Hrun; [| discriminate].
    all: specialize (Hloop r1 eq_refl).
    + destruct (snd r1); [inversion Hrun; subst; assumption |].
      destruct ied; rewrite ?andb_false_r in Hrun; cbn [negb] in Hrun.
      * inversion Hrun; subst; assumption.
      * destruct ((snd (fst r1) =? 0) && true); inversion Hrun; subst; simpl;
          [| assumption].
        eapply R_trans; [exact Hloop | now apply R_dir].
    + inversion Hrun; subst; assumption.
Qed.

Lemma add_recursive_found_inv node worktree crypt istate e path r :
  add_recursive_found node istate e worktree path crypt ied = Done r ->
  R istate (snd (fst r)).
Proof.
  unfold add_recursive_found.
  destruct (has_trailing_space path) as [[|]|]; simpl; [| | discriminate].
  - intros [= <-]. apply R_refl.
  - apply add_recursive_node_inv.
Qed.

Lemma add_dir_entries_inv_all es worktree crypt istate n e path r :
  add_dir_entries es istate n e worktree path crypt ied = Done r ->
  R istate (fst (fst r)).
Proof.
  apply add_dir_entries_inv.
  apply Forall_forall. intros x _ i e0 p r0. apply add_recursive_node_inv.
Qed.

End WalkInvariant.

Lemma add_dir_entries_names_mono es istate n e worktree path crypt ied r x :
  add_dir_entries es istate n e worktree path crypt ied = Done r ->
  In x (names istate) -> In x (names (fst (fst r))).
Proof.
  intros Hrun.
  refine (add_dir_entries_inv_all
            (fun a b => In x (names a) -> In x (names b)) ied _ _ _ _
            es worktree crypt istate n e path r Hrun); auto.
  - intros i p sha1 H. apply names_add_index_entry. now right.
  - intros _ i p H. apply names_add_index_entry. now right.
Qed.

Lemma add_dir_entries_app es1 es2 istate n e worktree path crypt ied :
  add_dir_entries (es1 ++ es2) istate n e worktree path crypt ied =
  (r <-! add_dir_entries es1 istate n e worktree path crypt ied;
   add_dir_entries es2 (fst (fst r)) (snd (fst r)) (snd r) worktree path crypt
     ied).
Proof.
  revert istate n e. induction es1 as [|x es1 IH]; intros istate n e; simpl.
  - reflexivity.
  - destruct (add_dir_entry x istate n e worktree path crypt ied) as [r|]; simpl;
      [apply IH | reflexivity].
Qed.

(** Entries whose name is ignored are invisible to the walk: a listing
    and the same listing without them give the same index, counter and
    [errno]. *)
Lemma add_dir_entries_filter es istate n e worktree path crypt ied :
  add_dir_entries es istate n e worktree path crypt ied =
  add_dir_entries (List.filter (fun x => negb (should_ignore (fst x))) es)
    istate n e worktree path crypt ied.
Proof.
  revert istate n e. induction es as [|[dname child] es IH]; intros istate n e.
  - reflexivity.
  - cbn [List.filter fst]. destruct (should_ignore dname) eqn:Hi; cbn [negb].
    + rewrite add_dir_entries_eq. unfold add_dir_entry. rewrite Hi. simpl.
      apply IH.
    + rewrite add_dir_entries_eq, (add_dir_entries_eq (_ :: _)).
      destruct (add_dir_entry (dname, child) istate n e worktree path crypt ied)
        as [r|]; simpl; [apply IH | reflexivity].
Qed.

(** The counter of the loop has no influence on the index nor on
    [errno]. *)
Lemma add_dir_entries_counter es istate n d e worktree path crypt ied :
  add_dir_entries es istate (n + d) e worktree path crypt ied =
  (r <-! add_dir_entries es istate n e worktree path crypt ied;
   Done (fst (fst r), snd (fst r) + d, snd r)).
Proof.
  revert istate n e. induction es as [|[dname child] es IH]; intros istate n e.
  - reflexivity.
  - cbn [add_dir_entries]. unfold add_dir_entry.
    destruct (should_ignore dname); cbn [obind fst snd]; [apply IH |].
    destruct (add_recursive_found child istate e worktree _ crypt ied) as [r|];
      cbn [obind fst snd]; [| reflexivity].
    replace (n + d + 1) with (n + 1 + d) by lia. apply IH.
Qed.

(** One turn of the directory loop: a skipped entry leaves the index and
    [errno] alone, a regular file that is not skipped is inserted and
    stays. *)
Lemma add_dir_entry_turn
    (worktree path dname : string) (child : fsnode) (istate : index_state)
    (n : Z) (e : bool) (crypt : option SeafileCrypt) (ied : bool) :
  dname <> "" ->
  (spec_ignored dname \/ spec_trailing_space (g_build_path path dname) ->
   exists d,
     add_dir_entry (dname, child) istate n e worktree path crypt ied
     = Done (istate, n + d, e)
     /\ (d = 0 \/ d = 1))
  /\
  (~ spec_ignored dname ->
   ~ spec_trailing_space (g_build_path path dname) ->
   child = FsReg ->
   forall sha1,
     seaf_fs_manager_index_blocks
       (g_build_path worktree (g_build_path path dname)) crypt = Some sha1 ->
     exists istate' e',
       add_dir_entry (dname, child) istate n e worktree path crypt ied
       = Done (istate', n + 1, e')
       /\ istate' = add_index_entry
                      (mkCe (g_build_path path dname) (st_mode FsReg) sha1 0)
                      istate
       /\ In (g_build_path path dname) (names istate')
       /\ forall es r,
            add_dir_entries es istate' (n + 1) e' worktree path crypt ied = Done r ->
            In (g_build_path path dname) (names (fst (fst r)))).
Proof.
  intros Hname.
  pose proof (g_build_path_nonempty path dname Hname) as Hsub.
  destruct (has_trailing_space_spec _ Hsub) as (b & Hts & Hb).
  split.
  - intros Hskip. unfold add_dir_entry.
    destruct (should_ignore dname) eqn:Hi.
    { exists 0. rewrite Z.add_0_r. split; [reflexivity | now left]. }
    apply should_ignore_false in Hi.
    destruct Hskip as [Hs | Hs]; [contradiction |].
    apply Hb in Hs. subst b.
    unfold add_recursive_found. rewrite Hts. simpl.
    exists 1. split; [reflexivity | now right].
  - intros Hi Hs -> sha1 Hsha. apply should_ignore_false in Hi.
    assert (b = false) as -> by (destruct b; [exfalso; now apply Hs, Hb | reflexivity]).
    do 2 eexists. unfold add_dir_entry. rewrite Hi.
    unfold add_recursive_found. rewrite Hts. cbn [obind].
    rewrite add_recursive_node_unfold.
    unfold add_to_index, index_cb. rewrite Hsha. simpl.
    split; [reflexivity |]. split; [reflexivity |].
    assert (Hin : In (g_build_path path dname)
                    (names (add_index_entry
                              (mkCe (g_build_path path dname) (st_mode FsReg) sha1 0)
                              istate)))
      by (apply names_add_index_entry; now left).
    split; [exact Hin |].
    intros es r Hrun. eapply add_dir_entries_names_mono; eassumption.
Qed.

(** A skipped entry is invisible in the index the loop builds: the
    listing without the entry gives the same index. *)
Lemma skipped_entry_invisible es1 es2 dname child istate n e worktree path
    crypt ied r :
  dname <> "" ->
  spec_ignored dname \/ spec_trailing_space (g_build_path path dname) ->
  add_dir_entries (es1 ++ (dname, child) :: es2) istate n e worktree path crypt
    ied = Done r ->
  exists k,
    add_dir_entries (es1 ++ es2) istate n e worktree path crypt ied
    = Done (fst (fst r), k, snd r).
Proof.
  intros Hname Hskip Hrun. rewrite add_dir_entries_app in *.
  destruct (add_dir_entries es1 istate n e worktree path crypt ied)
    as [[[i1 n1] e1]|]; [| discriminate].
  cbn [obind fst snd] in *. rewrite (add_dir_entries_eq (_ :: _)) in Hrun.
  destruct (add_dir_entry_turn worktree path dname child i1 n1 e1 crypt ied Hname)
    as [Hturn _].
  destruct (Hturn Hskip) as (d & Hd1 & Hd). rewrite Hd1 in Hrun.
  cbn [obind fst snd] in Hrun.
  rewrite add_dir_entries_counter in Hrun.
  destruct (add_dir_entries es2 i1 n1 e1 worktree path crypt ied)
    as [[[i2 n2] e2]|]; [| discriminate].
  cbn [obind fst snd] in Hrun. injection Hrun as <-. now exists n2.
Qed.

(** The regular files of a directory that are not skipped are in the
    index the walk of the directory returns. *)
Lemma regular_file_in_walked_index es1 es2 dname status istate e worktree path
    crypt ied ret istate' e' sha1 :
  dname <> "" ->
  ~ spec_ignored dname ->
  ~ spec_trailing_space (g_build_path path dname) ->
  seaf_fs_manager_index_blocks
    (g_build_path worktree (g_build_path path dname)) crypt = Some sha1 ->
  status <> DirOpenFails ->
  add_recursive_node (FsDir status (es1 ++ (dname, FsReg) :: es2)) istate e
    worktree path crypt ied = Done (ret, istate', e') ->
  In (g_build_path path dname) (names istate').
Proof.
  intros Hname Hi Hs Hsha Hst Hrun.
  rewrite add_recursive_node_unfold in Hrun.
  assert (Hloop : exists r,
            add_dir_entries (es1 ++ (dname, FsReg) :: es2) istate 0 false worktree
              path crypt ied = Done r
            /\ In (g_build_path path dname) (names (fst (fst r)))).
  { destruct status; [| contradiction |].
    all: destruct (add_dir_entries (es1 ++ (dname, FsReg) :: es2) istate 0 false
                     worktree path crypt ied) as [r|] eqn:Hr; [| discriminate].
    all: exists r; split; [reflexivity |].
    all: rewrite add_dir_entries_app in Hr.
    all: destruct (add_dir_entries es1 istate 0 false worktree path crypt ied)
           as [[[i1 n1] e1]|]; [| discriminate].
    all: cbn [obind fst snd] in Hr.
    all: rewrite (add_dir_entries_eq (_ :: _)) in Hr.
    all: destruct (add_dir_entry_turn worktree path dname FsReg i1 n1 e1 crypt ied
                     Hname) as [_ Hadd].
    all: destruct (Hadd Hi Hs eq_refl sha1 Hsha) as (i2 & e2 & Hturn & _ & _ & Hkeep).
    all: rewrite Hturn in Hr; cbn [obind fst snd] in Hr.
    all: exact (Hkeep es2 r Hr). }
  destruct Hloop as (r & Hr & Hin).
  destruct status; [| contradiction |]; rewrite Hr in Hrun; cbn [obind] in Hrun.
  - destruct (snd r); [inversion Hrun; subst; assumption |].
    destruct ((snd (fst r) =? 0) && negb ied); inversion Hrun; subst;
      [| assumption].
    apply names_add_index_entry. now right.
  - inversion Hrun; subst; assumption.
Qed.

(** The path handed to [add_recursive] is tested for a trailing space and
    for nothing else. *)
Lemma add_recursive_trailing_space root istate before worktree path crypt ied :
  spec_trailing_space path ->
  add_recursive root istate before worktree path crypt ied = Done (0, istate).
Proof.
  intros Hs.
  assert (Hne : path <> "").
  { destruct Hs as (p & ->). destruct p; discriminate. }
  destruct (has_trailing_space_spec path Hne) as (b & Hts & Hb).
  apply Hb in Hs. subst b.
  unfold add_recursive. now rewrite has_trailing_space_at_nonempty, Hts.
Qed.

(** C7, amended. For every entry that the directory loop of
    [add_recursive] reads, the turn of the loop leaves the index as it
    found it whenever the name of the entry matches a pattern of the
    ignore glob table or contains a control byte 0x01-0x1F or one of the
    forbidden characters, or its path ends in an ASCII space; the loop
    then builds the index it builds for the listing without the entry.
    Every other entry that is a regular file whose blocks the block store
    takes is inserted under its path; it is still in the index when the
    loop is over, and it is in the index the walk of its directory
    returns.  The path handed to [add_recursive] itself is left out of
    the index when it ends in an ASCII space. *)
Theorem add_skips_ignored_entries_and_adds_regular_files
    (worktree path dname : string) (child : fsnode) (istate : index_state)
    (n : Z) (e : bool) (crypt : option SeafileCrypt) (ied : bool) :
  dname <> "" ->
  (spec_ignored dname \/ spec_trailing_space (g_build_path path dname) ->
   (exists d,
      add_dir_entry (dname, child) istate n e worktree path crypt ied
      = Done (istate, n + d, e)
      /\ (d = 0 \/ d = 1))
   /\ (forall es1 es2 istate0 n0 e0 r,
         add_dir_entries (es1 ++ (dname, child) :: es2) istate0 n0 e0 worktree
           path crypt ied = Done r ->
         exists k,
           add_dir_entries (es1 ++ es2) istate0 n0 e0 worktree path crypt ied
           = Done (fst (fst r), k, snd r)))
  /\
  (~ spec_ignored dname ->
   ~ spec_trailing_space (g_build_path path dname) ->
   child = FsReg ->
   forall sha1,
     seaf_fs_manager_index_blocks
       (g_build_path worktree (g_build_path path dname)) crypt = Some sha1 ->
     let ce := mkCe (g_build_path path dname) (st_mode FsReg) sha1 0 in
     (exists e',
        add_dir_entry (dname, child) istate n e worktree path crypt ied
        = Done (add_index_entry ce istate, n + 1, e')
        /\ forall es r,
             add_dir_entries es (add_index_entry ce istate) (n + 1) e' worktree
               path crypt ied = Done r ->
             In (g_build_path path dname) (names (fst (fst r))))
     /\ In (g_build_path path dname) (names (add_index_entry ce istate))
     /\ (forall es1 es2 status istate0 e0 ret istate' e',
           status <> DirOpenFails ->
           add_recursive_node (FsDir status (es1 ++ (dname, FsReg) :: es2))
             istate0 e0 worktree path crypt ied = Done (ret, istate', e') ->
           In (g_build_path path dname) (names istate')))
  /\
  (forall root before p,
     spec_trailing_space p ->
     add_recursive root istate before worktree p crypt ied = Done (0, istate)).
Proof.
  intros Hname.
  destruct (add_dir_entry_turn worktree path dname child istate n e crypt ied Hname)
    as [Hskip Hadd].
  split; [| split].
  { intros Hcond. split; [exact (Hskip Hcond) |].
    intros es1 es2 istate0 n0 e0 r Hrun.
    eapply skipped_entry_invisible; eassumption. }
  { intros Hi Hs Hc sha1 Hsha ce.
    destruct (Hadd Hi Hs Hc sha1 Hsha) as (i' & e' & Hturn & -> & Hin & Hkeep).
    split; [exists e'; split; assumption |]. split; [assumption |].
    intros es1 es2 status istate0 e0 ret istate' e1 Hst Hrun.
    eapply regular_file_in_walked_index; eassumption. }
  intros root before p Hs. now apply add_recursive_trailing_space.
Qed.

Lemma add_recursive_empty_path root istate worktree crypt ied :
  add_recursive root istate [] worktree "" crypt ied = Fault.
Proof. reflexivity. Qed.

Lemma check_worktree_common_repo_id s repo :
  repo_id (snd (check_worktree_common s repo)) = repo_id repo.
Proof.
  unfold check_worktree_common, seaf_repo_manager_invalidate_repo_worktree,
    seaf_repo_manager_validate_repo_worktree.
  destruct (repo_head repo); [| reflexivity].
  destruct (seaf_repo_check_worktree s repo <? 0);
    destruct (repo_worktree_invalid repo); reflexivity.
Qed.

Lemma read_index_from_ok s id :
  index_files s !! id <> Some IndexCorrupt -> exists istate, read_index_from s id = Some istate.
Proof.
  unfold read_index_from. intros H.
  destruct (index_files s !! id) as [[|istate]|]; [congruence | eauto | eauto].
Qed.

Lemma leading_seps_last (l : list ascii) :
  leading_seps l <> [] -> last (leading_seps l) = Some sep.
Proof.
  induction l as [|c l IH]; [intros H; now contradiction H |].
  cbn [leading_seps]. destruct (Ascii.eqb_spec c sep) as [->|]; [| intros H; now contradiction H].
  intros _. destruct (leading_seps l) as [|d l'] eqn:Hl; [reflexivity |].
  change (last (sep :: d :: l')) with (last (d :: l')). apply IH. discriminate.
Qed.

(** Once a slash is skipped, the byte in front of the path is that slash:
    the read of [has_trailing_space] stays inside the buffer. *)
Lemma has_trailing_space_after_slash (path : string) :
  skipped_slashes path <> [] ->
  skip_leading_slashes path = "" ->
  has_trailing_space_at (skipped_slashes path) (skip_leading_slashes path)
  = Done false.
Proof.
  intros Hs ->. unfold has_trailing_space_at, skipped_slashes in *.
  now rewrite (leading_seps_last _ Hs).
Qed.

End WorktreeFacts.

Section EmptyPath.
Import CStr Fs Index Ignore Worktree.
Context {store : ObjectStore} {crypto : CryptoPrimitive}.

(** C9, amended. [has_trailing_space] reads the byte at [strlen (path) -
    1]: on a path that points at the first byte of its buffer it is
    defined exactly when the path is not empty.  [add_recursive] calls it
    first on its path argument, so it runs into the read outside the
    buffer when it is handed an empty path with nothing in front of it:
    the string literal of [seaf_repo_index_worktree_files] (always, once
    the index is loaded) and the path of [seaf_repo_index_add] when that
    path is empty as it is given.  When [seaf_repo_index_add] has skipped
    a leading slash the byte read is that slash, inside the buffer, and
    the test answers FALSE. *)
Theorem has_trailing_space_out_of_bounds_on_empty_path :
  (forall path, defined (has_trailing_space path) <-> path <> "")
  /\ (forall root istate worktree crypt ied,
        add_recursive root istate [] worktree "" crypt ied = Fault)
  /\ (forall s repo_id worktree passwd,
        (passwd = None -> index_files s !! repo_id <> Some IndexCorrupt) ->
        seaf_repo_index_worktree_files s repo_id worktree passwd = Fault)
  /\ (forall s repo,
        fst (check_worktree_common s repo) = true ->
        index_files s !! repo_id repo <> Some IndexCorrupt ->
        seaf_repo_index_add s repo "" = Fault)
  /\ (forall path,
        skipped_slashes path <> [] ->
        skip_leading_slashes path = "" ->
        has_trailing_space_at (skipped_slashes path) (skip_leading_slashes path)
        = Done false).
Proof.
  split; [| split; [| split; [| split]]].
  - intros path. split.
    + intros [b Hb] ->. discriminate.
    + intros Hne. destruct (has_trailing_space_spec path Hne) as (b & Hb & _).
      now exists b.
  - intros. apply add_recursive_empty_path.
  - intros s id worktree passwd Hidx. unfold seaf_repo_index_worktree_files.
    match goal with
    | |- match read_index_from ?s' id with _ => _ end = _ =>
        assert (Hread : exists istate, read_index_from s' id = Some istate)
    end.
    { apply read_index_from_ok. destruct passwd as [pw|]; simpl.
      - rewrite lookup_delete_eq. discriminate.
      - now apply Hidx. }
    destruct Hread as (istate & ->).
    now rewrite add_recursive_empty_path.
  - intros s repo Hok Hidx. unfold seaf_repo_index_add.
    pose proof (check_worktree_common_repo_id s repo) as Hid.
    destruct (check_worktree_common s repo) as [ok repo']. simpl in Hok, Hid.
    subst ok. simpl. rewrite Hid.
    destruct (read_index_from_ok s (repo_id repo) Hidx) as (istate & ->).
    reflexivity.
  - apply has_trailing_space_after_slash.
Qed.

End EmptyPath.

(** ** Passphrase proof *)

Section CryptFacts.
Import CStr Crypt.
Context {crypto : CryptoPrimitive}.

Lemma hex_val_digit (n : nat) : (n < 16)%nat -> hex_val (hex_digit n) = n.
Proof.
  intros H. do 16 (destruct n as [|n]; [reflexivity |]). lia.
Qed.

Lemma hex_pair_inj (a b : ascii) :
  hex_digit (nat_of_ascii a / 16) = hex_digit (nat_of_ascii b / 16) ->
  hex_digit (nat_of_ascii a mod 16) = hex_digit (nat_of_ascii b mod 16) ->
  a = b.
Proof.
  intros Hhi Hlo.
  pose proof (nat_ascii_bounded a) as Ha. pose proof (nat_ascii_bounded b) as Hb.
  apply (f_equal hex_val) in Hhi, Hlo.
  rewrite !hex_val_digit in Hhi, Hlo;
    try (apply Nat.mod_upper_bound; lia);
    try (apply Nat.Div0.div_lt_upper_bound; lia).
  rewrite <- (ascii_nat_embedding a), <- (ascii_nat_embedding b).
  f_equal.
  rewrite (Nat.div_mod_eq (nat_of_ascii a) 16), (Nat.div_mod_eq (nat_of_ascii b) 16).
  lia.
Qed.

(** [rawdata_to_hex] is one-to-one on the bytes it reads. *)
Lemma rawdata_to_hex_inj (k1 k2 : list ascii) (len : nat) :
  rawdata_to_hex k1 len = rawdata_to_hex k2 len -> take len k1 = take len k2.
Proof.
  unfold rawdata_to_hex. intros H.
  apply (f_equal list_ascii_of_string) in H.
  rewrite !list_ascii_of_string_of_list_ascii in H.
  revert H. generalize (take len k1) (take len k2). clear.
  induction l as [|a l IH]; intros [|b l']; simpl; try discriminate; intros H.
  - reflexivity.
  - injection H as Hhi Hlo Hrest. f_equal; [now apply hex_pair_inj | now apply IH].
Qed.

Lemma magic_of_generate (repo : SeafRepo) (pw : string) :
  repo_magic (seaf_repo_generate_magic repo pw)
  = rawdata_to_hex
      (fst (seafile_generate_enc_key (repo_id repo +:+ pw) CURRENT_ENC_VERSION)) 16.
Proof.
  unfold seaf_repo_generate_magic.
  now destruct (seafile_generate_enc_key _ CURRENT_ENC_VERSION).
Qed.

Lemma rawdata_to_hex_take (k : list ascii) (len : nat) :
  rawdata_to_hex (take len k) len = rawdata_to_hex k len.
Proof. unfold rawdata_to_hex. now rewrite take_take, Nat.min_id. Qed.

(** C5. When the magic of a repository was produced by
    [seaf_repo_generate_magic] with passphrase [pw] and the repository is
    at the encryption version the magic was generated at,
    [seaf_repo_verify_passwd] returns 0 for [pw2] exactly when the key
    derived from the repository id followed by [pw2] is the key derived
    from the repository id followed by [pw]; so, when the derivation does
    not map the two inputs to one key, exactly when [pw2] is [pw]. *)
Theorem verify_passwd_iff_same_derived_key (repo : SeafRepo) (pw pw2 : string) :
  repo_enc_version repo = CURRENT_ENC_VERSION ->
  let v := CURRENT_ENC_VERSION in
  let generated := seaf_repo_generate_magic repo pw in
  (seaf_repo_verify_passwd generated pw2 = 0 <->
   derived_key (repo_id repo +:+ pw2) v = derived_key (repo_id repo +:+ pw) v)
  /\
  ((derived_key (repo_id repo +:+ pw2) v = derived_key (repo_id repo +:+ pw) v ->
    repo_id repo +:+ pw2 = repo_id repo +:+ pw) ->
   (seaf_repo_verify_passwd generated pw2 = 0 <-> pw2 = pw)).
Proof.
  intros Hv v generated.
  assert (Hiff : seaf_repo_verify_passwd generated pw2 = 0 <->
                 derived_key (repo_id repo +:+ pw2) v
                 = derived_key (repo_id repo +:+ pw) v).
  { unfold seaf_repo_verify_passwd, generated.
    rewrite magic_of_generate. unfold derived_key, v.
    replace (repo_enc_version (seaf_repo_generate_magic repo pw))
      with CURRENT_ENC_VERSION
      by (unfold seaf_repo_generate_magic;
          destruct (seafile_generate_enc_key _ CURRENT_ENC_VERSION); symmetry; exact Hv).
    replace (repo_id (seaf_repo_generate_magic repo pw)) with (repo_id repo)
      by (unfold seaf_repo_generate_magic;
          now destruct (seafile_generate_enc_key _ CURRENT_ENC_VERSION)).
    destruct (seafile_generate_enc_key (repo_id repo +:+ pw2) CURRENT_ENC_VERSION)
      as [key2 iv2].
    simpl fst. unfold strcmp_eq.
    destruct (String.eqb_spec (rawdata_to_hex key2 16)
                (rawdata_to_hex
                   (fst (seafile_generate_enc_key (repo_id repo +:+ pw)
                           CURRENT_ENC_VERSION)) 16)) as [Heq|Hne].
    - split; [intros _; now apply rawdata_to_hex_inj | reflexivity].
    - split; [discriminate |]. intros Hk. exfalso. apply Hne.
      rewrite <- (rawdata_to_hex_take key2), Hk. apply rawdata_to_hex_take. }
  split; [exact Hiff |].
  intros Hinj. rewrite Hiff. split.
  - intros Hk. apply Hinj in Hk. apply (f_equal chars) in Hk.
    rewrite !chars_append in Hk. apply app_inv_head in Hk. now apply chars_inj.
  - now intros ->.
Qed.

End CryptFacts.

(** ** Commit builder *)

Section CommitFacts.
Import CStr Fs Index Worktree Commit.
Context {store : ObjectStore} {differ : Differ} {ids : CommitIds}.

Lemma check_worktree_common_head s repo :
  repo_head (snd (check_worktree_common s repo)) = repo_head repo.
Proof.
  unfold check_worktree_common, seaf_repo_manager_invalidate_repo_worktree,
    seaf_repo_manager_validate_repo_worktree.
  destruct (repo_head repo) eqn:Hh; [| exact Hh].
  destruct (seaf_repo_check_worktree s repo <? 0);
    destruct (repo_worktree_invalid repo); simpl; exact Hh.
Qed.

Lemma check_worktree_common_ok_head s repo :
  fst (check_worktree_common s repo) = true -> repo_head repo <> None.
Proof.
  unfold check_worktree_common. destruct (repo_head repo); [discriminate |].
  simpl. discriminate.
Qed.

(** With a failing commit store [commit_tree] fails and changes nothing. *)
Lemma commit_tree_store_failure s repo root_id desc unmerged remote :
  commit_store_ok s = false ->
  commit_tree s repo root_id desc unmerged remote = Done (-1, None, repo, s).
Proof.
  intros Hfail. unfold commit_tree.
  destruct unmerged; simpl.
  - destruct (seaf_branch_manager_get_branch s (repo_id repo) "master");
      [| reflexivity].
    unfold seaf_commit_manager_add_commit. now rewrite Hfail.
  - unfold seaf_commit_manager_add_commit. now rewrite Hfail.
Qed.

(** What a run of [commit_tree] that returns 0 has done. *)
Lemma commit_tree_success s repo root_id desc unmerged remote cid repo' s' :
  commit_tree s repo root_id desc unmerged remote = Done (0, cid, repo', s') ->
  exists c h,
    repo_head repo = Some h
    /\ commit_store_ok s = true
    /\ commits s' = c :: commits s
    /\ cid = Some (commit_id c)
    /\ c_parent_id c = Some (b_commit_id h)
    /\ c_second_parent_id c
       = (if unmerged
          then b_commit_id <$> seaf_branch_manager_get_branch s (repo_id repo) "master"
          else None)
    /\ (unmerged = true ->
        seaf_branch_manager_get_branch s (repo_id repo) "master" <> None)
    /\ repo_head repo' = Some (seaf_branch_set_commit h (commit_id c))
    /\ branches s' = <[(b_repo_id h, b_name h) := commit_id c]> (branches s).
Proof.
  unfold commit_tree. intros Hrun.
  destruct (repo_head repo) as [h|] eqn:Hh.
  - destruct unmerged; simpl in Hrun.
    + destruct (seaf_branch_manager_get_branch s (repo_id repo) "master")
        as [m|] eqn:Hm; [| discriminate].
      unfold seaf_commit_manager_add_commit in Hrun.
      destruct (commit_store_ok s) eqn:Hok; simpl in Hrun; [| discriminate].
      inversion Hrun; subst. do 2 eexists.
      repeat split; try reflexivity. discriminate.
    + unfold seaf_commit_manager_add_commit in Hrun.
      destruct (commit_store_ok s) eqn:Hok; simpl in Hrun; [| discriminate].
      inversion Hrun; subst. do 2 eexists.
      repeat split; try reflexivity. discriminate.
  - destruct unmerged; simpl in Hrun.
    + destruct (seaf_branch_manager_get_branch s (repo_id repo) "master");
        [| discriminate].
      unfold seaf_commit_manager_add_commit in Hrun.
      destruct (commit_store_ok s); simpl in Hrun; discriminate.
    + unfold seaf_commit_manager_add_commit in Hrun.
      destruct (commit_store_ok s); simpl in Hrun; discriminate.
Qed.

(** [commit_tree] returns 0 or -1, and -1 leaves everything as it was. *)
Lemma commit_tree_failure s repo root_id desc unmerged remote ret cid repo' s' :
  commit_tree s repo root_id desc unmerged remote = Done (ret, cid, repo', s') ->
  ret <> 0 -> ret = -1 /\ cid = None /\ repo' = repo /\ s' = s.
Proof.
  unfold commit_tree. intros Hrun Hret.
  destruct unmerged; simpl in Hrun.
  - destruct (seaf_branch_manager_get_branch s (repo_id repo) "master");
      [| now inversion Hrun].
    unfold seaf_commit_manager_add_commit in Hrun.
    destruct (commit_store_ok s); simpl in Hrun; [| now inversion Hrun].
    destruct (repo_head repo); [| discriminate]. inversion Hrun; subst. contradiction.
  - unfold seaf_commit_manager_add_commit in Hrun.
    destruct (commit_store_ok s); simpl in Hrun; [| now inversion Hrun].
    destruct (repo_head repo); [| discriminate]. inversion Hrun; subst. contradiction.
Qed.

(** With a failing commit store [seaf_repo_index_commit] returns NULL and
    leaves the session and the head as they were. *)
Lemma index_commit_store_failure s repo desc unmerged remote :
  commit_store_ok s = false ->
  exists err repo',
    seaf_repo_index_commit s repo desc unmerged remote = Done (None, err, repo', s)
    /\ repo_head repo' = repo_head repo.
Proof.
  intros Hfail. unfold seaf_repo_index_commit.
  pose proof (check_worktree_common_head s repo) as Hhead.
  destruct (check_worktree_common s repo) as [ok repo1]. simpl in Hhead.
  destruct ok; simpl; [| eauto].
  destruct (read_index_from s (repo_id repo1)) as [istate|]; [| eauto].
  destruct (if negb unmerged && String.eqb desc ""
            then gen_commit_description s repo1 istate else Some desc)
    as [my_desc|]; [| eauto].
  destruct (cache_tree_update istate) as [root_id|]; [| eauto].
  rewrite commit_tree_store_failure by assumption. simpl. eauto.
Qed.

(** C1. When the write of the commit object to the commit store fails,
    [commit_tree] returns -1 and [seaf_repo_index_commit], which calls it,
    returns NULL; the head branch of the repository and the branch store
    are as they were.  Whenever a run of [commit_tree] has moved the head
    branch or changed the branch store, the commit store write had
    succeeded: the new commit is in the store and the head points to it. *)
Theorem commit_store_failure_leaves_branch (s : SeafileSession)
    (repo : SeafRepo) (root_id desc : string) (unmerged : bool)
    (remote : string) :
  (commit_store_ok s = false ->
   commit_tree s repo root_id desc unmerged remote = Done (-1, None, repo, s)
   /\ exists err repo',
        seaf_repo_index_commit s repo desc unmerged remote
        = Done (None, err, repo', s)
        /\ repo_head repo' = repo_head repo)
  /\
  (forall ret cid repo' s',
     commit_tree s repo root_id desc unmerged remote = Done (ret, cid, repo', s') ->
     repo_head repo' <> repo_head repo \/ branches s' <> branches s ->
     ret = 0 /\ commit_store_ok s = true
     /\ exists c, commits s' = c :: commits s
                  /\ b_commit_id <$> repo_head repo' = Some (commit_id c)).
Proof.
  split.
  - intros Hfail. split.
    + now apply commit_tree_store_failure.
    + now apply index_commit_store_failure.
  - intros ret cid repo' s' Hrun Hmoved.
    destruct (Z.eq_dec ret 0) as [->|Hret].
    + destruct (commit_tree_success _ _ _ _ _ _ _ _ _ Hrun)
        as (c & h & _ & Hok & Hc & _ & _ & _ & _ & Hh & _).
      repeat split; try assumption. exists c. split; [assumption |].
      now rewrite Hh.
    + destruct (commit_tree_failure _ _ _ _ _ _ _ _ _ _ Hrun Hret)
        as (_ & _ & -> & ->).
      destruct Hmoved; congruence.
Qed.

(** C3. A call of [seaf_repo_index_commit] with an empty description and
    [unmerged] false, for which the diff of the index against the head is
    empty, returns NULL: no commit is written and no branch moves, the
    session is as it was and so is the head of the repository. *)
Theorem empty_commit_without_changes_is_noop (s : SeafileSession)
    (repo : SeafRepo) (remote : string) :
  (forall istate,
     read_index_from s (repo_id repo) = Some istate ->
     index_vs_head_diff s (snd (check_worktree_common s repo)) istate = []) ->
  exists err repo',
    seaf_repo_index_commit s repo "" false remote = Done (None, err, repo', s)
    /\ repo_head repo' = repo_head repo.
Proof.
  intros Hdiff. unfold seaf_repo_index_commit.
  pose proof (check_worktree_common_head s repo) as Hhead.
  pose proof (check_worktree_common_repo_id s repo) as Hid.
  destruct (check_worktree_common s repo) as [ok repo1]. simpl in Hhead, Hid, Hdiff.
  destruct ok; simpl; [| eauto].
  rewrite Hid.
  destruct (read_index_from s (repo_id repo)) as [istate|]; [| eauto].
  unfold gen_commit_description. rewrite (Hdiff istate eq_refl). simpl. eauto.
Qed.

(** C4. When [commit_tree] runs on a repository with head [h]: a commit it
    writes has the commit of [h] as its first parent; with [unmerged] set
    its second parent is the commit of the [master] branch, and without
    it there is no second parent; with [unmerged] set and no [master]
    branch the call returns -1 and neither the commit store nor the head
    nor the branch store changes.  With a working commit store, and a
    [master] branch when [unmerged] is set, the commit is written. *)
Theorem commit_tree_parents (s : SeafileSession) (repo : SeafRepo)
    (h : SeafBranch) (root_id desc : string) (unmerged : bool)
    (remote : string) :
  repo_head repo = Some h ->
  (unmerged = true ->
   seaf_branch_manager_get_branch s (repo_id repo) "master" = None ->
   commit_tree s repo root_id desc unmerged remote = Done (-1, None, repo, s))
  /\
  (forall cid repo' s',
     commit_tree s repo root_id desc unmerged remote = Done (0, cid, repo', s') ->
     exists c,
       commits s' = c :: commits s
       /\ cid = Some (commit_id c)
       /\ c_parent_id c = Some (b_commit_id h)
       /\ (unmerged = true ->
           exists m,
             seaf_branch_manager_get_branch s (repo_id repo) "master" = Some m
             /\ c_second_parent_id c = Some (b_commit_id m))
       /\ (unmerged = false -> c_second_parent_id c = None))
  /\
  (commit_store_ok s = true ->
   (unmerged = true ->
    seaf_branch_manager_get_branch s (repo_id repo) "master" <> None) ->
   exists cid repo' s',
     commit_tree s repo root_id desc unmerged remote
     = Done (0, Some cid, repo', s')).
Proof.
  intros Hh. split; [| split].
  - intros -> Hm. unfold commit_tree. simpl. now rewrite Hm.
  - intros cid repo' s' H.
    destruct (commit_tree_success _ _ _ _ _ _ _ _ _ H)
      as (c & h' & Hh' & _ & Hc & Hcid & Hp & Hsp & Hm & _ & _).
    rewrite Hh in Hh'. inversion Hh'; subst h'.
    exists c. repeat split; try assumption.
    + intros ->. specialize (Hm eq_refl).
      destruct (seaf_branch_manager_get_branch s (repo_id repo) "master") as [m|];
        [| congruence].
      exists m. split; [reflexivity | exact Hsp].
    + intros ->. exact Hsp.
  - intros Hok Hm. unfold commit_tree. rewrite Hh.
    destruct unmerged; simpl.
    + destruct (seaf_branch_manager_get_branch s (repo_id repo) "master") as [m|];
        [| now specialize (Hm eq_refl)].
      unfold seaf_commit_manager_add_commit. rewrite Hok. simpl. eauto.
    + unfold seaf_commit_manager_add_commit. rewrite Hok. simpl. eauto.
Qed.

End CommitFacts.

(** ** Registry lookups *)

Section RegistryFacts.
Import CStr Db Manager Scenario.

Lemma strlen_ge_37 (id : string) :
  (37 <= String.length id)%nat <-> (strlen id >=? 37) = true.
Proof. unfold strlen. rewrite Z.geb_le. lia. Qed.

(** [seaf_repo_manager_get_repo] never returns a delete-pending
    repository. *)
Lemma get_repo_hides_delete_pending mgr id r :
  seaf_repo_manager_get_repo mgr id = Some r -> repo_delete_pending r = false.
Proof.
  unfold seaf_repo_manager_get_repo.
  destruct (strlen id >=? 37); [discriminate |].
  destruct (avl_search (repo_tree mgr) id) as [ret|]; [| discriminate].
  destruct (repo_delete_pending ret) eqn:Hd; simpl; [discriminate |].
  now intros [= <-].
Qed.

(** [seaf_repo_manager_repo_exists] answers FALSE for a delete-pending
    repository. *)
Lemma repo_exists_hides_delete_pending mgr id :
  seaf_repo_manager_repo_exists mgr id = Done true ->
  exists r,
    avl_search (repo_tree mgr) (String.substring 0 37 id) = Some r
    /\ repo_delete_pending r = false.
Proof.
  unfold seaf_repo_manager_repo_exists, memcpy_id_37.
  destruct (strlen id <? 36); simpl; [discriminate |].
  destruct (avl_search (repo_tree mgr) (String.substring 0 37 id)) as [ret|];
    [| discriminate].
  destruct (repo_delete_pending ret) eqn:Hd; simpl; [discriminate |].
  intros _. now exists ret.
Qed.

Lemma get_repo_list_fold (l acc : list SeafRepo) r :
  In r (fold_left (fun repo_list repo =>
                     if negb (repo_delete_pending repo) then repo :: repo_list
                     else repo_list) l acc) ->
  In r acc \/ (In r l /\ repo_delete_pending r = false).
Proof.
  revert acc. induction l as [|x l IH]; intros acc; simpl; [tauto |].
  intros H. apply IH in H as [H | [H Hd]]; [| tauto].
  destruct (repo_delete_pending x) eqn:Hx; simpl in H; [tauto |].
  destruct H as [<- | H]; tauto.
Qed.

(** [seaf_repo_manager_get_repo_list] leaves the delete-pending
    repositories out. *)
Lemma get_repo_list_hides_delete_pending mgr start limit r :
  In r (seaf_repo_manager_get_repo_list mgr start limit) ->
  repo_delete_pending r = false.
Proof.
  unfold seaf_repo_manager_get_repo_list. intros H.
  apply get_repo_list_fold in H as [[] | [_ H]]. exact H.
Qed.

(** C2. The registry holding one repository that has just been marked
    deleted: [seaf_repo_manager_get_repo], [seaf_repo_manager_repo_exists]
    and [seaf_repo_manager_get_repo_list] behave as if it were absent,
    while [seaf_repo_manager_get_repo_prefix] returns it and
    [seaf_repo_manager_repo_exists_prefix] answers TRUE. *)
Theorem prefix_lookups_see_delete_pending_repo :
  let mgr := snd (seaf_repo_manager_mark_repo_deleted mgr0 id0) in
  fst (seaf_repo_manager_mark_repo_deleted mgr0 id0) = 0
  /\ seaf_repo_manager_get_repo mgr id0 = None
  /\ seaf_repo_manager_repo_exists mgr id0 = Done false
  /\ seaf_repo_manager_get_repo_list mgr 0 10 = []
  /\ seaf_repo_manager_get_repo_prefix mgr "1111"
     = Some (set_delete_pending true repo0)
  /\ seaf_repo_manager_get_repo_prefix mgr id0
     = Some (set_delete_pending true repo0)
  /\ seaf_repo_manager_repo_exists_prefix mgr id0 = Done true.
Proof. vm_compute. repeat split; reflexivity. Qed.

(** C10. For an id of 37 characters or more [seaf_repo_manager_get_repo]
    and [seaf_repo_manager_get_repo_prefix] return NULL whatever the
    registry holds; an id for which either of them returns a repository
    has at most 36 characters. *)
Theorem long_ids_match_no_repo (mgr : SeafRepoManager) (id : string) :
  ((37 <= String.length id)%nat ->
   seaf_repo_manager_get_repo mgr id = None
   /\ seaf_repo_manager_get_repo_prefix mgr id = None)
  /\
  (forall r,
     seaf_repo_manager_get_repo mgr id = Some r
     \/ seaf_repo_manager_get_repo_prefix mgr id = Some r ->
     (String.length id <= 36)%nat).
Proof.
  unfold seaf_repo_manager_get_repo, seaf_repo_manager_get_repo_prefix.
  split.
  - intros Hlen. apply strlen_ge_37 in Hlen. now rewrite Hlen.
  - intros r H.
    destruct (strlen id >=? 37) eqn:Hlen.
    + destruct H; discriminate.
    + destruct (Nat.le_gt_cases (String.length id) 36) as [|Hgt]; [assumption |].
      apply strlen_ge_37 in Hgt. congruence.
Qed.

End RegistryFacts.

(** ** Temporary tokens *)

Section TokenFacts.
Import CStr Db SqlText Manager Scenario.
Context {engine : SqlEngine}.

Lemma verify_tmp_token_result delete_runs mgr repo_id peer_id token :
  plain tmp_token_room token = true ->
  seaf_repo_manager_verify_tmp_token delete_runs mgr (Some repo_id)
    (Some peer_id) (Some token)
  = if tmp_token_row_exists (db mgr) repo_id peer_id token
    then (1, mkMgr (repo_tree mgr)
               (if delete_runs
                then snd (sqlite_query_exec (db mgr)
                            (DELETE_FROM_RepoTmpToken repo_id peer_id))
                else db mgr))
    else (0, mgr).
Proof.
  intros Hplain. unfold seaf_repo_manager_verify_tmp_token. now rewrite Hplain.
Qed.

(** Once the row of the pair is deleted no token of the pair verifies. *)
Lemma tmp_token_row_gone d repo_id peer_id token :
  db_ok d = true ->
  tmp_token_row_exists
    (snd (sqlite_query_exec d (DELETE_FROM_RepoTmpToken repo_id peer_id)))
    repo_id peer_id token = false.
Proof.
  intros Hok. unfold sqlite_query_exec, tmp_token_row_exists. rewrite Hok. simpl.
  rewrite Hok. simpl. now rewrite lookup_delete_eq.
Qed.

Lemma tmp_token_row_exists_ok d repo_id peer_id token :
  tmp_token_row_exists d repo_id peer_id token = true -> db_ok d = true.
Proof. unfold tmp_token_row_exists. now destruct (db_ok d). Qed.

(** When the store does not execute the DELETE the verification still
    answers 1 and the token stays good for the next one. *)
Lemma tmp_token_survives_a_failed_delete mgr repo_id peer_id token mgr' :
  plain tmp_token_room token = true ->
  seaf_repo_manager_verify_tmp_token false mgr (Some repo_id) (Some peer_id)
    (Some token) = (1, mgr') ->
  mgr' = mgr
  /\ forall delete_runs,
       fst (seaf_repo_manager_verify_tmp_token delete_runs mgr' (Some repo_id)
              (Some peer_id) (Some token)) = 1.
Proof.
  intros Hplain. rewrite verify_tmp_token_result by assumption.
  destruct (tmp_token_row_exists (db mgr) repo_id peer_id token) eqn:Hrow;
    [| discriminate].
  intros [= <-]. split; [now destruct mgr |].
  intros delete_runs. rewrite verify_tmp_token_result by assumption.
  cbn [db]. now rewrite Hrow.
Qed.

(** A counterexample to the time bound of C8: for every bound, the token
    generated at time 0 for a pair of the concrete installation still
    verifies after the bound has passed. *)
Lemma tmp_token_never_expires : ~ exists bound, time_bounded bound.
Proof.
  intros [bound Hb].
  specialize (Hb demo_engine true mgr0 id0 "peer-1" "token-1" 0
                (Z.max 0 bound + 1) "token-1"
                (snd (seaf_repo_manager_generate_tmp_token mgr0 id0 "peer-1" 0
                        "token-1"))
                eq_refl ltac:(lia)).
  vm_compute in Hb. discriminate Hb.
Qed.

(** C8, amended. A temporary token is one-shot and nothing more, for a
    token that holds no quote and leaves the text of the SELECT inside its
    buffer, as a generated token does, and when the store executes the
    DELETE: a verification that succeeds deletes the row of the (repo,
    peer) pair, so verifying the same token again fails; a freshly
    generated token verifies, and so does any token found in the row of
    its pair, whatever the timestamp stored with it. *)
Theorem tmp_token_one_shot (mgr : SeafRepoManager)
    (repo_id peer_id token : string) :
  plain tmp_token_room token = true ->
  (forall mgr' delete_runs,
     seaf_repo_manager_verify_tmp_token true mgr (Some repo_id) (Some peer_id)
       (Some token) = (1, mgr') ->
     seaf_repo_manager_verify_tmp_token delete_runs mgr' (Some repo_id)
       (Some peer_id) (Some token) = (0, mgr'))
  /\
  (forall now mgr' delete_runs,
     seaf_repo_manager_generate_tmp_token mgr repo_id peer_id now token
     = (Some token, mgr') ->
     fst (seaf_repo_manager_verify_tmp_token delete_runs mgr' (Some repo_id)
            (Some peer_id) (Some token)) = 1)
  /\
  (forall timestamp delete_runs,
     db_ok (db mgr) = true ->
     RepoTmpToken (db mgr) !! (repo_id, peer_id) = Some (token, timestamp) ->
     fst (seaf_repo_manager_verify_tmp_token delete_runs mgr (Some repo_id)
            (Some peer_id) (Some token)) = 1).
Proof.
  intros Hplain. split; [| split].
  - intros mgr' delete_runs. rewrite verify_tmp_token_result by assumption.
    destruct (tmp_token_row_exists (db mgr) repo_id peer_id token) eqn:Hrow;
      [| discriminate].
    intros [= <-]. rewrite verify_tmp_token_result by assumption. simpl.
    now rewrite tmp_token_row_gone by (now apply tmp_token_row_exists_ok in Hrow).
  - intros now mgr' delete_runs. rewrite verify_tmp_token_result by assumption.
    unfold seaf_repo_manager_generate_tmp_token, sqlite_query_exec.
    destruct (db_ok (db mgr)) eqn:Hok; simpl; [| discriminate].
    intros [= <-].
    unfold tmp_token_row_exists. simpl. rewrite Hok, lookup_insert_eq. simpl.
    now rewrite String.eqb_refl.
  - intros timestamp delete_runs Hok Hrow.
    rewrite verify_tmp_token_result by assumption.
    unfold tmp_token_row_exists. rewrite Hok, Hrow. simpl.
    now rewrite String.eqb_refl.
Qed.

End TokenFacts.

(** ** Purge *)

Section PurgeFacts.
Import CStr Db Manager Purge Scenario.
Local Open Scope list_scope.

Lemma exec_log q e : e_log (snd (exec q e)) = e_log e ++ [EvSql q].
Proof. unfold exec. now destruct (sqlite_query_exec (e_db e) q). Qed.

Lemma exec_session q e : e_session (snd (exec q e)) = e_session e.
Proof. unfold exec. now destruct (sqlite_query_exec (e_db e) q). Qed.

Lemma exec_db q e : e_db (snd (exec q e)) = snd (sqlite_query_exec (e_db e) q).
Proof. unfold exec. now destruct (sqlite_query_exec (e_db e) q). Qed.

Lemma sqlite_query_exec_ok d q :
  db_ok (snd (sqlite_query_exec d q)) = db_ok d.
Proof.
  unfold sqlite_query_exec. destruct (db_ok d) eqn:Hok; [| exact Hok].
  destruct q; simpl; try exact Hok.
  destruct (bool_decide _); simpl; exact Hok.
Qed.

(** Only the statement on the [Repo] table touches the [Repo] table. *)
Lemma sqlite_query_exec_Repo d q :
  (forall id, q <> DELETE_FROM_Repo id) ->
  Repo (snd (sqlite_query_exec d q)) = Repo d.
Proof.
  intros Hq. unfold sqlite_query_exec. destruct (db_ok d); [| reflexivity].
  destruct q as [id| id| | | | | | | |]; simpl; try reflexivity.
  - now specialize (Hq id).
  - now destruct (bool_decide _).
Qed.

Lemma remove_branch_effect repo_id e b :
  e_log (remove_branch repo_id e b)
  = e_log e ++ [EvSql (DELETE_FROM_RepoBranch (b_name b) (b_repo_id b));
                EvDelBranch repo_id (b_name b)]
  /\ Repo (e_db (remove_branch repo_id e b)) = Repo (e_db e)
  /\ db_ok (e_db (remove_branch repo_id e b)) = db_ok (e_db e).
Proof.
  unfold remove_branch, seaf_repo_manager_branch_repo_unmap,
    seaf_branch_manager_del_branch.
  pose proof (exec_log (DELETE_FROM_RepoBranch (b_name b) (b_repo_id b)) e) as Hl.
  pose proof (exec_db (DELETE_FROM_RepoBranch (b_name b) (b_repo_id b)) e) as Hd.
  destruct (exec (DELETE_FROM_RepoBranch (b_name b) (b_repo_id b)) e) as [ret e1].
  simpl in Hl, Hd.
  assert (He1 : snd (if ret <? 0 then (-1, e1) else (0, e1)) = e1)
    by now destruct (ret <? 0).
  rewrite He1. cbn [e_log e_db]. rewrite Hl, Hd, <- app_assoc.
  repeat split.
  - now apply sqlite_query_exec_Repo.
  - apply sqlite_query_exec_ok.
Qed.

Lemma branch_loop repo_id bs e :
  let e' := fold_left (remove_branch repo_id) bs e in
  e_log e' = e_log e ++ branch_events repo_id bs
  /\ Repo (e_db e') = Repo (e_db e)
  /\ db_ok (e_db e') = db_ok (e_db e).
Proof.
  revert e. induction bs as [|b bs IH]; intros e; cbn [fold_left].
  - unfold branch_events. simpl. now rewrite app_nil_r.
  - destruct (IH (remove_branch repo_id e b)) as (Hlog & Hrepo & Hok).
    destruct (remove_branch_effect repo_id e b) as (Hl1 & Hr1 & Ho1).
    cbv zeta in *. rewrite Hlog, Hrepo, Hok, Hl1, Hr1, Ho1.
    unfold branch_events. cbn [flat_map]. rewrite <- !app_assoc.
    repeat split.
Qed.

Lemma remove_repo_ondisk_failure e repo_id :
  db_ok (e_db e) = false ->
  remove_repo_ondisk e repo_id
  = mkEnv (e_db e) (e_session e) (e_log e ++ [EvSql (DELETE_FROM_Repo repo_id)]).
Proof.
  intros Hok. unfold remove_repo_ondisk, exec, sqlite_query_exec. now rewrite Hok.
Qed.

Lemma exec_registry_row_ok e repo_id :
  db_ok (e_db e) = true -> fst (exec (DELETE_FROM_Repo repo_id) e) = 0.
Proof. intros Hok. unfold exec, sqlite_query_exec. now rewrite Hok. Qed.

Lemma exec_registry_row_Repo e repo_id :
  db_ok (e_db e) = true ->
  Repo (e_db (snd (exec (DELETE_FROM_Repo repo_id) e))) = Repo (e_db e) ∖ {[repo_id]}.
Proof. intros Hok. unfold exec, sqlite_query_exec. now rewrite Hok. Qed.

Lemma g_unlink_index_effect repo_id e :
  e_log (g_unlink_index repo_id e) = e_log e ++ [EvUnlinkIndex repo_id]
  /\ e_db (g_unlink_index repo_id e) = e_db e
  /\ branches (e_session (g_unlink_index repo_id e)) = branches (e_session e).
Proof. repeat split. Qed.

Lemma remove_repo_ondisk_success e repo_id :
  db_ok (e_db e) = true ->
  let e' := remove_repo_ondisk e repo_id in
  e_log e' = e_log e
             ++ EvSql (DELETE_FROM_Repo repo_id)
                :: cleanup_events repo_id
                     (seaf_branch_manager_get_branch_list (e_session e) repo_id)
  /\ Repo (e_db e') = Repo (e_db e) ∖ {[repo_id]}.
Proof.
  intros Hok e'. subst e'. unfold remove_repo_ondisk.
  pose proof (exec_registry_row_ok e repo_id Hok) as Hret.
  pose proof (exec_registry_row_Repo e repo_id Hok) as Hrepo1.
  pose proof (exec_log (DELETE_FROM_Repo repo_id) e) as Hlog1.
  pose proof (exec_session (DELETE_FROM_Repo repo_id) e) as Hses1.
  destruct (exec (DELETE_FROM_Repo repo_id) e) as [ret e1].
  cbn [fst snd] in *. subst ret. cbn [Z.ltb Z.compare]. cbv iota.
  set (e2 := snd (exec (DELETE_FROM_DeletedRepo repo_id) e1)).
  set (e3 := g_unlink_index repo_id e2).
  destruct (g_unlink_index_effect repo_id e2) as (Hlog3 & Hdb3 & Hbr3).
  fold e3 in Hlog3, Hdb3, Hbr3.
  assert (Hbs : seaf_branch_manager_get_branch_list (e_session e3) repo_id
                = seaf_branch_manager_get_branch_list (e_session e) repo_id).
  { unfold seaf_branch_manager_get_branch_list. rewrite Hbr3. unfold e2.
    now rewrite exec_session, Hses1. }
  rewrite Hbs.
  destruct (branch_loop repo_id
              (seaf_branch_manager_get_branch_list (e_session e) repo_id) e3)
    as (Hlog4 & Hrepo4 & _).
  cbv zeta in Hlog4, Hrepo4.
  set (e4 := fold_left (remove_branch repo_id)
               (seaf_branch_manager_get_branch_list (e_session e) repo_id) e3) in *.
  unfold seaf_repo_manager_del_repo_property.
  rewrite !exec_log, !exec_db, Hlog4, Hlog3.
  rewrite !sqlite_query_exec_Repo by discriminate.
  rewrite Hrepo4, Hdb3. unfold e2.
  rewrite exec_log, exec_db, Hlog1.
  rewrite sqlite_query_exec_Repo by discriminate.
  split; [| exact Hrepo1].
  unfold cleanup_events. rewrite <- !app_assoc. reflexivity.
Qed.

Lemma position_in (x : event) (l : list event) :
  In x l -> exists k, position x l = Some k.
Proof.
  induction l as [|y l IH]; simpl; [contradiction |].
  intros H. destruct (decide (x = y)); [now exists O |].
  destruct H as [->|H]; [contradiction |].
  destruct (IH H) as (k & ->). now exists (S k).
Qed.

Lemma head_is_first (r : event) (post : list event) (x : event) :
  In x (r :: post) -> x <> r -> before r x (r :: post).
Proof.
  intros [->|Hin] Hne; [contradiction |].
  unfold before. simpl. destruct (decide (r = r)); [| contradiction].
  destruct (decide (x = r)); [contradiction |].
  destruct (position_in x post Hin) as (k & ->). simpl. lia.
Qed.

Lemma emitted_failure e repo_id :
  db_ok (e_db e) = false ->
  emitted e repo_id = [EvSql (DELETE_FROM_Repo repo_id)].
Proof.
  intros Hok. unfold emitted. rewrite remove_repo_ondisk_failure by assumption.
  cbn [e_log]. apply drop_app_length.
Qed.

Lemma emitted_success e repo_id :
  db_ok (e_db e) = true ->
  emitted e repo_id
  = EvSql (DELETE_FROM_Repo repo_id)
    :: cleanup_events repo_id
         (seaf_branch_manager_get_branch_list (e_session e) repo_id).
Proof.
  intros Hok. unfold emitted.
  destruct (remove_repo_ondisk_success e repo_id Hok) as [-> _].
  apply drop_app_length.
Qed.

(** A counterexample to C6: the purge of the repository of the concrete
    installation asks for the removal of the registry row first, so the
    removal of the index file, for one, does not come before it. *)
Lemma registry_row_is_not_removed_last :
  emitted env0 id0
  = [ EvSql (DELETE_FROM_Repo id0);
      EvSql (DELETE_FROM_DeletedRepo id0);
      EvUnlinkIndex id0;
      EvSql (DELETE_FROM_RepoBranch "master" id0);
      EvDelBranch id0 "master";
      EvSql (DELETE_FROM_RepoBranch "local" id0);
      EvDelBranch id0 "local";
      EvSql (DELETE_FROM_RepoProperty id0);
      EvSql (DELETE_FROM_RepoPasswd id0);
      EvSql (DELETE_FROM_RepoKeys id0);
      EvSql (DELETE_FROM_MergeInfo id0) ]
  /\ ~ registry_row_last id0 (emitted env0 id0).
Proof.
  assert (Hl : emitted env0 id0
               = [ EvSql (DELETE_FROM_Repo id0);
                   EvSql (DELETE_FROM_DeletedRepo id0);
                   EvUnlinkIndex id0;
                   EvSql (DELETE_FROM_RepoBranch "master" id0);
                   EvDelBranch id0 "master";
                   EvSql (DELETE_FROM_RepoBranch "local" id0);
                   EvDelBranch id0 "local";
                   EvSql (DELETE_FROM_RepoProperty id0);
                   EvSql (DELETE_FROM_RepoPasswd id0);
                   EvSql (DELETE_FROM_RepoKeys id0);
                   EvSql (DELETE_FROM_MergeInfo id0) ])
    by (vm_compute; reflexivity).
  split; [exact Hl |].
  rewrite Hl. intros Hlast.
  specialize (Hlast (EvUnlinkIndex id0)).
  assert (Hbefore : before (EvUnlinkIndex id0) (EvSql (DELETE_FROM_Repo id0))
                      [ EvSql (DELETE_FROM_Repo id0);
                        EvSql (DELETE_FROM_DeletedRepo id0);
                        EvUnlinkIndex id0;
                        EvSql (DELETE_FROM_RepoBranch "master" id0);
                        EvDelBranch id0 "master";
                        EvSql (DELETE_FROM_RepoBranch "local" id0);
                        EvDelBranch id0 "local";
                        EvSql (DELETE_FROM_RepoProperty id0);
                        EvSql (DELETE_FROM_RepoPasswd id0);
                        EvSql (DELETE_FROM_RepoKeys id0);
                        EvSql (DELETE_FROM_MergeInfo id0) ]).
  { apply Hlast; [simpl; tauto | discriminate]. }
  vm_compute in Hbefore. lia.
Qed.

(** C6, amended. Every purge asks for the removal of the row of the
    [Repo] table first, before the tombstone row, the index file, the
    branch rows and the property, passphrase, key and merge rows; when
    that first removal fails nothing else is asked for and the store and
    the session stay as they were, and when it succeeds the row is gone
    and the other removals follow in the order of the source. *)
Theorem purge_removes_registry_row_first (e : env) (repo_id : string) :
  registry_row_first repo_id (emitted e repo_id)
  /\ (db_ok (e_db e) = false ->
      emitted e repo_id = [EvSql (DELETE_FROM_Repo repo_id)]
      /\ e_db (remove_repo_ondisk e repo_id) = e_db e
      /\ e_session (remove_repo_ondisk e repo_id) = e_session e)
  /\ (db_ok (e_db e) = true ->
      emitted e repo_id
      = EvSql (DELETE_FROM_Repo repo_id)
        :: cleanup_events repo_id
             (seaf_branch_manager_get_branch_list (e_session e) repo_id)
      /\ repo_id ∉ Repo (e_db (remove_repo_ondisk e repo_id))).
Proof.
  split; [| split].
  - intros x Hin Hne. destruct (db_ok (e_db e)) eqn:Hok.
    + rewrite emitted_success in * by assumption. now apply head_is_first.
    + rewrite emitted_failure in * by assumption. now apply head_is_first.
  - intros Hok. split; [now apply emitted_failure |].
    now rewrite remove_repo_ondisk_failure.
  - intros Hok. split; [now apply emitted_success |].
    destruct (remove_repo_ondisk_success e repo_id Hok) as [_ Hrepo].
    cbv zeta in Hrepo. rewrite Hrepo. intros Hin.
    apply elem_of_difference in Hin as [_ Hn]. apply Hn. now apply elem_of_singleton.
Qed.

End PurgeFacts.

(** ** The properties on the concrete installation *)

Section Witnesses.
Import CStr Fs Index Ignore Worktree Crypt Commit Db Manager Purge Scenario.
Local Open Scope list_scope.

Lemma no_trailing_space_by_run (path : string) :
  has_trailing_space path = Done false -> ~ spec_trailing_space path.
Proof.
  intros Hrun Hs. destruct path as [|c p]; [discriminate |].
  destruct (has_trailing_space_spec (String c p)) as (b & Hb & Hiff); [discriminate |].
  rewrite Hrun in Hb. injection Hb as <-. apply Hiff in Hs. discriminate.
Qed.

Lemma commit_store_failure_leaves_branch_witness :
  (commit_tree (ids := demo_ids) session_failing repo0 "root" "msg" false ""
   = Done (-1, None, repo0, session_failing)
   /\ exists err repo',
        seaf_repo_index_commit (store := demo_store) (differ := demo_differ)
          (ids := demo_ids) session_failing repo0 "msg" false ""
        = Done (None, err, repo', session_failing)
        /\ repo_head repo' = repo_head repo0)
  /\ exists ret cid repo' s',
       commit_tree (ids := demo_ids) session0 repo0 "root" "msg" false ""
       = Done (ret, cid, repo', s')
       /\ ret = 0 /\ commit_store_ok session0 = true
       /\ exists c, commits s' = c :: commits session0
                    /\ b_commit_id <$> repo_head repo' = Some (commit_id c).
Proof.
  split.
  - apply (commit_store_failure_leaves_branch (store := demo_store)
             (differ := demo_differ) (ids := demo_ids)
             session_failing repo0 "root" "msg" false "").
    reflexivity.
  - do 4 eexists. split; [reflexivity |].
    eapply (commit_store_failure_leaves_branch (store := demo_store)
              (differ := demo_differ) (ids := demo_ids)
              session0 repo0 "root" "msg" false "").
    + reflexivity.
    + left. discriminate.
Defined.

Lemma empty_commit_without_changes_is_noop_witness :
  exists err repo',
    seaf_repo_index_commit (store := demo_store) (differ := demo_differ)
      (ids := demo_ids) session0 repo0 "" false ""
    = Done (None, err, repo', session0)
    /\ repo_head repo' = repo_head repo0.
Proof.
  apply (empty_commit_without_changes_is_noop (store := demo_store)
           (differ := demo_differ) (ids := demo_ids) session0 repo0 "").
  intros istate _. reflexivity.
Defined.

Lemma commit_tree_parents_witness :
  commit_tree (ids := demo_ids) session_nomaster repo0 "root" "msg" true ""
  = Done (-1, None, repo0, session_nomaster)
  /\ (exists cid repo' s',
        commit_tree (ids := demo_ids) session0 repo0 "root" "msg" true ""
        = Done (0, Some cid, repo', s'))
  /\ (forall cid repo' s',
        commit_tree (ids := demo_ids) session0 repo0 "root" "msg" true ""
        = Done (0, cid, repo', s') ->
        exists c,
          commits s' = c :: commits session0
          /\ cid = Some (commit_id c)
          /\ c_parent_id c = Some (b_commit_id local0)).
Proof.
  split; [| split].
  - apply (commit_tree_parents (ids := demo_ids) session_nomaster repo0 local0
             "root" "msg" true "" eq_refl); reflexivity.
  - apply (commit_tree_parents (ids := demo_ids) session0 repo0 local0
             "root" "msg" true "" eq_refl); [reflexivity |].
    intros _. vm_compute. discriminate.
  - intros cid repo' s' Hrun.
    destruct (commit_tree_parents (ids := demo_ids) session0 repo0 local0
                "root" "msg" true "" eq_refl) as (_ & Hbuilt & _).
    destruct (Hbuilt cid repo' s' Hrun) as (c & Hc & Hcid & Hp & _).
    exists c. repeat split; assumption.
Defined.

Lemma verify_passwd_iff_same_derived_key_witness :
  let generated := seaf_repo_generate_magic (crypto := demo_crypto) repo0 "good" in
  (seaf_repo_verify_passwd (crypto := demo_crypto) generated "bad" = 0 <->
   derived_key (crypto := demo_crypto) (id0 +:+ "bad") 1
   = derived_key (crypto := demo_crypto) (id0 +:+ "good") 1)
  /\ (seaf_repo_verify_passwd (crypto := demo_crypto) generated "bad" = 0 <->
      "bad" = "good")
  /\ (seaf_repo_verify_passwd (crypto := demo_crypto) generated "good" = 0 <->
      "good" = "good").
Proof.
  intros generated.
  destruct (verify_passwd_iff_same_derived_key (crypto := demo_crypto)
              repo0 "good" "bad" eq_refl) as [Hkey Hpw].
  destruct (verify_passwd_iff_same_derived_key (crypto := demo_crypto)
              repo0 "good" "good" eq_refl) as [_ Hsame].
  split; [exact Hkey |]. split.
  - apply Hpw. intros Hcollide. vm_compute in Hcollide. discriminate Hcollide.
  - apply Hsame. intros _. reflexivity.
Defined.

Lemma purge_removes_registry_row_first_witness :
  registry_row_first id0 (emitted env0 id0)
  /\ (emitted env_down id0 = [EvSql (DELETE_FROM_Repo id0)]
      /\ e_db (remove_repo_ondisk env_down id0) = e_db env_down
      /\ e_session (remove_repo_ondisk env_down id0) = e_session env_down)
  /\ (emitted env0 id0
      = EvSql (DELETE_FROM_Repo id0)
        :: cleanup_events id0
             (seaf_branch_manager_get_branch_list (e_session env0) id0)
      /\ id0 ∉ Repo (e_db (remove_repo_ondisk env0 id0))).
Proof.
  split; [| split].
  - apply (purge_removes_registry_row_first env0 id0).
  - apply (purge_removes_registry_row_first env_down id0). reflexivity.
  - apply (purge_removes_registry_row_first env0 id0). reflexivity.
Defined.

Lemma add_skips_ignored_entries_and_adds_regular_files_witness :
  (exists d,
     add_dir_entry (store := demo_store) (".DS_Store", FsReg) [] 0 false "/w" ""
       None true
     = Done ([], 0 + d, false) /\ (d = 0 \/ d = 1))
  /\ (exists d,
        add_dir_entry (store := demo_store) ("foo ", FsReg) [] 0 false "/w" ""
          None true
        = Done ([], 0 + d, false) /\ (d = 0 \/ d = 1))
  /\ (let ce := mkCe "bar.txt" (st_mode FsReg) "blocks:/w/bar.txt" 0 in
      (exists e',
         add_dir_entry (store := demo_store) ("bar.txt", FsReg) [] 0 false "/w" ""
           None true
         = Done (add_index_entry ce [], 0 + 1, e'))
      /\ In "bar.txt" (names (add_index_entry ce [])))
  /\ add_recursive (store := demo_store) fs0 [] [] "/w" "foo " None true
     = Done (0, []).
Proof.
  split; [| split; [| split]].
  - apply (add_skips_ignored_entries_and_adds_regular_files (store := demo_store)
             "/w" "" ".DS_Store" FsReg [] 0 false None true); [discriminate |].
    left. left. exists ".DS_Store". split; [simpl; tauto | reflexivity].
  - apply (add_skips_ignored_entries_and_adds_regular_files (store := demo_store)
             "/w" "" "foo " FsReg [] 0 false None true); [discriminate |].
    right. exists "foo". reflexivity.
  - destruct (add_skips_ignored_entries_and_adds_regular_files
                (store := demo_store) "/w" "" "bar.txt" FsReg [] 0 false None true)
      as (_ & Hadd & _); [discriminate |].
    destruct (Hadd ltac:(apply should_ignore_false; reflexivity)
                ltac:(apply no_trailing_space_by_run; reflexivity)
                eq_refl "blocks:/w/bar.txt" eq_refl) as ((e' & Hturn & _) & Hin & _).
    split; [exists e'; exact Hturn | exact Hin].
  - destruct (add_skips_ignored_entries_and_adds_regular_files
                (store := demo_store) "/w" "" "bar.txt" FsReg [] 0 false None true)
      as (_ & _ & Hpath); [discriminate |].
    apply Hpath. exists "foo". reflexivity.
Defined.

(** A counterexample to C7 as it stands.  The path handed to
    [add_recursive] is not looked up in the ignore rules: [Thumbs.db],
    which the glob table names, is inserted into the index when it is the
    path to add.  And a regular file that no rule names is not added,
    neither as the path to add nor as an entry of the directory loop,
    when the block store does not take its blocks. *)
Lemma add_inserts_the_ignored_path_it_is_handed :
  spec_ignored "Thumbs.db"
  /\ g_lstat fs0 (g_build_path "/w" "Thumbs.db") = Some FsReg
  /\ (exists istate',
        add_recursive (store := demo_store) fs0 [] [] "/w" "Thumbs.db" None true
        = Done (0, istate')
        /\ In "Thumbs.db" (names istate'))
  /\ ~ spec_ignored "bar.txt"
  /\ ~ spec_trailing_space "bar.txt"
  /\ g_lstat fs0 (g_build_path "/w" "bar.txt") = Some FsReg
  /\ add_recursive (store := refusing_store) fs0 [] [] "/w" "bar.txt" None true
     = Done (-1, [])
  /\ add_dir_entry (store := refusing_store) ("bar.txt", FsReg) [] 0 false "/w" ""
       None true
     = Done ([], 1, false).
Proof.
  split; [apply should_ignore_spec; reflexivity |].
  split; [reflexivity |].
  split; [eexists; split; [reflexivity | simpl; tauto] |].
  split; [apply should_ignore_false; reflexivity |].
  split; [apply no_trailing_space_by_run; reflexivity |].
  repeat split.
Qed.

Lemma tmp_token_one_shot_witness :
  let mgr1 := snd (seaf_repo_manager_generate_tmp_token mgr0 id0 "peer-1" 0 "token-1") in
  let mgr2 := snd (seaf_repo_manager_verify_tmp_token (engine := demo_engine) true
                     mgr1 (Some id0) (Some "peer-1") (Some "token-1")) in
  SqlText.plain SqlText.tmp_token_room "token-1" = true
  /\ fst (seaf_repo_manager_verify_tmp_token (engine := demo_engine) true mgr1
            (Some id0) (Some "peer-1") (Some "token-1")) = 1
  /\ seaf_repo_manager_verify_tmp_token (engine := demo_engine) true mgr2
       (Some id0) (Some "peer-1") (Some "token-1") = (0, mgr2)
  /\ fst (seaf_repo_manager_verify_tmp_token (engine := demo_engine) false mgr1
            (Some id0) (Some "peer-1") (Some "token-1")) = 1.
Proof.
  intros mgr1 mgr2. split; [reflexivity |]. split; [| split].
  - apply (tmp_token_one_shot (engine := demo_engine) mgr0 id0 "peer-1" "token-1"
             eq_refl) with (now := 0).
    reflexivity.
  - apply (tmp_token_one_shot (engine := demo_engine) mgr1 id0 "peer-1" "token-1"
             eq_refl).
    reflexivity.
  - apply (tmp_token_one_shot (engine := demo_engine) mgr1 id0 "peer-1" "token-1"
             eq_refl) with (timestamp := 0);
      reflexivity.
Defined.

Lemma has_trailing_space_out_of_bounds_on_empty_path_witness :
  seaf_repo_index_worktree_files (store := demo_store) (crypto := demo_crypto)
    session0 id0 "/w" None = Fault
  /\ seaf_repo_index_add (store := demo_store) session0 repo0 "" = Fault
  /\ has_trailing_space_at (skipped_slashes "//") (skip_leading_slashes "//")
     = Done false.
Proof.
  destruct (has_trailing_space_out_of_bounds_on_empty_path
              (store := demo_store) (crypto := demo_crypto))
    as (_ & _ & Hfiles & Hadd & Hslash).
  split; [| split].
  - apply Hfiles. intros _ Hcorrupt. vm_compute in Hcorrupt. discriminate Hcorrupt.
  - apply Hadd; [reflexivity |].
    intros Hcorrupt. vm_compute in Hcorrupt. discriminate Hcorrupt.
  - apply Hslash; [discriminate | reflexivity].
Defined.

(** A counterexample to C9 as it stands: [seaf_repo_index_add] on the
    path [/] hands [add_recursive] the empty path, and no byte outside
    the buffer is read: the walk goes through the worktree and the call
    returns 0, with the two files of the worktree that no rule skips in
    the index it writes. *)
Lemma index_add_of_a_slash_reads_inside_the_buffer :
  skip_leading_slashes "/" = ""
  /\ exists repo' s' istate',
       seaf_repo_index_add (store := demo_store) session0 repo0 "/"
       = Done (0, repo', s')
       /\ read_index_from s' id0 = Some istate'
       /\ names istate' = ["bar.txt"; "notes/a.txt"].
Proof.
  split; [reflexivity |].
  do 3 eexists. split; [reflexivity |]. split; reflexivity.
Qed.

Lemma long_ids_match_no_repo_witness :
  (seaf_repo_manager_get_repo mgr0 long_id = None
   /\ seaf_repo_manager_get_repo_prefix mgr0 long_id = None)
  /\ (String.length id0 <= 36)%nat.
Proof.
  split.
  - apply (long_ids_match_no_repo mgr0 long_id). vm_compute. reflexivity.
  - apply (long_ids_match_no_repo mgr0 id0) with (r := repo0). left. reflexivity.
Defined.

End Witnesses.

(** ** The scenarios of the specification, run on the definitions *)

Section Scenarios.
Import CStr Fs Index Ignore Worktree Crypt Commit Db Manager Purge Scenario.

(** "Ignore rules": of [.DS_Store], [Thumbs.db], [foo ] and [bar.txt] the
    walk of the worktree keeps [bar.txt] (and, below [notes], [a.txt] but
    not [draft.tmp]). *)
Example scenario_ignore_rules :
  map should_ignore [".DS_Store"; "Thumbs.db"; "foo "; "bar.txt"; "draft.tmp"]
  = [true; true; false; false; true]
  /\ has_trailing_space "w/foo " = Done true
  /\ (names <$> (snd <$> match add_recursive (store := demo_store) fs0 [] [] "/"
                                 "w" None true with
                         | Done r => Some r
                         | Fault => None
                         end))
     = Some ["w/bar.txt"; "w/notes/a.txt"].
Proof. vm_compute. repeat split; reflexivity. Qed.

(** "Encrypted repo wrong passphrase": with the magic generated for
    "good", "bad" is refused and "good" accepted. *)
Example scenario_wrong_passphrase :
  let repo := seaf_repo_generate_magic (crypto := demo_crypto) repo0 "good" in
  seaf_repo_verify_passwd (crypto := demo_crypto) repo "bad" = -1
  /\ seaf_repo_verify_passwd (crypto := demo_crypto) repo "good" = 0.
Proof. vm_compute. split; reflexivity. Qed.

(** A commit with a description moves [local] to the new commit, whose
    parent is the old head. *)
Example scenario_commit :
  exists repo' s',
    seaf_repo_index_commit (store := demo_store) (differ := demo_differ)
      (ids := demo_ids) session0 repo0 "msg" false ""
    = Done (Some "commit:root:msg", None, repo', s')
    /\ branches s' !! (id0, "local") = Some "commit:root:msg"
    /\ (c_parent_id <$> head (commits s')) = Some (Some "c0").
Proof. do 2 eexists. vm_compute. repeat split; reflexivity. Qed.

(** The description generated for three added files and a removed
    directory. *)
Example scenario_description :
  status_to_description
    [ mkDiffEntry DIFF_STATUS_ADDED "d/x.txt"; mkDiffEntry DIFF_STATUS_ADDED "y";
      mkDiffEntry DIFF_STATUS_DIR_DELETED "old"; mkDiffEntry DIFF_STATUS_ADDED "z" ]
  = Some ("Added " +:+ dq +:+ "x.txt" +:+ dq +:+ " and 2 more files." +:+ nl
          +:+ "Removed directory " +:+ dq +:+ "old" +:+ dq +:+ "." +:+ nl).
Proof. vm_compute. reflexivity. Qed.

End Scenarios.

(** * Further properties of the repository manager *)

(** ** The registry as a search tree *)

Section RegistryOrder.
Import CStr Db DbMore Manager Registry.
Local Open Scope list_scope.

Lemma compare_repo_refl (a : string) : compare_repo a a = Eq.
Proof.
  unfold compare_repo. pose proof (String.compare_antisym a a) as H.
  destruct (String.compare a a); simpl in H; congruence.
Qed.

Lemma compare_repo_eq (a b : string) : compare_repo a b = Eq -> a = b.
Proof. apply String.compare_eq_iff. Qed.

(** A result 0 of [avl_search_closest] comes with a node of the tree
    that has the key asked for. *)
Lemma avl_search_closest_found t key r :
  avl_search_closest t key = (Some r, 0) ->
  In r (avl_nodes t) /\ repo_id r = key.
Proof.
  induction t as [|l IHl x rr IHr]; simpl; [discriminate |].
  destruct (compare_repo key (repo_id x)) eqn:Hc.
  - intros [= <-]. split; [apply in_elt | symmetry; now apply compare_repo_eq].
  - destruct l; [discriminate |]. intros H. destruct (IHl H) as [Hin Hid].
    split; [apply in_or_app; now left | exact Hid].
  - destruct rr; [discriminate |]. intros H. destruct (IHr H) as [Hin Hid].
    split; [apply in_or_app; right; now right | exact Hid].
Qed.

Lemma avl_search_closest_node t key :
  match fst (avl_search_closest t key) with
  | Some r => In r (avl_nodes t)
  | None => t = AvlLeaf
  end.
Proof.
  induction t as [|l IHl x rr IHr]; simpl; [reflexivity |].
  destruct (compare_repo key (repo_id x)).
  - apply in_elt.
  - destruct l; [apply in_elt |].
    destruct (fst (avl_search_closest (AvlNode l1 item l2) key)); [| discriminate].
    apply in_or_app. now left.
  - destruct rr; [apply in_elt |].
    destruct (fst (avl_search_closest (AvlNode rr1 item rr2) key)); [| discriminate].
    apply in_or_app. right. now right.
Qed.

(** In an ordered tree the search finds every node by its id. *)
Lemma avl_search_closest_complete t r :
  ordered t -> In r (avl_nodes t) ->
  avl_search_closest t (repo_id r) = (Some r, 0).
Proof.
  induction t as [|l IHl x rr IHr]; simpl; [contradiction |].
  intros (Hol & Hor & Hlt & Hgt) Hin.
  apply in_app_or in Hin as [Hin | [-> | Hin]].
  - rewrite List.Forall_forall in Hlt. rewrite (Hlt r Hin).
    destruct l; [contradiction |]. now apply IHl.
  - now rewrite compare_repo_refl.
  - rewrite List.Forall_forall in Hgt. rewrite (Hgt r Hin).
    destruct rr; [contradiction |]. now apply IHr.
Qed.

Lemma avl_search_spec t key r :
  avl_search t key = Some r <-> avl_search_closest t key = (Some r, 0).
Proof.
  unfold avl_search. destruct (avl_search_closest t key) as [node c].
  destruct (Z.eqb_spec c 0) as [->|Hc]; split.
  - now intros ->.
  - now intros [= ->].
  - discriminate.
  - intros [= _ ?]. contradiction.
Qed.

Lemma avl_search_ordered t key r :
  ordered t ->
  (avl_search t key = Some r <-> In r (avl_nodes t) /\ repo_id r = key).
Proof.
  intros Ho. rewrite avl_search_spec. split.
  - apply avl_search_closest_found.
  - intros [Hin <-]. now apply avl_search_closest_complete.
Qed.

Lemma strlen_le_36 (id : string) :
  (strlen id >=? 37) = false <-> (String.length id <= 36)%nat.
Proof.
  unfold strlen. destruct (Z.geb_spec (Z.of_nat (String.length id)) 37); split;
    intros; try discriminate; try reflexivity; lia.
Qed.

Lemma get_repo_finds_exactly_the_visible_repo_iff (mgr : SeafRepoManager)
    (id : string) (r : SeafRepo) :
  ordered (repo_tree mgr) ->
  (seaf_repo_manager_get_repo mgr id = Some r <->
   In r (avl_nodes (repo_tree mgr)) /\ repo_id r = id
   /\ repo_delete_pending r = false /\ (String.length id <= 36)%nat).
Proof.
  intros Ho. unfold seaf_repo_manager_get_repo.
  destruct (strlen id >=? 37) eqn:Hlen.
  - split; [discriminate |]. intros (_ & _ & _ & Hl).
    apply strlen_le_36 in Hl. congruence.
  - apply strlen_le_36 in Hlen.
    destruct (avl_search (repo_tree mgr) id) as [ret|] eqn:Hs.
    + apply (avl_search_ordered _ _ _ Ho) in Hs as [Hin Hid].
      destruct (repo_delete_pending ret) eqn:Hd; simpl; split.
      * discriminate.
      * intros (Hin' & Hid' & Hd' & _).
        assert (avl_search (repo_tree mgr) id = Some r) as Hr
          by (apply avl_search_ordered; auto).
        assert (avl_search (repo_tree mgr) id = Some ret) as Hret
          by (apply avl_search_ordered; auto).
        congruence.
      * intros [= <-]. auto.
      * intros (Hin' & Hid' & Hd' & _).
        assert (avl_search (repo_tree mgr) id = Some r) as Hr
          by (apply avl_search_ordered; auto).
        assert (avl_search (repo_tree mgr) id = Some ret) as Hret
          by (apply avl_search_ordered; auto).
        congruence.
    + split; [discriminate |]. intros (Hin & Hid & _).
      assert (avl_search (repo_tree mgr) id = Some r) as Hr
        by (apply avl_search_ordered; auto).
      congruence.
Qed.


Lemma get_repo_finds_exactly_the_visible_repo_aux (mgr : SeafRepoManager)
    (r : SeafRepo) :
  ordered (repo_tree mgr) ->
  In r (avl_nodes (repo_tree mgr)) ->
  repo_delete_pending r = false ->
  (String.length (repo_id r) <= 36)%nat ->
  seaf_repo_manager_get_repo mgr (repo_id r) = Some r.
Proof.
  intros Ho Hin Hd Hlen. apply get_repo_finds_exactly_the_visible_repo_iff; auto.
Qed.

(** X1. In an ordered registry [seaf_repo_manager_get_repo] returns a
    repository exactly when it is registered under the id asked for, is
    not delete-pending, and the id has at most 36 characters. *)
Theorem get_repo_finds_exactly_the_visible_repo (mgr : SeafRepoManager)
    (id : string) (r : SeafRepo) :
  ordered (repo_tree mgr) ->
  (seaf_repo_manager_get_repo mgr id = Some r <->
   In r (avl_nodes (repo_tree mgr)) /\ repo_id r = id
   /\ repo_delete_pending r = false /\ (String.length id <= 36)%nat).
Proof. apply get_repo_finds_exactly_the_visible_repo_iff. Qed.

End RegistryOrder.

(** ** Registration, tombstones, enumeration *)

Section RegistryLifecycle.
Import CStr Db DbMore Manager Registry.
Local Open Scope list_scope.

Lemma option_ext {A} (o1 o2 : option A) :
  (forall a, o1 = Some a <-> o2 = Some a) -> o1 = o2.
Proof.
  intros H. destruct o1 as [a|], o2 as [b|]; try reflexivity.
  - symmetry. now apply H.
  - symmetry. now apply H.
  - now apply H.
Qed.

Lemma avl_insert_nodes t item y :
  In y (avl_nodes (avl_insert t item)) -> y = item \/ In y (avl_nodes t).
Proof.
  induction t as [|l IHl x rr IHr]; simpl.
  - intros [<-|[]]. now left.
  - destruct (compare_repo (repo_id item) (repo_id x)); simpl; [tauto | |];
      intros H; apply in_app_or in H as [H | [<- | H]].
    + apply IHl in H as [->|H]; [now left | right; apply in_or_app; now left].
    + right. apply in_elt.
    + right. apply in_or_app. right. now right.
    + right. apply in_or_app. now left.
    + right. apply in_elt.
    + apply IHr in H as [->|H]; [now left | right; apply in_or_app; right; now right].
Qed.

Lemma avl_insert_keeps t item y :
  In y (avl_nodes t) -> In y (avl_nodes (avl_insert t item)).
Proof.
  induction t as [|l IHl x rr IHr]; simpl; [contradiction |].
  destruct (compare_repo (repo_id item) (repo_id x)); simpl; [tauto | |];
    intros H; apply in_app_or in H as [H | [<- | H]]; apply in_or_app; simpl; auto.
Qed.

Lemma avl_insert_fresh t item :
  (forall x, In x (avl_nodes t) -> repo_id x <> repo_id item) ->
  In item (avl_nodes (avl_insert t item)).
Proof.
  induction t as [|l IHl x rr IHr]; simpl; intros Hfresh; [now left |].
  destruct (compare_repo (repo_id item) (repo_id x)) eqn:Hc; simpl.
  - apply compare_repo_eq in Hc. exfalso. apply (Hfresh x); [apply in_elt | congruence].
  - apply in_or_app. left. apply IHl. intros y Hy. apply Hfresh.
    apply in_or_app. now left.
  - apply in_or_app. right. right. apply IHr. intros y Hy. apply Hfresh.
    apply in_or_app. right. now right.
Qed.

Lemma avl_insert_ordered t item : ordered t -> ordered (avl_insert t item).
Proof.
  induction t as [|l IHl x rr IHr]; simpl.
  - intros _. repeat split; constructor.
  - intros (Hol & Hor & Hlt & Hgt).
    destruct (compare_repo (repo_id item) (repo_id x)) eqn:Hc; simpl.
    + auto.
    + repeat split; auto. apply List.Forall_forall. intros y Hy.
      apply avl_insert_nodes in Hy as [->|Hy]; [exact Hc |].
      rewrite List.Forall_forall in Hlt. auto.
    + repeat split; auto. apply List.Forall_forall. intros y Hy.
      apply avl_insert_nodes in Hy as [->|Hy]; [exact Hc |].
      rewrite List.Forall_forall in Hgt. auto.
Qed.

(** An id that is registered already: the tree is left as it is. *)
Lemma avl_insert_duplicate t item x :
  ordered t -> In x (avl_nodes t) -> repo_id x = repo_id item ->
  avl_insert t item = t.
Proof.
  induction t as [|l IHl y rr IHr]; simpl; [contradiction |].
  intros (Hol & Hor & Hlt & Hgt) Hin Hid.
  rewrite List.Forall_forall in Hlt, Hgt.
  destruct (compare_repo (repo_id item) (repo_id y)) eqn:Hc; [reflexivity | |];
    apply in_app_or in Hin as [Hin | [-> | Hin]].
  - f_equal. now apply IHl.
  - rewrite Hid, compare_repo_refl in Hc. discriminate.
  - specialize (Hgt x Hin). rewrite Hid in Hgt. congruence.
  - specialize (Hlt x Hin). rewrite Hid in Hlt. congruence.
  - rewrite Hid, compare_repo_refl in Hc. discriminate.
  - f_equal. now apply IHr.
Qed.

(** X2. Registering a repository under an id the ordered registry does
    not hold: the call returns 0, the registry stays ordered, the
    repository is found by [seaf_repo_manager_get_repo] under its id (if
    it has at most 36 characters and the repository is not
    delete-pending), every other id gives the answer it gave before, and
    a working store has the id in its [Repo] table. *)
Theorem add_repo_then_get_repo (mgr : SeafRepoManager) (repo : SeafRepo) :
  ordered (repo_tree mgr) ->
  (forall x, In x (avl_nodes (repo_tree mgr)) -> repo_id x <> repo_id repo) ->
  let mgr' := snd (seaf_repo_manager_add_repo mgr repo) in
  fst (seaf_repo_manager_add_repo mgr repo) = 0
  /\ ordered (repo_tree mgr')
  /\ ((String.length (repo_id repo) <= 36)%nat ->
      repo_delete_pending repo = false ->
      seaf_repo_manager_get_repo mgr' (repo_id repo) = Some repo)
  /\ (forall id, id <> repo_id repo ->
        seaf_repo_manager_get_repo mgr' id = seaf_repo_manager_get_repo mgr id)
  /\ (db_ok (db mgr) = true -> repo_id repo ∈ Repo (db mgr')).
Proof.
  intros Ho Hfresh mgr'.
  assert (Ho' : ordered (repo_tree mgr')) by now apply avl_insert_ordered.
  split; [reflexivity |]. split; [exact Ho' |]. split; [| split].
  - intros Hlen Hd. apply get_repo_finds_exactly_the_visible_repo_aux; auto.
    now apply avl_insert_fresh.
  - intros id Hid. apply option_ext. intros r.
    rewrite !get_repo_finds_exactly_the_visible_repo_iff by assumption.
    simpl. split; intros (Hin & Hr & Hrest); repeat split; try tauto.
    + apply avl_insert_nodes in Hin as [->|Hin]; [congruence | assumption].
    + now apply avl_insert_keeps.
  - intros Hok. unfold mgr', seaf_repo_manager_add_repo, sqlite_query_exec_more.
    simpl. rewrite Hok. simpl.
    destruct (bool_decide (repo_id repo ∈ Repo (db mgr))) eqn:Hin; simpl.
    + now apply bool_decide_eq_true in Hin.
    + apply elem_of_union. left. now apply elem_of_singleton.
Qed.

(** X3. Registering a repository under an id the ordered registry holds
    already returns 0 all the same, and the registry is as it was: the
    repository registered first stays, the new one is not inserted; a
    store that has the id in its [Repo] table is left as it was too. *)
Theorem add_repo_twice_keeps_the_first (mgr : SeafRepoManager)
    (repo x : SeafRepo) :
  ordered (repo_tree mgr) ->
  In x (avl_nodes (repo_tree mgr)) ->
  repo_id x = repo_id repo ->
  fst (seaf_repo_manager_add_repo mgr repo) = 0
  /\ repo_tree (snd (seaf_repo_manager_add_repo mgr repo)) = repo_tree mgr
  /\ (repo_id repo ∈ Repo (db mgr) ->
      snd (seaf_repo_manager_add_repo mgr repo) = mgr).
Proof.
  intros Ho Hin Hid. unfold seaf_repo_manager_add_repo. simpl.
  rewrite (avl_insert_duplicate _ _ _ Ho Hin Hid).
  repeat split. intros Hrow. unfold sqlite_query_exec_more.
  destruct mgr as [t d]. simpl in *. f_equal.
  destruct (db_ok d); [| reflexivity]. simpl.
  now rewrite bool_decide_eq_true_2.
Qed.

Lemma avl_update_leaf f id t : avl_update f id t = AvlLeaf <-> t = AvlLeaf.
Proof. destruct t; simpl; split; congruence. Qed.

(** A store through a repository pointer that keeps the id does not
    change where the search goes. *)
Lemma avl_search_closest_update f id t key :
  (forall x, repo_id (f x) = repo_id x) ->
  avl_search_closest (avl_update f id t) key
  = (option_map (fun x => if String.eqb (repo_id x) id then f x else x)
       (fst (avl_search_closest t key)),
     snd (avl_search_closest t key)).
Proof.
  intros Hf. induction t as [|l IHl x rr IHr]; simpl; [reflexivity |].
  assert (Hid : repo_id (if String.eqb (repo_id x) id then f x else x) = repo_id x)
    by (destruct (String.eqb (repo_id x) id); auto).
  rewrite Hid. destruct (compare_repo key (repo_id x)); simpl.
  - reflexivity.
  - destruct l; simpl; [reflexivity |]. exact IHl.
  - destruct rr; simpl; [reflexivity |]. exact IHr.
Qed.

Lemma avl_search_update f id t key :
  (forall x, repo_id (f x) = repo_id x) ->
  avl_search (avl_update f id t) key
  = option_map (fun x => if String.eqb (repo_id x) id then f x else x)
      (avl_search t key).
Proof.
  intros Hf. unfold avl_search. rewrite avl_search_closest_update by assumption.
  destruct (avl_search_closest t key) as [node c]. simpl.
  now destruct (c =? 0).
Qed.

Lemma avl_search_id t key r : avl_search t key = Some r -> repo_id r = key.
Proof. intros H. apply avl_search_spec in H. now apply avl_search_closest_found in H. Qed.

Lemma avl_update_ids f id t :
  (forall x, repo_id (f x) = repo_id x) ->
  map repo_id (avl_nodes (avl_update f id t)) = map repo_id (avl_nodes t).
Proof.
  intros Hf. induction t as [|l IHl x rr IHr]; simpl; [reflexivity |].
  rewrite !map_app. simpl. rewrite IHl, IHr. do 2 f_equal.
  destruct (String.eqb (repo_id x) id); auto.
Qed.

(** X4. A call of [seaf_repo_manager_mark_repo_deleted] that returns 0
    hides that repository and no other: [seaf_repo_manager_get_repo]
    returns NULL for its id and answers as before for every other id; the
    repository stays in the registry; the tombstone is in the store, so
    that marking the repository once more returns -1 and changes
    nothing. *)
Theorem mark_repo_deleted_hides_only_that_repo (mgr : SeafRepoManager)
    (id : string) :
  fst (seaf_repo_manager_mark_repo_deleted mgr id) = 0 ->
  let mgr' := snd (seaf_repo_manager_mark_repo_deleted mgr id) in
  seaf_repo_manager_get_repo mgr' id = None
  /\ (forall id', id' <> id ->
        seaf_repo_manager_get_repo mgr' id' = seaf_repo_manager_get_repo mgr id')
  /\ map repo_id (avl_nodes (repo_tree mgr'))
     = map repo_id (avl_nodes (repo_tree mgr))
  /\ id ∈ DeletedRepo (db mgr')
  /\ seaf_repo_manager_mark_repo_deleted mgr' id = (-1, mgr').
Proof.
  unfold seaf_repo_manager_mark_repo_deleted, sqlite_query_exec.
  destruct (db_ok (db mgr)) eqn:Hok; simpl; [| discriminate].
  destruct (bool_decide (id ∈ DeletedRepo (db mgr))) eqn:Hrow; simpl;
    [discriminate |].
  intros _. split; [| split; [| split; [| split]]].
  - unfold seaf_repo_manager_get_repo. simpl.
    destruct (strlen id >=? 37); [reflexivity |].
    rewrite avl_search_update by reflexivity.
    destruct (avl_search (repo_tree mgr) id) as [ret|] eqn:Hs; [| reflexivity].
    apply avl_search_id in Hs. simpl. rewrite Hs, String.eqb_refl. reflexivity.
  - intros id' Hne. unfold seaf_repo_manager_get_repo. simpl.
    destruct (strlen id' >=? 37); [reflexivity |].
    rewrite avl_search_update by reflexivity.
    destruct (avl_search (repo_tree mgr) id') as [ret|] eqn:Hs; [| reflexivity].
    apply avl_search_id in Hs. simpl.
    destruct (String.eqb_spec (repo_id ret) id); [congruence | reflexivity].
  - simpl. now apply avl_update_ids.
  - simpl. apply elem_of_union. left. now apply elem_of_singleton.
  - rewrite Hok. simpl.
    rewrite bool_decide_eq_true_2; [reflexivity |].
    apply elem_of_union. left. now apply elem_of_singleton.
Qed.

Lemma get_repo_list_fold_rev (l acc : list SeafRepo) :
  fold_left (fun repo_list repo =>
               if negb (repo_delete_pending repo) then repo :: repo_list
               else repo_list) l acc
  = rev (List.filter (fun repo => negb (repo_delete_pending repo)) l) ++ acc.
Proof.
  revert acc. induction l as [|x l IH]; intros acc; simpl; [reflexivity |].
  rewrite IH. destruct (negb (repo_delete_pending x)); simpl; [| reflexivity].
  now rewrite <- app_assoc.
Qed.

(** X5. [seaf_repo_manager_get_repo_list] returns all the repositories of
    the registry that are not delete-pending, last node of the tree first,
    whatever [start] and [limit] are. *)
Theorem get_repo_list_is_the_reversed_visible_nodes (mgr : SeafRepoManager)
    (start limit : Z) :
  seaf_repo_manager_get_repo_list mgr start limit
  = rev (List.filter (fun repo => negb (repo_delete_pending repo))
           (avl_nodes (repo_tree mgr))).
Proof.
  unfold seaf_repo_manager_get_repo_list. rewrite get_repo_list_fold_rev.
  apply app_nil_r.
Qed.

Lemma strncmp_eq_list_prefix (a b : list ascii) :
  strncmp_eq_list a b (length a) = true <-> exists rest, b = a ++ rest.
Proof.
  revert b. induction a as [|c a IH]; intros b; simpl.
  - split; [intros _; now exists b | reflexivity].
  - destruct b as [|d b].
    + split; [discriminate | intros (rest & Hr); discriminate].
    + rewrite andb_true_iff, Ascii.eqb_eq, IH. split.
      * intros (-> & rest & ->). now exists rest.
      * intros (rest & [= -> ->]). split; [reflexivity | now exists rest].
Qed.

Lemma strncmp_eq_prefix (id full : string) :
  strncmp_eq id full (String.length id) = true <-> is_prefix id full.
Proof.
  unfold strncmp_eq, is_prefix. rewrite <- length_chars, strncmp_eq_list_prefix.
  split.
  - intros (rest & Hr). exists (string_of_list_ascii rest).
    apply chars_inj. rewrite chars_append, Hr. f_equal.
    unfold chars. now rewrite list_ascii_of_string_of_list_ascii.
  - intros (rest & ->). exists (chars rest). apply chars_append.
Qed.

(** X6. A repository returned by [seaf_repo_manager_get_repo_prefix] is a
    node of the registry whose id begins with the string asked for, and
    that string has at most 36 characters. *)
Theorem get_repo_prefix_returns_a_repo_with_the_prefix (mgr : SeafRepoManager)
    (id : string) (r : SeafRepo) :
  seaf_repo_manager_get_repo_prefix mgr id = Some r ->
  In r (avl_nodes (repo_tree mgr)) /\ is_prefix id (repo_id r)
  /\ (String.length id <= 36)%nat.
Proof.
  unfold seaf_repo_manager_get_repo_prefix.
  destruct (strlen id >=? 37) eqn:Hlen; [discriminate |].
  apply strlen_le_36 in Hlen.
  pose proof (avl_search_closest_node (repo_tree mgr) id) as Hnode.
  destruct (fst (avl_search_closest (repo_tree mgr) id)) as [result|];
    [| discriminate].
  unfold strlen. rewrite Nat2Z.id.
  destruct (strncmp_eq id (repo_id result) (String.length id)) eqn:Hp;
    [| discriminate].
  intros [= <-]. repeat split; try assumption. now apply strncmp_eq_prefix.
Qed.

End RegistryLifecycle.

(** ** LAN tokens *)

Section LanTokenFacts.
Import CStr Db DbMore SqlText Manager Registry Persist.
Local Open Scope list_scope.
Context {defaults : Defaults} {engine : SqlEngine}.

Lemma chars_string_of_list (l : list ascii) : chars (string_of_list_ascii l) = l.
Proof. apply list_ascii_of_string_of_list_ascii. Qed.

(** A string is the beginning of another when its bytes are the first
    bytes of the other. *)
Lemma is_prefix_take (token reference : string) :
  is_prefix token reference <->
  (String.length token <= String.length reference)%nat
  /\ take (String.length token) (chars reference) = chars token.
Proof.
  split.
  - intros [rest ->]. rewrite length_append, chars_append, <- length_chars.
    split; [lia | apply take_app_length].
  - intros [_ Htake]. exists (string_of_list_ascii (drop (String.length token)
                                                      (chars reference))).
    apply chars_inj. rewrite chars_append, chars_string_of_list, <- Htake at 1.
    symmetry. apply take_drop.
Qed.

(** [memcmp] over the length of the token, on the buffers of the
    reference and of the token: the call stays inside the buffer of the
    reference when the token has at most one byte more than the
    reference, and then tells whether the token is the beginning of the
    reference; a longer token makes it read past the reference. *)
Lemma memcmp_eq_buffer (reference token : string) :
  ~ In NUL (chars token) ->
  ((String.length token <= String.length reference + 1)%nat ->
   exists b,
     memcmp_eq (buffer reference) (buffer token) (String.length token) = Done b
     /\ (b = true <-> is_prefix token reference))
  /\ ((String.length reference + 1 < String.length token)%nat ->
      memcmp_eq (buffer reference) (buffer token) (String.length token) = Fault).
Proof.
  intros Hnul. unfold memcmp_eq, buffer.
  rewrite !length_app, !length_chars. cbn [length]. split.
  - intros Hlen.
    rewrite (proj2 (Nat.leb_le _ _) Hlen).
    rewrite (proj2 (Nat.leb_le (String.length token) (String.length token + 1)))
      by lia.
    cbn [andb]. eexists. split; [reflexivity |].
    rewrite bool_decide_eq_true, is_prefix_take.
    rewrite <- (length_chars token) at 2. rewrite take_app_length.
    split.
    + intros Htake.
      destruct (Nat.le_gt_cases (String.length token) (String.length reference))
        as [Hle|Hgt].
      * split; [assumption |].
        now rewrite take_app_le in Htake by (rewrite length_chars; lia).
      * exfalso. apply Hnul. rewrite <- Htake.
        rewrite take_ge by (rewrite length_app, length_chars; cbn [length]; lia).
        apply in_or_app. right. now left.
    + intros [Hle Htake].
      now rewrite take_app_le by (rewrite length_chars; lia).
  - intros Hlen.
    now rewrite (proj2 (Nat.leb_gt _ _) Hlen).
Qed.

Lemma verify_repo_lantoken_unfold mgr repo_id token :
  seaf_repo_manager_verify_repo_lantoken mgr repo_id (Some token)
  = (eq <-! memcmp_eq
              (buffer (default DEFAULT_REPO_TOKEN
                         (seaf_repo_manager_get_repo_lantoken mgr repo_id)))
              (buffer token) (String.length token);
     if eq then Done 1 else Done 0).
Proof.
  unfold seaf_repo_manager_verify_repo_lantoken.
  now destruct (seaf_repo_manager_get_repo_lantoken mgr repo_id).
Qed.

(** X7. [seaf_repo_manager_verify_repo_lantoken] compares as many bytes
    as the token has with the reference token: the stored token of the
    repository, or [DEFAULT_REPO_TOKEN] when none is stored or the store
    fails.  For a token without NUL byte that has at most one byte more
    than the reference the call stays inside the two buffers and returns
    1 exactly when the token is the beginning of the reference, 0
    otherwise; for a longer token [memcmp] is handed more bytes than the
    buffer of the reference holds.  The empty token is always accepted; a
    NULL token is refused. *)
Theorem verify_repo_lantoken_accepts_prefixes (mgr : SeafRepoManager)
    (repo_id token : string) :
  ~ In NUL (chars token) ->
  let reference :=
    default DEFAULT_REPO_TOKEN (seaf_repo_manager_get_repo_lantoken mgr repo_id) in
  ((String.length token <= String.length reference + 1)%nat ->
   (seaf_repo_manager_verify_repo_lantoken mgr repo_id (Some token) = Done 1
    \/ seaf_repo_manager_verify_repo_lantoken mgr repo_id (Some token) = Done 0)
   /\ (seaf_repo_manager_verify_repo_lantoken mgr repo_id (Some token) = Done 1
       <-> is_prefix token reference))
  /\ ((String.length reference + 1 < String.length token)%nat ->
      seaf_repo_manager_verify_repo_lantoken mgr repo_id (Some token) = Fault)
  /\ seaf_repo_manager_verify_repo_lantoken mgr repo_id (Some "") = Done 1
  /\ seaf_repo_manager_verify_repo_lantoken mgr repo_id None = Done 0.
Proof.
  intros Hnul reference.
  destruct (memcmp_eq_buffer reference token Hnul) as [Hin Hout].
  split; [| split; [| split]].
  - intros Hlen. destruct (Hin Hlen) as (b & Hb & Hiff).
    rewrite verify_repo_lantoken_unfold. fold reference. rewrite Hb. cbn [obind].
    destruct b.
    + split; [now left |]. split; [intros _; now apply Hiff | reflexivity].
    + split; [now right |]. split; [discriminate |].
      intros H. apply Hiff in H. discriminate.
  - intros Hlen. rewrite verify_repo_lantoken_unfold. fold reference.
    now rewrite (Hout Hlen).
  - rewrite verify_repo_lantoken_unfold. reflexivity.
  - reflexivity.
Qed.

(** X8. For a token that holds no quote and leaves the text of the
    REPLACE inside its buffer: with a working store,
    [seaf_repo_manager_set_repo_lantoken] returns 0, after which
    [seaf_repo_manager_get_repo_lantoken] returns the token for that
    repository and what it returned before for any other; with a failing
    store the call returns -1 and changes nothing.  With a failing store
    no token is ever returned, so that verification falls back on
    [DEFAULT_REPO_TOKEN]. *)
Theorem set_repo_lantoken_then_get (mgr : SeafRepoManager)
    (repo_id token : string) :
  plain lantoken_room token = true ->
  (db_ok (db mgr) = true ->
   let mgr' := snd (seaf_repo_manager_set_repo_lantoken mgr repo_id token) in
   fst (seaf_repo_manager_set_repo_lantoken mgr repo_id token) = 0
   /\ seaf_repo_manager_get_repo_lantoken mgr' repo_id = Some token
   /\ (forall id, id <> repo_id ->
         seaf_repo_manager_get_repo_lantoken mgr' id
         = seaf_repo_manager_get_repo_lantoken mgr id))
  /\ (db_ok (db mgr) = false ->
      seaf_repo_manager_set_repo_lantoken mgr repo_id token = (-1, mgr)
      /\ forall id, seaf_repo_manager_get_repo_lantoken mgr id = None).
Proof.
  intros Hplain.
  unfold seaf_repo_manager_set_repo_lantoken, seaf_repo_manager_get_repo_lantoken,
    sqlite_query_exec_more.
  rewrite Hplain.
  split; intros Hok; rewrite Hok; simpl; rewrite ?Hok.
  - repeat split.
    + apply lookup_insert_eq.
    + intros id Hne. now apply lookup_insert_ne.
  - split; reflexivity.
Qed.

End LanTokenFacts.

(** ** Merge flag *)

Section MergeFlagFacts.
Import CStr Db DbMore Manager Persist.

(** X9. With a working store: after [seaf_repo_manager_set_merge] the
    merge information of the repository says "in merge", after
    [seaf_repo_manager_clear_merge] it says "not in merge", and the
    information of every other repository is what it was; a repository
    without a row is "not in merge" and clearing it adds no row.  With a
    failing store [seaf_repo_manager_get_merge_info] returns -1 and "not
    in merge". *)
Theorem merge_flag_set_then_clear (mgr : SeafRepoManager) (id branch : string) :
  (db_ok (db mgr) = true ->
   let m1 := snd (seaf_repo_manager_set_merge mgr id branch) in
   let m2 := snd (seaf_repo_manager_clear_merge m1 id) in
   fst (seaf_repo_manager_set_merge mgr id branch) = 0
   /\ seaf_repo_manager_get_merge_info m1 id = (0, true)
   /\ fst (seaf_repo_manager_clear_merge m1 id) = 0
   /\ seaf_repo_manager_get_merge_info m2 id = (0, false)
   /\ (forall id', id' <> id ->
         seaf_repo_manager_get_merge_info m2 id'
         = seaf_repo_manager_get_merge_info mgr id')
   /\ (MergeInfo (db mgr) !! id = None ->
       seaf_repo_manager_get_merge_info mgr id = (0, false)
       /\ MergeInfo (db (snd (seaf_repo_manager_clear_merge mgr id)))
          = MergeInfo (db mgr)))
  /\ (db_ok (db mgr) = false ->
      seaf_repo_manager_get_merge_info mgr id = (-1, false)
      /\ fst (seaf_repo_manager_set_merge mgr id branch) = -1).
Proof.
  unfold seaf_repo_manager_set_merge, seaf_repo_manager_clear_merge,
    seaf_repo_manager_get_merge_info, sqlite_query_exec_more.
  split; intros Hok; rewrite Hok; simpl; rewrite ?Hok; simpl.
  - repeat (first [rewrite Hok | rewrite lookup_insert_eq]; simpl).
    do 4 (split; [reflexivity |]). split.
    + intros id' Hne. now rewrite !lookup_insert_ne by congruence.
    + intros Hnone. now rewrite Hnone.
  - split; reflexivity.
Qed.

End MergeFlagFacts.

(** ** Properties of a repository *)

Section PropertyFacts.
Import CStr Db DbMore SqlText Manager Persist.
Local Open Scope list_scope.
Context {engine : SqlEngine}.

(** For a key that holds no quote and leaves the text of the SELECT
    inside its buffer [load_repo_property] runs the statement meant. *)
Lemma load_repo_property_plain mgr repo_id key :
  plain property_key_room key = true ->
  load_repo_property mgr repo_id key
  = if db_ok (db mgr) then select_property (RepoProperty (db mgr)) repo_id key
    else None.
Proof. intros Hplain. unfold load_repo_property. now rewrite Hplain. Qed.

Lemma select_property_eq rows repo_id key :
  select_property rows repo_id key
  = match rows with
    | [] => None
    | row :: rows' =>
        if row_matches repo_id key row then Some row.2
        else select_property rows' repo_id key
    end.
Proof. destruct rows as [|[[r k] v] rows]; reflexivity. Qed.

Lemma select_property_none rows repo_id key :
  select_property rows repo_id key = None <->
  List.filter (row_matches repo_id key) rows = [].
Proof.
  induction rows as [|row rows IH]; [tauto |].
  rewrite select_property_eq. simpl.
  destruct (row_matches repo_id key row); [split; discriminate | exact IH].
Qed.

Lemma row_matches_other repo_id key id' key' row :
  (id', key') <> (repo_id, key) ->
  row_matches repo_id key row = true -> row_matches id' key' row = false.
Proof.
  unfold row_matches. intros Hne H.
  apply andb_true_iff in H as [H1 H2].
  apply String.eqb_eq in H1, H2.
  destruct (String.eqb_spec row.1.1 id'); [| reflexivity].
  destruct (String.eqb_spec row.1.2 key'); [| reflexivity].
  exfalso. apply Hne. congruence.
Qed.

(** The row the UPDATE writes for a row of the table. *)
Lemma update_row_matches value repo_id key id' key' row :
  row_matches id' key'
    (if String.eqb row.1.1 repo_id && String.eqb row.1.2 key
     then (row.1.1, row.1.2, value) else row)
  = row_matches id' key' row.
Proof. now destruct (String.eqb row.1.1 repo_id && String.eqb row.1.2 key). Qed.

Lemma select_property_update_same value repo_id key rows :
  select_property rows repo_id key <> None ->
  select_property
    (map (fun row => if String.eqb row.1.1 repo_id && String.eqb row.1.2 key
                     then (row.1.1, row.1.2, value) else row) rows)
    repo_id key = Some value.
Proof.
  induction rows as [|row rows IH]; [intros H; now contradiction H |].
  rewrite select_property_eq. intros H.
  cbn [map]. rewrite select_property_eq, update_row_matches.
  destruct (row_matches repo_id key row) eqn:Hm.
  - unfold row_matches in Hm. now rewrite Hm.
  - now apply IH.
Qed.

Lemma select_property_update_other value repo_id key id' key' rows :
  (id', key') <> (repo_id, key) ->
  select_property
    (map (fun row => if String.eqb row.1.1 repo_id && String.eqb row.1.2 key
                     then (row.1.1, row.1.2, value) else row) rows)
    id' key' = select_property rows id' key'.
Proof.
  intros Hne. induction rows as [|row rows IH]; [reflexivity |].
  cbn [map]. rewrite select_property_eq, (select_property_eq (row :: rows)).
  rewrite update_row_matches.
  destruct (row_matches id' key' row) eqn:Hm; [| exact IH].
  destruct (String.eqb row.1.1 repo_id && String.eqb row.1.2 key) eqn:Hu;
    [| reflexivity].
  pose proof (row_matches_other repo_id key id' key' row Hne Hu). congruence.
Qed.

Lemma filter_update_length value repo_id key id' key' rows :
  length (List.filter (row_matches id' key')
            (map (fun row => if String.eqb row.1.1 repo_id && String.eqb row.1.2 key
                             then (row.1.1, row.1.2, value) else row) rows))
  = length (List.filter (row_matches id' key') rows).
Proof.
  induction rows as [|row rows IH]; [reflexivity |].
  cbn [map List.filter]. rewrite update_row_matches.
  destruct (row_matches id' key' row); simpl; now rewrite IH.
Qed.

Lemma select_property_app rows row id' key' :
  select_property (rows ++ [row]) id' key'
  = match select_property rows id' key' with
    | Some v => Some v
    | None => if row_matches id' key' row then Some row.2 else None
    end.
Proof.
  induction rows as [|r rows IH].
  - cbn [app]. rewrite select_property_eq, (select_property_eq []).
    now destruct (row_matches id' key' row).
  - cbn [app]. rewrite select_property_eq, (select_property_eq (r :: rows)).
    destruct (row_matches id' key' r); [reflexivity | exact IH].
Qed.

(** What [save_repo_property] does with a working store. *)
Lemma save_repo_property_effect mgr repo_id key value :
  db_ok (db mgr) = true ->
  let mgr' := save_repo_property mgr repo_id key value in
  db_ok (db mgr') = true
  /\ repo_tree mgr' = repo_tree mgr
  /\ (plain property_key_room key = true ->
      load_repo_property mgr' repo_id key = Some value)
  /\ (forall id' key',
        plain property_key_room key' = true ->
        (id', key') <> (repo_id, key) ->
        load_repo_property mgr' id' key' = load_repo_property mgr id' key')
  /\ length (property_rows mgr' repo_id key)
     = Nat.max 1 (length (property_rows mgr repo_id key)).
Proof.
  intros Hok. unfold save_repo_property, property_rows, sqlite_query_exec_more.
  rewrite Hok. cbn [andb run_more snd].
  destruct (select_property (RepoProperty (db mgr)) repo_id key) as [v|] eqn:Hsel.
  - rewrite bool_decide_eq_true_2 by eauto. cbn [db db_ok set_RepoProperty RepoProperty].
    split; [assumption |]. split; [reflexivity |]. split; [| split].
    + intros Hplain. rewrite load_repo_property_plain by assumption.
      cbn [db db_ok set_RepoProperty RepoProperty]. rewrite Hok.
      apply select_property_update_same. congruence.
    + intros id' key' Hplain Hne. rewrite !load_repo_property_plain by assumption.
      cbn [db db_ok set_RepoProperty RepoProperty]. rewrite Hok.
      now apply select_property_update_other.
    + rewrite filter_update_length.
      assert (List.filter (row_matches repo_id key) (RepoProperty (db mgr)) <> [])
        by (intros H; apply select_property_none in H; congruence).
      destruct (List.filter (row_matches repo_id key) (RepoProperty (db mgr)));
        [contradiction | simpl; lia].
  - rewrite bool_decide_eq_false_2 by (intros [? ?]; discriminate).
    cbn [db db_ok set_RepoProperty RepoProperty].
    split; [assumption |]. split; [reflexivity |]. split; [| split].
    + intros Hplain. rewrite load_repo_property_plain by assumption.
      cbn [db db_ok set_RepoProperty RepoProperty]. rewrite Hok.
      rewrite select_property_app, Hsel. unfold row_matches. simpl.
      now rewrite !String.eqb_refl.
    + intros id' key' Hplain Hne. rewrite !load_repo_property_plain by assumption.
      cbn [db db_ok set_RepoProperty RepoProperty]. rewrite Hok.
      rewrite select_property_app.
      destruct (select_property (RepoProperty (db mgr)) id' key'); [reflexivity |].
      assert (row_matches id' key' (repo_id, key, value) = false) as ->; [| reflexivity].
      apply (row_matches_other repo_id key); [assumption |].
      unfold row_matches. simpl. now rewrite !String.eqb_refl.
    + rewrite List.filter_app. apply select_property_none in Hsel. rewrite Hsel.
      simpl. unfold row_matches. simpl. now rewrite !String.eqb_refl.
Qed.

(** X10. [save_repo_property] quotes what it pastes, [load_repo_property]
    does not.  With a working store, after [save_repo_property] the table
    holds one row for the property if it held none, as many as before
    otherwise, whatever the key is; the property loads with the value
    saved when its key holds no quote and leaves the text of the SELECT
    inside its buffer, and every other property with such a key, of every
    repository, loads as before.  With a failing store nothing is saved
    and no property with such a key loads. *)
Theorem save_then_load_repo_property (mgr : SeafRepoManager)
    (repo_id key value : string) :
  (db_ok (db mgr) = true ->
   let mgr' := save_repo_property mgr repo_id key value in
   length (property_rows mgr' repo_id key)
   = Nat.max 1 (length (property_rows mgr repo_id key))
   /\ (plain property_key_room key = true ->
       seaf_repo_manager_get_repo_property mgr' repo_id key = Some value)
   /\ (forall id' key',
         plain property_key_room key' = true ->
         (id', key') <> (repo_id, key) ->
         seaf_repo_manager_get_repo_property mgr' id' key'
         = seaf_repo_manager_get_repo_property mgr id' key'))
  /\ (db_ok (db mgr) = false ->
      save_repo_property mgr repo_id key value = mgr
      /\ forall id' key',
           plain property_key_room key' = true ->
           seaf_repo_manager_get_repo_property mgr id' key' = None).
Proof.
  split.
  - intros Hok. destruct (save_repo_property_effect mgr repo_id key value Hok)
      as (_ & _ & Hload & Hother & Hrows).
    repeat split; assumption.
  - intros Hok. split.
    + unfold save_repo_property, sqlite_query_exec_more.
      rewrite Hok. simpl. now destruct mgr.
    + intros id' key' Hplain. unfold seaf_repo_manager_get_repo_property.
      rewrite load_repo_property_plain by assumption. now rewrite Hok.
Qed.

(** X11. With a working store, the relay address and port saved by
    [seaf_repo_manager_set_repo_relay_info] are the ones
    [seaf_repo_manager_get_repo_relay_info] returns for that repository. *)
Theorem set_then_get_repo_relay_info (mgr : SeafRepoManager)
    (repo_id relay_addr relay_port : string) :
  db_ok (db mgr) = true ->
  fst (seaf_repo_manager_set_repo_relay_info mgr repo_id relay_addr relay_port) = 0
  /\ seaf_repo_manager_get_repo_relay_info
       (snd (seaf_repo_manager_set_repo_relay_info mgr repo_id relay_addr relay_port))
       repo_id
     = (Some relay_addr, Some relay_port).
Proof.
  intros Hok. split; [reflexivity |].
  unfold seaf_repo_manager_set_repo_relay_info, seaf_repo_manager_get_repo_relay_info.
  cbn [snd].
  destruct (save_repo_property_effect mgr repo_id REPO_PROP_RELAY_ADDR relay_addr Hok)
    as (Hok1 & _ & Haddr & _ & _). cbv zeta in *.
  destruct (save_repo_property_effect
              (save_repo_property mgr repo_id REPO_PROP_RELAY_ADDR relay_addr)
              repo_id REPO_PROP_RELAY_PORT relay_port Hok1)
    as (_ & _ & Hport & Hother & _). cbv zeta in *.
  rewrite Hport, Hother, Haddr; [reflexivity | | | | ]; try reflexivity.
  discriminate.
Qed.

End PropertyFacts.

(** ** Stores through a repository pointer *)

Section PointerStores.
Import CStr Db DbMore SqlText Manager Registry Persist Worktree.
Local Open Scope list_scope.
Context {engine : SqlEngine}.

(** A store through a pointer into the registry that keeps the id and the
    tombstone flag is seen by [seaf_repo_manager_get_repo] on the node
    stored to, and on no other. *)
Lemma get_repo_update f id mgr d' id' :
  (forall x, repo_id (f x) = repo_id x) ->
  (forall x, repo_delete_pending (f x) = repo_delete_pending x) ->
  seaf_repo_manager_get_repo (mkMgr (avl_update f id (repo_tree mgr)) d') id'
  = option_map (fun x => if String.eqb (repo_id x) id then f x else x)
      (seaf_repo_manager_get_repo mgr id').
Proof.
  intros Hid Hdel. unfold seaf_repo_manager_get_repo. cbn [repo_tree].
  destruct (strlen id' >=? 37); [reflexivity |].
  rewrite avl_search_update by assumption.
  destruct (avl_search (repo_tree mgr) id') as [ret|]; [| reflexivity].
  cbn [option_map].
  assert (Hd : repo_delete_pending
                 (if String.eqb (repo_id ret) id then f ret else ret)
               = repo_delete_pending ret)
    by (destruct (String.eqb (repo_id ret) id); auto).
  rewrite Hd. now destruct (repo_delete_pending ret).
Qed.

Lemma get_repo_id mgr id r :
  seaf_repo_manager_get_repo mgr id = Some r -> repo_id r = id.
Proof.
  unfold seaf_repo_manager_get_repo. destruct (strlen id >=? 37); [discriminate |].
  destruct (avl_search (repo_tree mgr) id) as [ret|] eqn:Hs; [| discriminate].
  destruct (negb (repo_delete_pending ret)); [| discriminate].
  intros [= <-]. now apply avl_search_id in Hs.
Qed.

Lemma save_repo_property_tree mgr repo_id key value :
  repo_tree (save_repo_property mgr repo_id key value) = repo_tree mgr.
Proof. unfold save_repo_property. now destruct (_ && _). Qed.

Lemma get_repo_same_tree mgr mgr' id :
  repo_tree mgr' = repo_tree mgr ->
  seaf_repo_manager_get_repo mgr' id = seaf_repo_manager_get_repo mgr id.
Proof. unfold seaf_repo_manager_get_repo. now intros ->. Qed.

(** X12. [seaf_repo_manager_set_repo_email] on a repository that
    [seaf_repo_manager_get_repo] finds: afterwards the lookup returns
    that repository with the new email and nothing else changed, every
    other id gives the repository it gave before, and with a working
    store the [email] property of the repository is the new email; with a
    failing store the email is in the registry only. *)
Theorem set_repo_email_in_registry_and_store (mgr : SeafRepoManager)
    (id email : string) (r : SeafRepo) :
  seaf_repo_manager_get_repo mgr id = Some r ->
  let mgr' := snd (seaf_repo_manager_set_repo_email mgr id email) in
  fst (seaf_repo_manager_set_repo_email mgr id email) = 0
  /\ seaf_repo_manager_get_repo mgr' id = Some (set_email (Some email) r)
  /\ (forall id', id' <> id ->
        seaf_repo_manager_get_repo mgr' id' = seaf_repo_manager_get_repo mgr id')
  /\ (db_ok (db mgr) = true ->
      seaf_repo_manager_get_repo_property mgr' id REPO_PROP_EMAIL = Some email)
  /\ (db_ok (db mgr) = false ->
      db mgr' = db mgr
      /\ seaf_repo_manager_get_repo_property mgr' id REPO_PROP_EMAIL = None).
Proof.
  intros Hget mgr'. split; [reflexivity |].
  assert (Hlook : forall id',
            seaf_repo_manager_get_repo mgr' id'
            = option_map (fun x => if String.eqb (repo_id x) id
                                   then set_email (Some email) x else x)
                (seaf_repo_manager_get_repo mgr id')).
  { intros id'. unfold mgr', seaf_repo_manager_set_repo_email. cbn [snd].
    rewrite (get_repo_same_tree _ _ _ (save_repo_property_tree _ _ _ _)).
    now apply get_repo_update. }
  split; [| split; [| split]].
  - rewrite Hlook, Hget. cbn [option_map].
    now rewrite (get_repo_id _ _ _ Hget), String.eqb_refl.
  - intros id' Hne. rewrite Hlook.
    destruct (seaf_repo_manager_get_repo mgr id') as [x|] eqn:Hx; [| reflexivity].
    cbn [option_map]. apply get_repo_id in Hx.
    destruct (String.eqb_spec (repo_id x) id); [congruence | reflexivity].
  - intros Hok. unfold mgr', seaf_repo_manager_set_repo_email. cbn [snd].
    match goal with
    | |- seaf_repo_manager_get_repo_property (save_repo_property ?m _ _ _) _ _ = _ =>
        destruct (save_repo_property_effect m id REPO_PROP_EMAIL email Hok)
          as (_ & _ & Hload & _)
    end.
    apply Hload. reflexivity.
  - intros Hok. unfold mgr', seaf_repo_manager_set_repo_email,
      seaf_repo_manager_get_repo_property.
    rewrite load_repo_property_plain by reflexivity.
    unfold save_repo_property, sqlite_query_exec_more.
    cbn [snd db]. rewrite Hok. cbn [andb snd db]. now rewrite Hok.
Qed.

Lemma append_empty_r (s : string) : s +:+ "" = s.
Proof.
  induction s as [|c s IH]; [reflexivity |].
  change (String c (s +:+ "") = String c s). now rewrite IH.
Qed.

Lemma substring_all (s : string) : String.substring 0 (String.length s) s = s.
Proof. induction s as [|c s IH]; simpl; [reflexivity | now rewrite IH]. Qed.

Lemma length_substring_le (n : nat) (s : string) :
  (String.length (String.substring 0 n s) <= n)%nat.
Proof.
  revert n. induction s as [|c s IH]; intros [|n]; simpl; try lia.
  specialize (IH n). lia.
Qed.

Lemma substring_ge (n : nat) (s : string) :
  (String.length s <= n)%nat -> String.substring 0 n s = s.
Proof.
  revert n. induction s as [|c s IH]; intros [|n]; simpl; try reflexivity; try lia.
  intros H. now rewrite IH by lia.
Qed.

Lemma length_substring_ge (n : nat) (s : string) :
  (n <= String.length s)%nat -> String.length (String.substring 0 n s) = n.
Proof.
  revert n. induction s as [|c s IH]; intros [|n]; simpl; try reflexivity; try lia.
  intros H. now rewrite IH by lia.
Qed.

(** [seaf_repo_new] stays inside the buffer of the id it is given exactly
    when the id has 35 characters or more. *)
Lemma seaf_repo_new_defined id name desc :
  defined (seaf_repo_new id name desc) <-> (35 <= String.length id)%nat.
Proof.
  unfold seaf_repo_new, defined.
  destruct (Nat.ltb_spec (String.length id) 35); split.
  - intros [r Hr]. discriminate.
  - lia.
  - lia.
  - intros _. now eexists.
Qed.

(** X13. [seaf_repo_new] copies 36 bytes of the id it is given: it
    stays inside the buffer of the id exactly when the id has 35
    characters or more, and the repository it then returns has an id of
    at most 36 characters.  [seaf_repo_manager_create_new_repo] with a
    uuid of 36 characters that the ordered registry does not hold
    returns a repository that carries that id, is found under it by
    [seaf_repo_manager_get_repo], and starts without head and with its
    worktree invalid, so that [check_worktree_common] refuses it and
    leaves it as it is. *)
Theorem create_new_repo_is_registered_without_head (mgr : SeafRepoManager)
    (name desc uuid : string) (s : SeafileSession) :
  ordered (repo_tree mgr) ->
  String.length uuid = 36%nat ->
  (forall x, In x (avl_nodes (repo_tree mgr)) -> repo_id x <> uuid) ->
  (exists repo mgr',
     seaf_repo_manager_create_new_repo mgr name desc uuid = Done (repo, mgr')
     /\ repo_id repo = uuid
     /\ ordered (repo_tree mgr')
     /\ seaf_repo_manager_get_repo mgr' uuid = Some repo
     /\ repo_head repo = None
     /\ repo_worktree_invalid repo = true
     /\ check_worktree_common s repo = (false, repo))
  /\ (forall name' desc' uuid',
        (defined (seaf_repo_new uuid' name' desc')
         <-> (35 <= String.length uuid')%nat)
        /\ forall r, seaf_repo_new uuid' name' desc' = Done r ->
                     (String.length (repo_id r) <= 36)%nat).
Proof.
  intros Ho Hlen Hfresh. split.
  - unfold seaf_repo_manager_create_new_repo, seaf_repo_new.
    rewrite Hlen. cbn [Nat.ltb Nat.leb obind].
    rewrite substring_ge by lia.
    set (repo := mkRepo uuid name desc false 0 "" "" "" None None None true true
                   false false).
    do 2 eexists. split; [reflexivity |]. split; [reflexivity |].
    cbn [snd seaf_repo_manager_add_repo repo_tree].
    split; [| split; [| split; [| split]]].
    + now apply avl_insert_ordered.
    + change (seaf_repo_manager_get_repo
                (mkMgr (avl_insert (repo_tree mgr) repo)
                   (snd (sqlite_query_exec_more (db mgr)
                           (INSERT_INTO_Repo (repo_id repo)))))
                (repo_id repo) = Some repo).
      apply get_repo_finds_exactly_the_visible_repo_aux.
      * now apply avl_insert_ordered.
      * apply (avl_insert_fresh (repo_tree mgr) repo). intros x Hx.
        now apply Hfresh.
      * reflexivity.
      * cbn [repo repo_id]. lia.
    + reflexivity.
    + reflexivity.
    + reflexivity.
  - intros name' desc' uuid'. split; [apply seaf_repo_new_defined |].
    intros r. unfold seaf_repo_new.
    destruct (String.length uuid' <? 35)%nat; [discriminate |].
    intros [= <-]. apply length_substring_le.
Qed.

(** The key [seaf_repo_manager_repo_exists] searches with for an id of
    37 characters or more is in no registry whose ids have at most 36. *)
Lemma avl_search_long_key t id :
  (37 <= String.length id)%nat ->
  Forall (fun r => (String.length (repo_id r) <= 36)%nat) (avl_nodes t) ->
  avl_search t (String.substring 0 37 id) = None.
Proof.
  intros Hlen Hall.
  destruct (avl_search t (String.substring 0 37 id)) as [r|] eqn:Hs; [| reflexivity].
  exfalso. apply avl_search_spec in Hs. apply avl_search_closest_found in Hs as [Hin Hid].
  rewrite List.Forall_forall in Hall. specialize (Hall r Hin).
  rewrite Hid, length_substring_ge in Hall by assumption. lia.
Qed.

(** X14. [seaf_repo_manager_repo_exists] and
    [seaf_repo_manager_repo_exists_prefix] copy 37 bytes of the id they
    are given.  On an id of less than 36 characters that is a read past
    the buffer of the id.  On an id of 36 characters
    [seaf_repo_manager_repo_exists] answers as
    [seaf_repo_manager_get_repo] does, while
    [seaf_repo_manager_repo_exists_prefix] only tells whether the
    registry holds any repository at all.  On a longer id, in a registry
    whose ids have at most 36 characters, nothing is read outside a
    buffer: [seaf_repo_manager_repo_exists] answers FALSE, as
    [seaf_repo_manager_get_repo] returns NULL, and
    [seaf_repo_manager_repo_exists_prefix] again tells whether the
    registry holds any repository. *)
Theorem repo_exists_agrees_with_get_repo (mgr : SeafRepoManager) (id : string) :
  ((String.length id < 36)%nat ->
   seaf_repo_manager_repo_exists mgr id = Fault
   /\ seaf_repo_manager_repo_exists_prefix mgr id = Fault)
  /\ (String.length id = 36%nat ->
      seaf_repo_manager_repo_exists mgr id
      = Done (bool_decide (is_Some (seaf_repo_manager_get_repo mgr id)))
      /\ seaf_repo_manager_repo_exists_prefix mgr id
         = Done (bool_decide (avl_nodes (repo_tree mgr) <> [])))
  /\ ((37 <= String.length id)%nat ->
      Forall (fun r => (String.length (repo_id r) <= 36)%nat)
        (avl_nodes (repo_tree mgr)) ->
      seaf_repo_manager_repo_exists mgr id = Done false
      /\ seaf_repo_manager_repo_exists_prefix mgr id
         = Done (bool_decide (avl_nodes (repo_tree mgr) <> []))
      /\ seaf_repo_manager_get_repo mgr id = None).
Proof.
  assert (Hprefix : forall key,
            match fst (avl_search_closest (repo_tree mgr) key) with
            | Some _ => Done true
            | None => Done false
            end = Done (bool_decide (avl_nodes (repo_tree mgr) <> []))).
  { intros key.
    pose proof (avl_search_closest_node (repo_tree mgr) key) as Hnode.
    destruct (fst (avl_search_closest (repo_tree mgr) key)) as [x|].
    - rewrite bool_decide_eq_true_2; [reflexivity |].
      intros Hnil. rewrite Hnil in Hnode. contradiction.
    - now rewrite Hnode. }
  unfold seaf_repo_manager_repo_exists, seaf_repo_manager_repo_exists_prefix,
    seaf_repo_manager_get_repo, memcpy_id_37, strlen.
  split; [| split].
  - intros Hlen.
    destruct (Z.ltb_spec (Z.of_nat (String.length id)) 36); [| lia].
    split; reflexivity.
  - intros Hlen.
    destruct (Z.ltb_spec (Z.of_nat (String.length id)) 36); [lia |].
    destruct (Z.geb_spec (Z.of_nat (String.length id)) 37); [lia |].
    rewrite substring_ge by lia. cbn [obind]. split; [| apply Hprefix].
    destruct (avl_search (repo_tree mgr) id) as [ret|]; [| reflexivity].
    now destruct (repo_delete_pending ret).
  - intros Hlen Hall.
    destruct (Z.ltb_spec (Z.of_nat (String.length id)) 36); [lia |].
    destruct (Z.geb_spec (Z.of_nat (String.length id)) 37); [| lia].
    cbn [obind]. rewrite (avl_search_long_key _ _ Hlen Hall).
    split; [reflexivity |]. split; [apply Hprefix | reflexivity].
Qed.

(** X15. In an ordered registry [seaf_repo_manager_get_repo_prefix],
    given the whole id of a registered repository, returns that
    repository, be it delete-pending or not. *)
Theorem get_repo_prefix_finds_whole_ids (mgr : SeafRepoManager) (r : SeafRepo) :
  ordered (repo_tree mgr) ->
  In r (avl_nodes (repo_tree mgr)) ->
  (String.length (repo_id r) <= 36)%nat ->
  seaf_repo_manager_get_repo_prefix mgr (repo_id r) = Some r.
Proof.
  intros Ho Hin Hlen. unfold seaf_repo_manager_get_repo_prefix.
  apply strlen_le_36 in Hlen. rewrite Hlen.
  rewrite (avl_search_closest_complete _ _ Ho Hin). cbn [fst].
  unfold strlen. rewrite Nat2Z.id.
  assert (strncmp_eq (repo_id r) (repo_id r) (String.length (repo_id r)) = true)
    as ->; [| reflexivity].
  apply strncmp_eq_prefix. exists "". symmetry. apply append_empty_r.
Qed.

End PointerStores.

(** ** Prefix lookup, head branch, commit metadata *)

Section HeadFacts.
Import CStr Db DbMore Manager Registry Persist Head Commit ScenarioMore.
Local Open Scope list_scope.

(** X16. [seaf_repo_manager_get_repo_prefix] can return NULL for the
    beginning of the id of a registered, visible repository: the search
    stops at the node next to where the prefix would be inserted, which
    need not be the node that carries the prefix.  Here the registry holds
    two repositories, registered through [seaf_repo_manager_add_repo]. *)
Theorem get_repo_prefix_can_miss_a_registered_repo :
  exists (mgr : SeafRepoManager) (r : SeafRepo) (id : string),
    ordered (repo_tree mgr)
    /\ seaf_repo_manager_get_repo mgr (repo_id r) = Some r
    /\ is_prefix id (repo_id r)
    /\ seaf_repo_manager_get_repo_prefix mgr id = None.
Proof.
  exists mgr_ba, repo_b, "b". split; [| split; [| split]].
  - simpl. repeat split; repeat constructor.
  - reflexivity.
  - now exists "bbbbbbb-bbbb-bbbb-bbbb-bbbbbbbbbbbb".
  - reflexivity.
Qed.

(** X17. [seaf_repo_set_head] never fails: it returns 0 and binds the
    head to the branch whatever the store does.  With a working store the
    [RepoBranch] row of the branch's repository names the branch, the rows
    of the other repositories are as before; with a failing store the
    store is as it was, so that the head in memory and the row in the
    store disagree. *)
Theorem set_head_never_fails (mgr : SeafRepoManager) (repo : SeafRepo)
    (branch : SeafBranch) :
  let ret := fst (fst (seaf_repo_set_head mgr repo branch)) in
  let repo' := snd (fst (seaf_repo_set_head mgr repo branch)) in
  let mgr' := snd (seaf_repo_set_head mgr repo branch) in
  ret = 0
  /\ repo' = set_head (Some branch) repo
  /\ repo_tree mgr' = repo_tree mgr
  /\ (db_ok (db mgr) = true ->
      load_branch mgr' (b_repo_id branch) = Some (b_name branch)
      /\ forall id', id' <> b_repo_id branch ->
           load_branch mgr' id' = load_branch mgr id')
  /\ (db_ok (db mgr) = false ->
      mgr' = mgr /\ load_branch mgr' (b_repo_id branch) = None).
Proof.
  unfold seaf_repo_set_head, save_branch_repo_map, load_branch,
    sqlite_query_exec_more.
  cbn. do 3 (split; [reflexivity |]).
  split; intros Hok; rewrite Hok; cbn; rewrite ?Hok.
  - split; [apply lookup_insert_eq |].
    intros id' Hne. now apply lookup_insert_ne.
  - split; [now destruct mgr | reflexivity].
Qed.

Lemma set_commit_fields_same (r : SeafRepo) :
  set_commit_fields (repo_name r) (repo_desc r) (repo_encrypted r)
    (repo_enc_version r) (repo_magic r) (repo_no_local_history r) r = r.
Proof. now destruct r. Qed.

(** What [seaf_repo_from_commit] makes of a commit filled in by
    [seaf_repo_to_commit]. *)
Lemma from_commit_of_to_commit (src dst : SeafRepo) (c : SeafCommit) :
  seaf_repo_from_commit dst (seaf_repo_to_commit src c)
  = if repo_encrypted src && (repo_enc_version src >=? 1)
       && negb (String.length (repo_magic src) =? 32)%nat
    then Fault
    else Done (set_commit_fields (repo_name src) (repo_desc src)
                 (repo_encrypted src)
                 (if repo_encrypted src then repo_enc_version src
                  else repo_enc_version dst)
                 (if repo_encrypted src && (repo_enc_version src >=? 1)
                  then repo_magic src else repo_magic dst)
                 (repo_no_local_history src) dst).
Proof.
  unfold seaf_repo_from_commit, seaf_repo_to_commit. cbn.
  destruct (repo_encrypted src); cbn; [| reflexivity].
  destruct (repo_enc_version src >=? 1); cbn; [| reflexivity].
  now destruct (String.length (repo_magic src) =? 32)%nat.
Qed.

(** X18. The metadata [seaf_repo_to_commit] writes into a commit is what
    [seaf_repo_from_commit] reads back: name, description, encryption
    flag, history flag, the encryption version of an encrypted
    repository and the magic of one encrypted at version 1 or more; read
    back into the repository it came from, the repository is as it was.
    Reading back is defined exactly when the repository is not encrypted
    at version 1 or more, or its magic has 32 characters. *)
Theorem to_commit_then_from_commit (src dst : SeafRepo) (c : SeafCommit) :
  (defined (seaf_repo_from_commit dst (seaf_repo_to_commit src c)) <->
   (repo_encrypted src = true -> repo_enc_version src >= 1 ->
    String.length (repo_magic src) = 32%nat))
  /\ (forall dst',
        seaf_repo_from_commit dst (seaf_repo_to_commit src c) = Done dst' ->
        repo_name dst' = repo_name src
        /\ repo_desc dst' = repo_desc src
        /\ repo_encrypted dst' = repo_encrypted src
        /\ repo_no_local_history dst' = repo_no_local_history src
        /\ (repo_encrypted src = true -> repo_enc_version dst' = repo_enc_version src)
        /\ (repo_encrypted src = true -> repo_enc_version src >= 1 ->
            repo_magic dst' = repo_magic src)
        /\ repo_id dst' = repo_id dst
        /\ repo_head dst' = repo_head dst
        /\ repo_worktree dst' = repo_worktree dst
        /\ repo_email dst' = repo_email dst)
  /\ (forall src',
        seaf_repo_from_commit src (seaf_repo_to_commit src c) = Done src' ->
        src' = src).
Proof.
  rewrite !from_commit_of_to_commit.
  destruct (repo_encrypted src) eqn:He; cbn [andb].
  - destruct (Z.geb_spec (repo_enc_version src) 1) as [Hv|Hv]; cbn [andb negb].
    + destruct (Nat.eqb_spec (String.length (repo_magic src)) 32) as [Hm|Hm];
        cbn [negb]; split; [| split | | split].
      * split; [auto | intros _; now eexists].
      * intros dst' [= <-]. cbn. repeat split; auto.
      * intros src' [= <-]. rewrite <- He. apply set_commit_fields_same.
      * split; [intros [a Ha]; discriminate | intros H].
        exfalso. apply Hm, H; [reflexivity | lia].
      * discriminate.
      * discriminate.
    + split; [| split].
      * split; [intros _ _ Hge; lia | intros _; now eexists].
      * intros dst' [= <-]. cbn. repeat split; auto. intros _ Hge. lia.
      * intros src' [= <-]. rewrite <- He. apply set_commit_fields_same.
  - split; [| split].
    + split; [discriminate | intros _; now eexists].
    + intros dst' [= <-]. cbn. repeat split; auto; discriminate.
    + intros src' [= <-]. rewrite <- He. apply set_commit_fields_same.
Qed.

End HeadFacts.

(** ** Temporary tokens, again *)

Section MoreTokenFacts.
Import CStr Db SqlText Manager.
Context {engine : SqlEngine}.

Lemma generate_tmp_token_result mgr repo_id peer_id now uuid :
  seaf_repo_manager_generate_tmp_token mgr repo_id peer_id now uuid
  = if db_ok (db mgr)
    then (Some uuid,
          mkMgr (repo_tree mgr)
            (mkDb true (Repo (db mgr)) (DeletedRepo (db mgr)) (RepoBranch (db mgr))
               (RepoLanToken (db mgr))
               (<[(repo_id, peer_id) := (uuid, now)]> (RepoTmpToken (db mgr)))
               (RepoPasswd (db mgr)) (RepoKeys (db mgr)) (RepoProperty (db mgr))
               (MergeInfo (db mgr))))
    else (None, mgr).
Proof.
  unfold seaf_repo_manager_generate_tmp_token, sqlite_query_exec.
  destruct (db_ok (db mgr)) eqn:Hok; cbn; [| reflexivity]. now rewrite Hok.
Qed.

(** The two results of a verification, whatever the token is. *)
Lemma verify_tmp_token_cases delete_runs mgr r p t :
  seaf_repo_manager_verify_tmp_token delete_runs mgr (Some r) (Some p) (Some t)
  = (0, mgr)
  \/ seaf_repo_manager_verify_tmp_token delete_runs mgr (Some r) (Some p) (Some t)
     = (1, mkMgr (repo_tree mgr)
             (if delete_runs
              then snd (sqlite_query_exec (db mgr) (DELETE_FROM_RepoTmpToken r p))
              else db mgr)).
Proof.
  unfold seaf_repo_manager_verify_tmp_token.
  destruct (if plain tmp_token_room t then _ else _); [now right | now left].
Qed.

(** The DELETE of a pair leaves the rows of the other pairs alone. *)
Lemma tmp_token_row_other d r p r' p' t' :
  (r', p') <> (r, p) ->
  tmp_token_row_exists (snd (sqlite_query_exec d (DELETE_FROM_RepoTmpToken r p)))
    r' p' t'
  = tmp_token_row_exists d r' p' t'.
Proof.
  intros Hne. unfold tmp_token_row_exists, sqlite_query_exec.
  destruct (db_ok d) eqn:Hok; cbn; rewrite Hok; [| reflexivity].
  now rewrite lookup_delete_ne by congruence.
Qed.

(** X19. Temporary tokens are kept one per (repository, peer) pair:
    generating a second token for a pair revokes the first, which then
    fails to verify without consuming the second (the tokens are the
    strings [gen_uuid] returns: they hold no quote and leave the text of
    the SELECT inside its buffer); a verification that fails leaves the
    manager as it was; a verification that succeeds removes the row of
    its own pair at most; and a NULL argument is refused without touching
    the store.  All of this whether the store executes the DELETE or
    not, and the last three whatever the token is. *)
Theorem tmp_token_one_per_pair (mgr : SeafRepoManager)
    (repo_id peer_id : string) (delete_runs : bool) :
  (forall now1 now2 t1 t2 m1 m2,
     plain tmp_token_room t1 = true ->
     plain tmp_token_room t2 = true ->
     seaf_repo_manager_generate_tmp_token mgr repo_id peer_id now1 t1
     = (Some t1, m1) ->
     seaf_repo_manager_generate_tmp_token m1 repo_id peer_id now2 t2
     = (Some t2, m2) ->
     t1 <> t2 ->
     seaf_repo_manager_verify_tmp_token delete_runs m2 (Some repo_id)
       (Some peer_id) (Some t1)
     = (0, m2)
     /\ fst (seaf_repo_manager_verify_tmp_token delete_runs m2 (Some repo_id)
               (Some peer_id) (Some t2)) = 1)
  /\ (forall r p t mgr',
        seaf_repo_manager_verify_tmp_token delete_runs mgr r p t = (0, mgr') ->
        mgr' = mgr)
  /\ (forall token mgr' repo_id' peer_id' token',
        seaf_repo_manager_verify_tmp_token delete_runs mgr (Some repo_id)
          (Some peer_id) (Some token) = (1, mgr') ->
        (repo_id', peer_id') <> (repo_id, peer_id) ->
        tmp_token_row_exists (db mgr') repo_id' peer_id' token'
        = tmp_token_row_exists (db mgr) repo_id' peer_id' token')
  /\ (forall r p t,
        r = None \/ p = None \/ t = None ->
        seaf_repo_manager_verify_tmp_token delete_runs mgr r p t = (0, mgr)).
Proof.
  split; [| split; [| split]].
  - intros now1 now2 t1 t2 m1 m2 Hp1 Hp2. rewrite !generate_tmp_token_result.
    destruct (db_ok (db mgr)) eqn:Hok; [| discriminate]. intros [= <-].
    cbn [db db_ok repo_tree]. intros [= <-] Hne.
    rewrite !verify_tmp_token_result by assumption.
    unfold tmp_token_row_exists. cbn. rewrite lookup_insert_eq.
    rewrite String.eqb_refl.
    destruct (String.eqb_spec t2 t1); [congruence |]. split; reflexivity.
  - intros [r|] [p|] [t|] mgr'; cbn; try (now intros [= <-]).
    fold (seaf_repo_manager_verify_tmp_token delete_runs mgr (Some r) (Some p)
            (Some t)).
    destruct (verify_tmp_token_cases delete_runs mgr r p t) as [-> | ->];
      [now intros [= <-] | discriminate].
  - intros token mgr' repo_id' peer_id' token'.
    destruct (verify_tmp_token_cases delete_runs mgr repo_id peer_id token)
      as [-> | ->]; [discriminate |].
    intros [= <-] Hne. cbn [db].
    destruct delete_runs; [now apply tmp_token_row_other | reflexivity].
  - intros r p t [-> | [-> | ->]]; [reflexivity | now destruct r |].
    now destruct r, p.
Qed.

End MoreTokenFacts.

(** ** Commit descriptions *)

Section DescriptionFacts.
Import CStr Commit Describe.
Local Open Scope list_scope.

Lemma slash_not_NUL : "/"%char <> NUL.
Proof. discriminate. Qed.

Lemma strrchr_from_none (l : list ascii) (c : ascii) (off : nat)
    (found : option nat) :
  c <> NUL -> ~ In c l -> strrchr_from l c off found = found.
Proof.
  intros Hc. revert off found. induction l as [|d l IH]; intros off found Hin; simpl.
  - destruct (Ascii.eqb_spec c NUL); [contradiction | reflexivity].
  - destruct (Ascii.eqb_spec d c) as [->|Hd]; [exfalso; apply Hin; now left |].
    apply IH. intros H. apply Hin. now right.
Qed.

Lemma strrchr_from_last (l1 l2 : list ascii) (c : ascii) (off : nat)
    (found : option nat) :
  c <> NUL -> ~ In c l2 ->
  strrchr_from (l1 ++ c :: l2) c off found = Some (off + length l1)%nat.
Proof.
  intros Hc Hin. revert off found.
  induction l1 as [|d l1 IH]; intros off found; simpl.
  - rewrite Ascii.eqb_refl, strrchr_from_none by assumption. f_equal. lia.
  - rewrite IH. f_equal. lia.
Qed.

Lemma substring_skip (a b : string) (m : nat) :
  String.substring (String.length a) m (a +:+ b) = String.substring 0 m b.
Proof.
  induction a as [|c a IH]; [reflexivity |].
  change (String.substring (String.length a) m (a +:+ b) = String.substring 0 m b).
  exact IH.
Qed.

(** A path is free of [/], or made of a directory part, a [/] and a
    last component free of [/]. *)
Lemma last_component (l : list ascii) (c : ascii) :
  ~ In c l \/ exists l1 l2, l = l1 ++ c :: l2 /\ ~ In c l2.
Proof.
  induction l as [|d l IH]; [left; intros [] |].
  destruct IH as [Hno | (l1 & l2 & -> & Hno)].
  - destruct (Ascii.eqb_spec d c) as [->|Hd].
    + right. exists [], l. split; [reflexivity | assumption].
    + left. intros [H|H]; [congruence | contradiction].
  - right. exists (d :: l1), l2. split; [reflexivity | assumption].
Qed.

Lemma get_basename_plain (path : string) :
  ~ In "/"%char (chars path) -> get_basename path = path.
Proof.
  intros Hno. unfold get_basename, strrchr.
  now rewrite (strrchr_from_none _ _ _ _ slash_not_NUL Hno).
Qed.

Lemma get_basename_last (dir base : string) :
  ~ In "/"%char (chars base) -> get_basename (dir +:+ "/" +:+ base) = base.
Proof.
  intros Hno. unfold get_basename, strrchr.
  rewrite chars_append.
  change (chars ("/" +:+ base)) with ("/"%char :: chars base).
  rewrite (strrchr_from_last _ _ _ _ _ slash_not_NUL Hno), length_chars.
  unfold drop_chars. rewrite length_append. cbn [Nat.add].
  change ("/" +:+ base) with (String "/" base).
  replace (String.length dir + String.length (String "/" base) - S (String.length dir))%nat
    with (String.length base) by (simpl; lia).
  replace (dir +:+ String "/" base) with ((dir +:+ "/") +:+ base).
  - replace (S (String.length dir)) with (String.length (dir +:+ "/"))
      by (rewrite length_append; simpl; lia).
    rewrite substring_skip. apply substring_all.
  - apply chars_inj. rewrite !chars_append, <- app_assoc. reflexivity.
Qed.

(** X20. [get_basename] returns the part of the path after its last
    [/], the whole path when it has none: the result is free of [/] and
    the path ends with it. *)
Theorem get_basename_is_the_last_component (path : string) :
  (~ In "/"%char (chars path) -> get_basename path = path)
  /\ (forall dir base,
        path = dir +:+ "/" +:+ base -> ~ In "/"%char (chars base) ->
        get_basename path = base)
  /\ ~ In "/"%char (chars (get_basename path))
  /\ exists dir, path = dir +:+ get_basename path.
Proof.
  split; [apply get_basename_plain |]. split.
  - intros dir base -> Hno. now apply get_basename_last.
  - destruct (last_component (chars path) "/"%char) as [Hno | (l1 & l2 & Hl & Hno)].
    + rewrite (get_basename_plain _ Hno). split; [assumption | now exists ""].
    + assert (Hp : path = string_of_list_ascii l1 +:+ "/" +:+ string_of_list_ascii l2).
      { apply chars_inj. rewrite chars_append.
        change (chars ("/" +:+ string_of_list_ascii l2))
          with ("/"%char :: chars (string_of_list_ascii l2)).
        unfold chars. now rewrite !list_ascii_of_string_of_list_ascii. }
      assert (Hno' : ~ In "/"%char (chars (string_of_list_ascii l2)))
        by (unfold chars; now rewrite list_ascii_of_string_of_list_ascii).
      assert (Hb : get_basename path = string_of_list_ascii l2)
        by (rewrite Hp; now apply get_basename_last).
      rewrite Hb. split; [assumption |].
      exists (string_of_list_ascii l1 +:+ "/").
      rewrite Hp at 1. apply chars_inj. now rewrite !chars_append, <- app_assoc.
Qed.

Lemma count_entry_counter (st : diff_status) (c : counts) (de : DiffEntry) :
  counter st (count_entry c de)
  = counter st c
    + (if diff_status_eqb (de_status de) st
       then (if diff_status_eqb st DIFF_STATUS_UNMERGED then 0 else 1) else 0).
Proof.
  unfold count_entry. destruct st, (de_status de); cbn; lia.
Qed.

Lemma count_entry_kept_name (st : diff_status) (c : counts) (de : DiffEntry) :
  kept_name st (count_entry c de)
  = if diff_status_eqb (de_status de) st
       && negb (diff_status_eqb st DIFF_STATUS_UNMERGED)
    then first_name (counter st c) (kept_name st c) de
    else kept_name st c.
Proof.
  unfold count_entry. destruct st, (de_status de); reflexivity.
Qed.

(** The counters and names after the loop of [status_to_description]. *)
Lemma fold_count_entry (st : diff_status) (results : list DiffEntry) (c : counts) :
  st <> DIFF_STATUS_UNMERGED ->
  0 <= counter st c ->
  counter st (fold_left count_entry results c) = counter st c + n_with st results
  /\ kept_name st (fold_left count_entry results c)
     = if counter st c =? 0
       then match with_status st results with
            | [] => kept_name st c
            | de :: _ => get_basename (de_name de)
            end
       else kept_name st c.
Proof.
  intros Hst. revert c.
  assert (Hu : diff_status_eqb st DIFF_STATUS_UNMERGED = false)
    by (destruct st; try reflexivity; contradiction).
  induction results as [|de results IH]; intros c Hc.
  - unfold n_with, with_status. cbn. split; [lia | now destruct (counter st c =? 0)].
  - cbn [fold_left].
    assert (Hc' : 0 <= counter st (count_entry c de))
      by (rewrite count_entry_counter, Hu;
          destruct (diff_status_eqb (de_status de) st); lia).
    destruct (IH _ Hc') as [IHn IHf]. rewrite IHn, IHf.
    rewrite count_entry_counter, count_entry_kept_name, Hu.
    unfold n_with, with_status. cbn [List.filter andb negb].
    destruct (diff_status_eqb (de_status de) st) eqn:Hde; cbn [andb length].
    + split; [lia |].
      destruct (Z.eqb_spec (counter st c + 1) 0) as [|_]; [lia |].
      unfold first_name. now destruct (counter st c =? 0).
    + split; [lia |]. now rewrite Z.add_0_r.
Qed.

Lemma fold_count_entry_zero (st : diff_status) (results : list DiffEntry) :
  st <> DIFF_STATUS_UNMERGED ->
  let c := fold_left count_entry results (mkCounts 0 "" 0 "" 0 "" 0 "" 0 "" 0 "") in
  counter st c = n_with st results /\ kept_name st c = first_with st results.
Proof.
  intros Hst c.
  assert (H0 : counter st (mkCounts 0 "" 0 "" 0 "" 0 "" 0 "" 0 "") = 0)
    by now destruct st.
  assert (Hn : kept_name st (mkCounts 0 "" 0 "" 0 "" 0 "" 0 "" 0 "") = "")
    by now destruct st.
  assert (Hge : 0 <= counter st (mkCounts 0 "" 0 "" 0 "" 0 "" 0 "" 0 "")) by lia.
  destruct (fold_count_entry st results _ Hst Hge) as [Hc Hk].
  fold c in Hc, Hk. rewrite H0 in Hc, Hk. rewrite Hn in Hk.
  split; [lia |]. unfold first_with. exact Hk.
Qed.

Lemma status_to_description_lines (results : list DiffEntry) :
  results <> [] ->
  status_to_description results
  = Some (line DIFF_STATUS_ADDED "Added" " " "files" results
          +:+ line DIFF_STATUS_DELETED "Deleted" " " "files" results
          +:+ line DIFF_STATUS_RENAMED "Renamed" " " "files" results
          +:+ line DIFF_STATUS_MODIFIED "Modified" " " "files" results
          +:+ line DIFF_STATUS_DIR_ADDED "Added" " directory " "directories" results
          +:+ line DIFF_STATUS_DIR_DELETED "Removed" " directory " "directories"
                results).
Proof.
  intros Hne. unfold status_to_description.
  destruct results as [|de results]; [contradiction |].
  set (c := fold_left count_entry (de :: results) _).
  unfold line.
  destruct (fold_count_entry_zero DIFF_STATUS_ADDED (de :: results) ltac:(discriminate))
    as [<- <-].
  destruct (fold_count_entry_zero DIFF_STATUS_DELETED (de :: results) ltac:(discriminate))
    as [<- <-].
  destruct (fold_count_entry_zero DIFF_STATUS_RENAMED (de :: results) ltac:(discriminate))
    as [<- <-].
  destruct (fold_count_entry_zero DIFF_STATUS_MODIFIED (de :: results) ltac:(discriminate))
    as [<- <-].
  destruct (fold_count_entry_zero DIFF_STATUS_DIR_ADDED (de :: results) ltac:(discriminate))
    as [<- <-].
  destruct (fold_count_entry_zero DIFF_STATUS_DIR_DELETED (de :: results)
              ltac:(discriminate)) as [<- <-].
  reflexivity.
Qed.

Lemma line_nothing (st : diff_status) (verb one many : string)
    (results : list DiffEntry) :
  with_status st results = [] -> line st verb one many results = "".
Proof. unfold line, n_with. now intros ->. Qed.

(** X21. [status_to_description] returns NULL exactly on the empty list.
    Otherwise the description is made of one line per status, in the
    order added, deleted, renamed, modified, added directory, removed
    directory: the line of a status is empty when no entry has it, and
    else shows the base name of the first entry with that status and how
    many more there are.  Entries with status unmerged add nothing: a
    list of only such entries gives the empty description, not NULL. *)
Theorem status_to_description_by_status (results : list DiffEntry) :
  (status_to_description results = None <-> results = [])
  /\ (results <> [] ->
      status_to_description results
      = Some (line DIFF_STATUS_ADDED "Added" " " "files" results
              +:+ line DIFF_STATUS_DELETED "Deleted" " " "files" results
              +:+ line DIFF_STATUS_RENAMED "Renamed" " " "files" results
              +:+ line DIFF_STATUS_MODIFIED "Modified" " " "files" results
              +:+ line DIFF_STATUS_DIR_ADDED "Added" " directory " "directories"
                    results
              +:+ line DIFF_STATUS_DIR_DELETED "Removed" " directory "
                    "directories" results))
  /\ (forall st verb one many,
        with_status st results = [] -> line st verb one many results = "")
  /\ (forall st verb one many de rest,
        with_status st results = de :: rest ->
        line st verb one many results
        = if length rest =? 0
          then verb +:+ one +:+ dq +:+ get_basename (de_name de) +:+ dq +:+ "."
               +:+ nl
          else verb +:+ " " +:+ dq +:+ get_basename (de_name de) +:+ dq +:+ " and "
               +:+ string_of_int (Z.of_nat (length rest)) +:+ " more " +:+ many
               +:+ "." +:+ nl)%nat
  /\ (results <> [] ->
      Forall (fun de => de_status de = DIFF_STATUS_UNMERGED) results ->
      status_to_description results = Some "").
Proof.
  split; [| split; [| split; [| split]]].
  - split; [| now intros ->]. destruct results; [reflexivity | discriminate].
  - apply status_to_description_lines.
  - intros st verb one many. apply line_nothing.
  - intros st verb one many de rest Hw. unfold line, n_with, first_with, describe.
    rewrite Hw. cbn [length].
    destruct rest as [|de' rest]; [reflexivity |]. cbn [length Nat.eqb].
    destruct (Z.eqb_spec (Z.of_nat (S (S (length rest)))) 1); [lia |].
    destruct (Z.gtb_spec (Z.of_nat (S (S (length rest)))) 1); [| lia].
    replace (Z.of_nat (S (S (length rest))) - 1) with (Z.of_nat (S (length rest)))
      by lia.
    reflexivity.
  - intros Hne Hall. rewrite (status_to_description_lines _ Hne).
    assert (Hnone : forall st, st <> DIFF_STATUS_UNMERGED -> with_status st results = []).
    { intros st Hst. unfold with_status. clear Hne.
      induction Hall as [|de l Hde _ IH]; [reflexivity |].
      cbn. rewrite Hde. destruct st; try contradiction; exact IH. }
    rewrite !line_nothing by (apply Hnone; discriminate). reflexivity.
Qed.

End DescriptionFacts.

(** ** What a commit holds *)

Section CommitContent.
Import CStr Fs Index Worktree Commit.
Context {store : ObjectStore} {differ : Differ} {ids : CommitIds}.
Local Open Scope list_scope.

(** The run of [commit_tree] when nothing fails. *)
Lemma commit_tree_run s repo h root_id desc unmerged remote :
  repo_head repo = Some h ->
  commit_store_ok s = true ->
  (unmerged = true ->
   seaf_branch_manager_get_branch s (repo_id repo) "master" <> None) ->
  exists c,
    commit_tree s repo root_id desc unmerged remote
    = Done (0, Some (commit_id c),
            set_head (Some (seaf_branch_set_commit h (commit_id c))) repo,
            seaf_branch_manager_update_branch (set_commits (c :: commits s) s)
              (seaf_branch_set_commit h (commit_id c)))
    /\ c_repo_id c = repo_id repo
    /\ c_root_id c = root_id
    /\ c_creator_name c = default (user_name s) (repo_email repo)
    /\ c_creator_id c = session_id s
    /\ c_desc c = (if unmerged then "Auto merge by seafile system" else desc)
    /\ c_ctime c = clock s
    /\ commit_id c
       = compute_commit_id root_id (session_id s)
           (default (user_name s) (repo_email repo))
           (if unmerged then "Auto merge by seafile system" else desc) (clock s)
    /\ c_parent_id c = Some (b_commit_id h)
    /\ c_repo_name c = repo_name repo
    /\ c_repo_desc c = repo_desc repo
    /\ c_encrypted c = repo_encrypted repo
    /\ c_no_local_history c = repo_no_local_history repo
    /\ (repo_encrypted repo = true -> c_enc_version c = repo_enc_version repo)
    /\ (repo_encrypted repo = true -> repo_enc_version repo >= 1 ->
        c_magic c = Some (repo_magic repo)).
Proof.
  intros Hh Hok Hm. unfold commit_tree. rewrite Hh.
  destruct unmerged; cbn [negb].
  - destruct (seaf_branch_manager_get_branch s (repo_id repo) "master") as [m|];
      [| now specialize (Hm eq_refl)].
    unfold seaf_commit_manager_add_commit. rewrite Hok.
    cbv beta iota zeta. change (0 <? 0) with false. cbv iota.
    eexists. split; [reflexivity |]. cbn. repeat split.
    + intros ->. reflexivity.
    + intros -> Hv. destruct (Z.geb_spec (repo_enc_version repo) 1); [reflexivity | lia].
  - unfold seaf_commit_manager_add_commit. rewrite Hok.
    cbv beta iota zeta. change (0 <? 0) with false. cbv iota.
    eexists. split; [reflexivity |]. cbn. repeat split.
    + intros ->. reflexivity.
    + intros -> Hv. destruct (Z.geb_spec (repo_enc_version repo) 1); [reflexivity | lia].
Qed.

(** X22. The commit written by a successful [commit_tree]: it belongs
    to the repository, has the root given, is created by the email of the
    repository if it has one and by the user of the session otherwise, at
    the time of the wall clock; its description is the one given, except
    for a merge, where it is "Auto merge by seafile system" whatever was
    given; it carries the name, description and encryption data of the
    repository.  The call changes the head of the repository, the commit
    store and the branch store, and nothing else. *)
Theorem commit_tree_writes_this_commit (s : SeafileSession) (repo : SeafRepo)
    (root_id desc : string) (unmerged : bool) (remote : string)
    (cid : option string) (repo' : SeafRepo) (s' : SeafileSession) :
  commit_tree s repo root_id desc unmerged remote = Done (0, cid, repo', s') ->
  exists c h,
    commits s' = c :: commits s
    /\ cid = Some (commit_id c)
    /\ c_repo_id c = repo_id repo
    /\ c_root_id c = root_id
    /\ c_creator_name c = default (user_name s) (repo_email repo)
    /\ c_creator_id c = session_id s
    /\ c_desc c = (if unmerged then "Auto merge by seafile system" else desc)
    /\ c_ctime c = clock s
    /\ c_repo_name c = repo_name repo
    /\ c_repo_desc c = repo_desc repo
    /\ c_encrypted c = repo_encrypted repo
    /\ (repo_encrypted repo = true -> repo_enc_version repo >= 1 ->
        c_magic c = Some (repo_magic repo))
    /\ repo_head repo = Some h
    /\ repo' = set_head (Some (seaf_branch_set_commit h (commit_id c))) repo
    /\ s' = set_branches (<[(b_repo_id h, b_name h) := commit_id c]> (branches s))
              (set_commits (c :: commits s) s).
Proof.
  intros Hrun.
  destruct (commit_tree_success _ _ _ _ _ _ _ _ _ Hrun)
    as (c0 & h & Hh & Hok & _ & _ & _ & _ & Hm & _).
  destruct (commit_tree_run s repo h root_id desc unmerged remote Hh Hok Hm)
    as (c & Hc & Hrest).
  rewrite Hc in Hrun. injection Hrun as <- <- <-.
  exists c, h. cbn. tauto.
Qed.

(** X23. [seaf_repo_index_commit] when nothing fails: the repository has
    a head and an existing worktree directory, its index file is
    readable, the tree store builds the root and the commit store takes
    the commit; for a merge, branch [master] exists; for a commit without
    description the differ finds a change.  Then a commit id is returned
    and no error is set; the commit written has the root built from the
    index and the description given, generated or, for a merge, fixed;
    the head of the repository and its row in the branch store are at the
    new commit; the worktree is marked valid and the index file is as it
    was. *)
Theorem index_commit_succeeds (s : SeafileSession) (repo : SeafRepo)
    (desc : string) (unmerged : bool) (remote : string)
    (istate : index_state) (root_id : string) :
  fst (check_worktree_common s repo) = true ->
  read_index_from s (repo_id repo) = Some istate ->
  cache_tree_update istate = Some root_id ->
  commit_store_ok s = true ->
  (unmerged = true ->
   seaf_branch_manager_get_branch s (repo_id repo) "master" <> None) ->
  (unmerged = false -> desc = "" ->
   gen_commit_description s (snd (check_worktree_common s repo)) istate <> None) ->
  exists c h repo' s',
    seaf_repo_index_commit s repo desc unmerged remote
    = Done (Some (commit_id c), None, repo', s')
    /\ commits s' = c :: commits s
    /\ c_root_id c = root_id
    /\ c_desc c
       = (if unmerged then "Auto merge by seafile system"
          else if String.eqb desc ""
               then default ""
                      (gen_commit_description s (snd (check_worktree_common s repo))
                         istate)
               else desc)
    /\ repo_head repo = Some h
    /\ c_parent_id c = Some (b_commit_id h)
    /\ repo_head repo' = Some (seaf_branch_set_commit h (commit_id c))
    /\ branches s' !! (b_repo_id h, b_name h) = Some (commit_id c)
    /\ repo_worktree_invalid repo' = false
    /\ index_files s' = index_files s.
Proof.
  intros Hcheck Hidx Htree Hok Hm Hgen.
  unfold seaf_repo_index_commit.
  pose proof (check_worktree_common_repo_id s repo) as Hid.
  pose proof (check_worktree_common_head s repo) as Hhead.
  pose proof (check_worktree_common_ok_head s repo Hcheck) as Hsome.
  assert (Hvalid : repo_worktree_invalid (snd (check_worktree_common s repo)) = false).
  { revert Hcheck. unfold check_worktree_common.
    destruct (repo_head repo); [| discriminate].
    destruct (seaf_repo_check_worktree s repo <? 0); [discriminate |]. intros _.
    unfold seaf_repo_manager_validate_repo_worktree. cbn [snd].
    destruct (repo_worktree_invalid repo) eqn:Hinv; cbn [negb]; [reflexivity | exact Hinv]. }
  destruct (check_worktree_common s repo) as [ok repo1]. cbn [fst snd] in *.
  subst ok. cbn [negb]. rewrite Hid, Hidx.
  destruct (repo_head repo) as [h|] eqn:Hh.
  2:{ now contradiction Hsome. }
  set (my_desc := if unmerged then desc
                  else if String.eqb desc ""
                       then default "" (gen_commit_description s repo1 istate)
                       else desc).
  assert (Hdesc : (if negb unmerged && String.eqb desc ""
                   then gen_commit_description s repo1 istate
                   else Some desc) = Some my_desc).
  { unfold my_desc. destruct unmerged; cbn [negb andb]; [reflexivity |].
    destruct (String.eqb_spec desc "") as [He|He]; [| reflexivity].
    specialize (Hgen eq_refl He).
    now destruct (gen_commit_description s repo1 istate). }
  rewrite Hdesc, Htree.
  rewrite <- Hid in Hm.
  destruct (commit_tree_run s repo1 h root_id my_desc unmerged remote Hhead Hok Hm)
    as (c & Hc & _ & Hroot & _ & _ & Hcdesc & _ & _ & Hparent & _).
  rewrite Hc. cbn [obind].
  exists c, h. do 2 eexists. split; [reflexivity |].
  split; [reflexivity |]. split; [exact Hroot |]. split.
  { rewrite Hcdesc. unfold my_desc. now destruct unmerged. }
  split; [reflexivity |]. split; [exact Hparent |]. split; [reflexivity |].
  split; [cbn; apply lookup_insert_eq |]. split; [exact Hvalid | reflexivity].
Qed.

End CommitContent.

(** ** The sweep of deleted entries *)

Section SweepFacts.
Import CStr Fs Index Ignore Worktree Sweep.
Local Open Scope list_scope.

Lemma remove_deleted_checked root istate worktree prefix :
  remove_deleted root istate worktree prefix
  = filter (fun ce => Z.land (ce_flags ce) CE_REMOVE = 0)
      (map (checked root worktree prefix) istate).
Proof. reflexivity. Qed.

Lemma mark_remove_flagged (ce : cache_entry) : ~ unflagged (mark_remove ce).
Proof.
  unfold unflagged, mark_remove. cbn [ce_flags]. intros H.
  apply (f_equal (fun z => Z.testbit z 17)) in H.
  rewrite Z.land_spec, Z.lor_spec in H.
  change (Z.testbit CE_REMOVE 17) with true in H.
  rewrite orb_true_r in H. discriminate.
Qed.

Lemma checked_cases root worktree prefix ce :
  checked root worktree prefix ce = ce
  \/ checked root worktree prefix ce = mark_remove ce.
Proof.
  unfold checked.
  destruct (negb (strncmp_eq (ce_name ce) prefix (String.length prefix))); [now left |].
  destruct (S_ISDIR (ce_mode ce));
    destruct (g_lstat root (worktree +:+ "/" +:+ ce_name ce)) as [st|]; auto.
  - destruct (negb (S_ISDIR (st_mode st)) || negb (is_empty_dir (Some st))); auto.
  - destruct (negb (S_ISREG (st_mode st))); auto.
Qed.

Lemma checked_unflagged root worktree prefix ce :
  unflagged (checked root worktree prefix ce) ->
  checked root worktree prefix ce = ce.
Proof.
  destruct (checked_cases root worktree prefix ce) as [H|H]; [trivial |].
  rewrite H. intros Hf. now apply mark_remove_flagged in Hf.
Qed.

(** The sweep keeps the entries the loop leaves without flag, as they
    were. *)
Lemma remove_deleted_filter root istate worktree prefix :
  remove_deleted root istate worktree prefix
  = filter (fun ce => unflagged (checked root worktree prefix ce)) istate.
Proof.
  rewrite remove_deleted_checked. unfold unflagged, index_state in *.
  induction istate as [|ce istate IH]; [reflexivity |].
  cbn [map]. rewrite !filter_cons, IH.
  destruct (decide (Z.land (ce_flags (checked root worktree prefix ce)) CE_REMOVE = 0))
    as [Hu|Hu]; [| reflexivity].
  now rewrite (checked_unflagged _ _ _ _ Hu).
Qed.

(** X24. [remove_deleted] only removes: what it returns are entries of
    the index it was given, unchanged and in their order, none of them
    flagged [CE_REMOVE]; an entry without flag whose name does not begin
    with the prefix stays; an entry whose name begins with the prefix and
    whose path is not in the worktree goes; and a second sweep removes
    nothing more. *)
Theorem remove_deleted_only_removes (root : fsnode) (istate : index_state)
    (worktree prefix : string) :
  let istate' := remove_deleted root istate worktree prefix in
  sublist istate' istate
  /\ (forall ce, In ce istate' -> unflagged ce)
  /\ (forall ce,
        In ce istate -> unflagged ce ->
        strncmp_eq (ce_name ce) prefix (String.length prefix) = false ->
        In ce istate')
  /\ (forall ce,
        strncmp_eq (ce_name ce) prefix (String.length prefix) = true ->
        g_lstat root (worktree +:+ "/" +:+ ce_name ce) = None ->
        ~ In ce istate')
  /\ remove_deleted root istate' worktree prefix = istate'.
Proof.
  intros istate'. unfold istate'. rewrite !remove_deleted_filter.
  split; [apply sublist_filter |]. split; [| split; [| split]].
  - intros ce Hin. apply list_elem_of_In, list_elem_of_filter in Hin as [Hu _].
    now rewrite (checked_unflagged _ _ _ _ Hu) in Hu.
  - intros ce Hin Hu Hp. apply list_elem_of_In, list_elem_of_filter.
    split; [| now apply list_elem_of_In].
    unfold checked. now rewrite Hp.
  - intros ce Hp Hmiss Hin.
    apply list_elem_of_In, list_elem_of_filter in Hin as [Hu _].
    revert Hu. unfold checked. rewrite Hp, Hmiss. cbn [negb].
    destruct (S_ISDIR (ce_mode ce)); apply mark_remove_flagged.
  - unfold index_state. rewrite list_filter_filter. apply list_filter_iff. tauto.
Qed.

End SweepFacts.

(** ** The walk over the worktree *)

Section WalkFacts.
Import CStr Fs Index Ignore Worktree Sweep.
Context {store : ObjectStore}.
Local Open Scope list_scope.

Lemma in_add_index_entry (ce e : cache_entry) (l : index_state) :
  In ce (add_index_entry e l) -> ce = e \/ In ce l.
Proof.
  induction l as [|x l IH]; simpl; [intros [<-|[]]; now left |].
  destruct (String.compare (ce_name e) (ce_name x)); simpl.
  - intros [<-|H]; auto.
  - intros [<-|H]; auto.
  - intros [<-|H]; auto. apply IH in H as [->|H]; auto.
Qed.

Lemma old_or_regular_refl istate : old_or_regular istate istate.
Proof. intros ce H. now left. Qed.

Lemma old_or_regular_trans a b c :
  old_or_regular a b -> old_or_regular b c -> old_or_regular a c.
Proof. intros Hab Hbc ce H. destruct (Hbc ce H) as [H'|H']; auto. Qed.

Lemma old_or_regular_file i path sha1 :
  old_or_regular i (add_index_entry (mkCe path (st_mode FsReg) sha1 0) i).
Proof.
  intros ce Hce. apply in_add_index_entry in Hce as [->|Hce]; [right | now left].
  reflexivity.
Qed.

Lemma add_recursive_node_regular node worktree crypt :
  forall istate e path r,
    add_recursive_node node istate e worktree path crypt true = Done r ->
    old_or_regular istate (snd (fst r)).
Proof.
  apply (add_recursive_node_inv old_or_regular true old_or_regular_refl
           old_or_regular_trans old_or_regular_file).
  discriminate.
Qed.

Lemma add_recursive_found_regular node worktree crypt :
  forall istate e path r,
    add_recursive_found node istate e worktree path crypt true = Done r ->
    old_or_regular istate (snd (fst r)).
Proof.
  intros istate e path r.
  apply (add_recursive_found_inv old_or_regular true old_or_regular_refl
           old_or_regular_trans old_or_regular_file).
  discriminate.
Qed.

(** [seaf_repo_check_worktree] returns 0 or -1. *)
Lemma seaf_repo_check_worktree_values s repo :
  seaf_repo_check_worktree s repo = 0 \/ seaf_repo_check_worktree s repo = -1.
Proof.
  unfold seaf_repo_check_worktree.
  destruct (repo_worktree repo) as [wt|]; [| now right].
  destruct (negb (g_access (fs_root s) wt)); [now right |].
  destruct (g_stat (fs_root s) wt) as [st|]; [| now right].
  destruct (negb (S_ISDIR (st_mode st))); auto.
Qed.

Lemma check_worktree_common_refused s repo :
  fst (check_worktree_common s repo) = false <->
  repo_head repo = None \/ seaf_repo_check_worktree s repo = -1.
Proof.
  unfold check_worktree_common.
  destruct (repo_head repo) as [h|]; [| cbn; tauto].
  destruct (seaf_repo_check_worktree_values s repo) as [-> | ->]; cbn.
  - split; [discriminate | intros [H|H]; discriminate].
  - tauto.
Qed.

(** What a run of [seaf_repo_index_add] went through. *)
Lemma index_add_run s repo path ret repo' s' :
  seaf_repo_index_add s repo path = Done (ret, repo', s') ->
  let worktree := default "" (repo_worktree repo') in
  let crypt := if repo_encrypted repo'
               then Some (seafile_crypt_new (repo_enc_version repo')
                            (repo_enc_key repo') (repo_enc_iv repo'))
               else None in
  repo' = snd (check_worktree_common s repo)
  /\ ((ret = -1 /\ s' = s
       /\ (fst (check_worktree_common s repo) = false
           \/ read_index_from s (repo_id repo) = None
           \/ (exists istate r,
                 read_index_from s (repo_id repo) = Some istate
                 /\ add_recursive (fs_root s) istate (skipped_slashes path)
                      worktree (skip_leading_slashes path) crypt true = Done r
                 /\ fst r < 0)
           \/ index_writable s = false))
      \/ (ret = 0
          /\ fst (check_worktree_common s repo) = true
          /\ index_writable s = true
          /\ exists istate r,
               read_index_from s (repo_id repo) = Some istate
               /\ add_recursive (fs_root s) istate (skipped_slashes path)
                    worktree (skip_leading_slashes path) crypt true = Done r
               /\ 0 <= fst r
               /\ s' = set_index_files
                         (<[repo_id repo :=
                              IndexData
                                (remove_deleted (fs_root s) (snd r) worktree
                                   (skip_leading_slashes path))]>
                            (index_files s)) s)).
Proof.
  unfold seaf_repo_index_add.
  pose proof (check_worktree_common_repo_id s repo) as Hid.
  destruct (check_worktree_common s repo) as [ok repo1]. cbn [fst snd] in *.
  destruct ok; cbn [negb].
  2: { intros [= <- <- <-]. cbv zeta. split; [reflexivity |]. left.
       do 2 (split; [reflexivity |]). now left. }
  rewrite Hid.
  destruct (read_index_from s (repo_id repo)) as [istate|].
  2: { intros [= <- <- <-]. cbv zeta. split; [reflexivity |]. left.
       do 2 (split; [reflexivity |]). right. now left. }
  destruct (add_recursive _ _ _ _ _ _ _) as [r|] eqn:Hadd; cbn [obind];
    [| discriminate].
  destruct (Z.ltb_spec (fst r) 0) as [Hneg|Hpos].
  { intros [= <- <- <-]. cbv zeta. split; [reflexivity |]. left.
    do 2 (split; [reflexivity |]). right. right. left. now exists istate, r. }
  unfold update_index. destruct (index_writable s) eqn:Hw; cbn.
  - intros [= <- <- <-]. split; [reflexivity |]. right.
    split; [reflexivity |]. split; [reflexivity |]. split; [reflexivity |].
    exists istate, r. auto.
  - intros [= <- <- <-]. split; [reflexivity |]. left.
    do 2 (split; [reflexivity |]). right. right. now right.
Qed.

Lemma read_index_after_update s id istate :
  read_index_from (set_index_files (<[id := IndexData istate]> (index_files s)) s) id
  = Some istate.
Proof. unfold read_index_from. cbn. now rewrite lookup_insert_eq. Qed.

Lemma add_recursive_regular root istate before worktree path crypt r :
  add_recursive root istate before worktree path crypt true = Done r ->
  old_or_regular istate (snd r).
Proof.
  unfold add_recursive.
  destruct (has_trailing_space_at before path) as [[|]|]; cbn [obind];
    [intros [= <-]; apply old_or_regular_refl | | discriminate].
  destruct (g_lstat root (g_build_path worktree path)) as [node|];
    [| intros [= <-]; apply old_or_regular_refl].
  destruct (add_recursive_node node istate false worktree path crypt true)
    as [r1|] eqn:Hr; cbn [obind]; [| discriminate].
  intros [= <-]. exact (add_recursive_node_regular _ _ _ _ _ _ _ Hr).
Qed.

(** X25. A walk that ignores empty directories, as the one of
    [seaf_repo_index_add], puts nothing but entries of regular files
    into the index: every entry of the index it returns was there before
    or has the mode of a regular file; so the index written by
    [seaf_repo_index_add] holds, besides entries of the index it read,
    only entries of regular files, and no entry flagged [CE_REMOVE]. *)
Theorem index_add_adds_only_regular_files (s : SeafileSession) (repo : SeafRepo)
    (path : string) (repo' : SeafRepo) (s' : SeafileSession)
    (istate : index_state) :
  seaf_repo_index_add s repo path = Done (0, repo', s') ->
  read_index_from s (repo_id repo) = Some istate ->
  exists istate',
    read_index_from s' (repo_id repo) = Some istate'
    /\ (forall ce, In ce istate' ->
          (In ce istate \/ S_ISREG (ce_mode ce) = true) /\ unflagged ce)
    /\ (forall node istate0 e worktree path0 crypt r,
          add_recursive_found node istate0 e worktree path0 crypt true = Done r ->
          forall ce, In ce (snd (fst r)) ->
                     In ce istate0 \/ S_ISREG (ce_mode ce) = true)
    /\ (forall node istate0 e worktree path0 crypt r,
          add_recursive_node node istate0 e worktree path0 crypt true = Done r ->
          forall ce, In ce (snd (fst r)) ->
                     In ce istate0 \/ S_ISREG (ce_mode ce) = true).
Proof.
  intros Hrun Hidx.
  apply index_add_run in Hrun as [_ [[H _] | H]]; [discriminate |].
  destruct H as (_ & _ & _ & istate0 & r & Hidx' & Hadd & _ & ->).
  rewrite Hidx in Hidx'. injection Hidx' as <-.
  eexists. split; [apply read_index_after_update |]. split; [| split].
  - intros ce Hce. split.
    + apply (add_recursive_regular _ _ _ _ _ _ _ Hadd).
      rewrite remove_deleted_filter in Hce.
      now apply list_elem_of_In, list_elem_of_filter in Hce as [_ Hce%list_elem_of_In].
    + rewrite remove_deleted_filter in Hce.
      apply list_elem_of_In, list_elem_of_filter in Hce as [Hu _].
      now rewrite (checked_unflagged _ _ _ _ Hu) in Hu.
  - intros node istate0 e worktree path0 crypt r0 Hr.
    apply (add_recursive_found_regular _ _ _ _ _ _ _ Hr).
  - intros node istate0 e worktree path0 crypt r0 Hr.
    apply (add_recursive_node_regular _ _ _ _ _ _ _ Hr).
Qed.

End WalkFacts.

(** ** Return values of the walk, empty directories *)

Section WalkResults.
Import CStr Fs Index Ignore Worktree Sweep.
Context {store : ObjectStore}.
Local Open Scope list_scope.






Lemma count_fold (es : list (string * fsnode)) (n : Z) :
  fold_left (fun n e => if should_ignore (fst e) then n else n + 1) es n
  = n + Z.of_nat (length (List.filter (fun e => negb (should_ignore (fst e))) es)).
Proof.
  revert n. induction es as [|e es IH]; intros n; cbn [fold_left List.filter].
  - cbn. lia.
  - rewrite IH. destruct (should_ignore (fst e)); cbn [negb length]; lia.
Qed.

Lemma add_dir_entries_count es istate n e worktree path crypt ied r :
  add_dir_entries es istate n e worktree path crypt ied = Done r ->
  snd (fst r)
  = n + Z.of_nat (length (List.filter (fun x => negb (should_ignore (fst x))) es)).
Proof.
  revert istate n e. induction es as [|[dname child] es IH]; intros istate n e.
  - cbn. intros [= <-]. cbn. lia.
  - cbn [add_dir_entries add_dir_entry List.filter fst].
    destruct (should_ignore dname); cbn [obind negb].
    + intros H. apply IH in H. exact H.
    + destruct (add_recursive_found child istate e worktree _ crypt ied) as [r1|];
        cbn [obind]; [| discriminate].
      intros H. apply IH in H. cbn [fst snd length] in *. lia.
Qed.

Lemma add_dir_entries_all_ignored es istate n e worktree path crypt ied :
  List.filter (fun x => negb (should_ignore (fst x))) es = [] ->
  add_dir_entries es istate n e worktree path crypt ied = Done (istate, n, e).
Proof.
  induction es as [|[dname child] es IH]; [reflexivity |].
  cbn [List.filter add_dir_entries add_dir_entry fst].
  destruct (should_ignore dname); cbn [negb obind]; [exact IH | discriminate].
Qed.

(** X27. Entries of empty directories.  A walk that does not ignore
    empty directories, on a directory it reads to the end: when
    [is_empty_dir] holds of the directory, that is when every name in it
    is ignored, the walk returns 0 with [errno] clear and has added the
    entry of the directory and nothing else; when it does not hold, the
    index returned is the one the loop over the entries has built,
    without an entry for the directory, and the walk returns -1 or 0 as
    the loop has left [errno] set or clear.  And [remove_deleted] keeps
    an unflagged directory entry whose name begins with the prefix
    exactly when [is_empty_dir] holds of what its path is in the
    worktree. *)
Theorem empty_dir_entries_follow_is_empty_dir (root : fsnode)
    (es : list (string * fsnode)) (istate : index_state) (e : bool)
    (worktree path prefix : string) (crypt : option SeafileCrypt) :
  (forall ret istate' e',
     add_recursive_node (FsDir DirOk es) istate e worktree path crypt false
     = Done (ret, istate', e') ->
     (is_empty_dir (Some (FsDir DirOk es)) = true ->
      ret = 0 /\ e' = false
      /\ istate' = add_empty_dir_to_index istate path
      /\ In path (names istate'))
     /\ (is_empty_dir (Some (FsDir DirOk es)) = false ->
         ret = (if e' then -1 else 0)
         /\ exists n, 0 < n
              /\ add_dir_entries es istate 0 false worktree path crypt false
                 = Done (istate', n, e')))
  /\ (forall ce,
        In ce istate -> unflagged ce -> S_ISDIR (ce_mode ce) = true ->
        strncmp_eq (ce_name ce) prefix (String.length prefix) = true ->
        (In ce (remove_deleted root istate worktree prefix) <->
         is_empty_dir (g_lstat root (worktree +:+ "/" +:+ ce_name ce)) = true)).
Proof.
  split.
  - intros ret istate' e' Hrun. rewrite add_recursive_node_unfold in Hrun.
    destruct (add_dir_entries es istate 0 false worktree path crypt false)
      as [[[i1 n1] e1]|] eqn:Hr; cbn [obind fst snd] in Hrun; [| discriminate].
    pose proof (add_dir_entries_count _ _ _ _ _ _ _ _ _ Hr) as Hn.
    cbn [fst snd] in Hn.
    unfold is_empty_dir. rewrite count_fold. rewrite Z.add_0_l in *.
    rewrite <- Hn. rewrite andb_true_r in Hrun.
    destruct (Z.eqb_spec n1 0) as [H0|H0].
    + assert (Hnil : List.filter (fun x => negb (should_ignore (fst x))) es = [])
        by (destruct (List.filter _ es); [reflexivity | cbn in Hn; lia]).
      rewrite (add_dir_entries_all_ignored _ _ _ _ _ _ _ _ Hnil) in Hr.
      injection Hr as <- _ <-. injection Hrun as <- <- <-.
      split; [| discriminate]. intros _.
      do 3 (split; [reflexivity |]).
      apply names_add_index_entry. now left.
    + split; [discriminate |]. intros _.
      destruct e1; injection Hrun as <- <- <-.
      * split; [reflexivity |]. exists n1. split; [lia | reflexivity].
      * split; [reflexivity |]. exists n1. split; [lia | reflexivity].
  - intros ce Hin Hu Hdir Hp. rewrite remove_deleted_filter.
    rewrite <- list_elem_of_In, list_elem_of_filter, list_elem_of_In.
    unfold checked. rewrite Hp, Hdir. cbn [negb].
    destruct (g_lstat root (worktree +:+ "/" +:+ ce_name ce)) as [st|].
    + destruct (is_empty_dir (Some st)) eqn:He.
      * assert (Hst : S_ISDIR (st_mode st) = true)
          by (destruct st as [|status es'|]; try discriminate; reflexivity).
        rewrite Hst. cbn. tauto.
      * rewrite orb_true_r. split; [| discriminate].
        intros [Hf _]. now apply mark_remove_flagged in Hf.
    + split; [| discriminate]. intros [Hf _]. now apply mark_remove_flagged in Hf.
Qed.

End WalkResults.

(** ** Adding a path to the index *)

Section IndexAddFacts.
Import CStr Fs Index Ignore Worktree Sweep.
Context {store : ObjectStore}.
Local Open Scope list_scope.

(** [check_worktree_common] changes the flag [worktree_invalid] at
    most. *)
Lemma check_worktree_common_flag s repo :
  snd (check_worktree_common s repo)
  = set_worktree_invalid
      (match repo_head repo with
       | None => repo_worktree_invalid repo
       | Some _ => negb (fst (check_worktree_common s repo))
       end) repo.
Proof.
  unfold check_worktree_common, seaf_repo_manager_invalidate_repo_worktree,
    seaf_repo_manager_validate_repo_worktree.
  destruct (repo_head repo); [| now destruct repo].
  destruct (seaf_repo_check_worktree s repo <? 0); cbn;
    destruct (repo_worktree_invalid repo) eqn:Hinv; cbn; try reflexivity;
    destruct repo; cbn in *; now subst.
Qed.

(** X28. Whatever [seaf_repo_index_add] returns, it is 0 or -1, and the
    repository is changed in its flag [worktree_invalid] at most, which
    afterwards tells whether the worktree check failed (for a repository
    with a head).  The call returns -1 exactly when the repository has no
    head, or its worktree is not an existing directory, or its index
    file is corrupt, or [add_recursive], on the path behind its leading
    slashes, returns a negative value, or the index file cannot be
    written; the index files are then what they were.  When it returns 0
    the index file of the repository holds what [remove_deleted] leaves
    of the index [add_recursive] has returned, and no other index file
    has changed. *)
Theorem index_add_fails_exactly_on_these (s : SeafileSession)
    (repo : SeafRepo) (path : string) (ret : Z) (repo' : SeafRepo)
    (s' : SeafileSession) :
  seaf_repo_index_add s repo path = Done (ret, repo', s') ->
  let worktree := default "" (repo_worktree repo) in
  let crypt := if repo_encrypted repo
               then Some (seafile_crypt_new (repo_enc_version repo)
                            (repo_enc_key repo) (repo_enc_iv repo))
               else None in
  let added istate r :=
    read_index_from s (repo_id repo) = Some istate
    /\ add_recursive (fs_root s) istate (skipped_slashes path) worktree
         (skip_leading_slashes path) crypt true = Done r in
  (ret = 0 \/ ret = -1)
  /\ repo' = set_worktree_invalid (repo_worktree_invalid repo') repo
  /\ (forall h, repo_head repo = Some h ->
        repo_worktree_invalid repo' = negb (fst (check_worktree_common s repo)))
  /\ (ret = -1 <->
      repo_head repo = None
      \/ seaf_repo_check_worktree s repo = -1
      \/ read_index_from s (repo_id repo) = None
      \/ (exists istate r, added istate r /\ fst r < 0)
      \/ index_writable s = false)
  /\ (ret = -1 -> index_files s' = index_files s)
  /\ (ret = 0 ->
      exists istate r,
        added istate r
        /\ index_files s'
           = <[repo_id repo :=
                 IndexData (remove_deleted (fs_root s) (snd r) worktree
                              (skip_leading_slashes path))]> (index_files s)).
Proof.
  intros Hrun worktree crypt added.
  pose proof (index_add_run _ _ _ _ _ _ Hrun) as [Hrepo Hcases].
  cbv zeta in Hcases.
  assert (Hflag := check_worktree_common_flag s repo). rewrite <- Hrepo in Hflag.
  assert (Hsame : repo' = set_worktree_invalid (repo_worktree_invalid repo') repo)
    by (rewrite Hflag at 1; now rewrite Hflag).
  assert (Hhead : forall h, repo_head repo = Some h ->
            repo_worktree_invalid repo' = negb (fst (check_worktree_common s repo)))
    by (intros h Hh; rewrite Hflag, Hh; reflexivity).
  assert (Hwt : default "" (repo_worktree repo') = worktree)
    by (rewrite Hsame; reflexivity).
  assert (Hcrypt : (if repo_encrypted repo'
                    then Some (seafile_crypt_new (repo_enc_version repo')
                                 (repo_enc_key repo') (repo_enc_iv repo'))
                    else None) = crypt)
    by (rewrite Hsame; reflexivity).
  rewrite Hwt, Hcrypt in Hcases.
  split; [destruct Hcases as [(-> & _) | (-> & _)]; auto |].
  split; [exact Hsame |]. split; [exact Hhead |].
  destruct Hcases as [(-> & -> & Hwhy) | (-> & Hok & Hw & istate & r & Hidx & Hadd & Hpos & ->)].
  - split; [| split; [reflexivity | discriminate]].
    split; [intros _ | reflexivity].
    destruct Hwhy as [Hno | [Hidx | [(istate & r & Hidx & Hadd & Hneg) | Hw]]].
    + apply check_worktree_common_refused in Hno as [H|H]; auto.
    + auto.
    + right. right. right. left. exists istate, r. now split.
    + auto 6.
  - split; [| split; [discriminate |]].
    + split; [discriminate |].
      intros [Hnone | [Hcheck | [Hcorrupt | [(i1 & r1 & [Hi1 Ha1] & Hneg) | Hro]]]];
        exfalso.
      * apply check_worktree_common_ok_head in Hok. contradiction.
      * assert (fst (check_worktree_common s repo) = false)
          by (apply check_worktree_common_refused; auto).
        congruence.
      * congruence.
      * rewrite Hidx in Hi1. injection Hi1 as <-.
        rewrite Hadd in Ha1. injection Ha1 as <-. lia.
      * congruence.
    + intros _. exists istate, r. split; [now split | reflexivity].
Qed.

Lemma check_worktree_common_worktree s repo :
  repo_worktree (snd (check_worktree_common s repo)) = repo_worktree repo
  /\ repo_encrypted (snd (check_worktree_common s repo)) = repo_encrypted repo.
Proof. rewrite check_worktree_common_flag. split; reflexivity. Qed.

(** X29. Adding a path that is no longer in the worktree is how a
    deletion gets into the index: [add_recursive] returns 1, which
    [seaf_repo_index_add] does not take for a failure; the call returns 0
    and the index written is the index read with the sweep of
    [remove_deleted] applied, in which no entry remains whose name begins
    with the path and that is missing from the worktree. *)
Theorem index_add_of_a_missing_path_records_the_deletion (s : SeafileSession)
    (repo : SeafRepo) (path : string) (istate : index_state) :
  fst (check_worktree_common s repo) = true ->
  read_index_from s (repo_id repo) = Some istate ->
  index_writable s = true ->
  let p := skip_leading_slashes path in
  let worktree := default "" (repo_worktree repo) in
  has_trailing_space p = Done false ->
  g_lstat (fs_root s) (g_build_path worktree p) = None ->
  exists repo' s',
    seaf_repo_index_add s repo path = Done (0, repo', s')
    /\ (forall before crypt ied,
          add_recursive (fs_root s) istate before worktree p crypt ied
          = Done (1, istate))
    /\ read_index_from s' (repo_id repo)
       = Some (remove_deleted (fs_root s) istate worktree p)
    /\ (forall ce,
          In ce (remove_deleted (fs_root s) istate worktree p) ->
          strncmp_eq (ce_name ce) p (String.length p) = true ->
          g_lstat (fs_root s) (worktree +:+ "/" +:+ ce_name ce) <> None).
Proof.
  intros Hok Hidx Hw p worktree Hts Hmiss.
  assert (Hp : p <> "") by (intros Hp; rewrite Hp in Hts; discriminate).
  assert (Hadd : forall before crypt ied,
            add_recursive (fs_root s) istate before worktree p crypt ied
            = Done (1, istate)).
  { intros before crypt ied. unfold add_recursive.
    rewrite has_trailing_space_at_nonempty by assumption.
    now rewrite Hts, Hmiss. }
  unfold seaf_repo_index_add.
  pose proof (check_worktree_common_repo_id s repo) as Hid.
  destruct (check_worktree_common_worktree s repo) as [Hwt _].
  destruct (check_worktree_common s repo) as [ok repo1]. cbn [fst snd] in *.
  subst ok. cbn [negb]. rewrite Hid, Hidx, Hwt.
  fold p. fold worktree. rewrite Hadd. cbn [obind fst snd].
  change (1 <? 0) with false. cbv iota.
  unfold update_index. rewrite Hw.
  do 2 eexists. split; [reflexivity |]. split; [exact Hadd |].
  split; [apply read_index_after_update |].
  intros ce Hin Hp' Hnone. revert Hin. rewrite remove_deleted_filter.
  rewrite <- list_elem_of_In, list_elem_of_filter. intros [Hu _]. revert Hu.
  unfold checked. rewrite Hp', Hnone. cbn [negb].
  destruct (S_ISDIR (ce_mode ce)); apply mark_remove_flagged.
Qed.

End IndexAddFacts.

(** ** What a purge leaves *)

Section PurgeStateFacts.
Import CStr Db DbMore Manager Purge PurgeState.
Local Open Scope list_scope.

Lemma remove_branch_state id e b :
  db_ok (e_db e) = true ->
  e_db (remove_branch id e b)
  = set_RepoBranch (unmap (RepoBranch (e_db e)) b) (e_db e)
  /\ e_session (remove_branch id e b)
     = set_branches (forget id (branches (e_session e)) b) (e_session e).
Proof.
  intros Hok.
  unfold remove_branch, seaf_repo_manager_branch_repo_unmap,
    seaf_branch_manager_del_branch, exec, sqlite_query_exec.
  rewrite Hok. cbn. split; reflexivity.
Qed.

Lemma set_RepoBranch_twice v w d :
  set_RepoBranch v (set_RepoBranch w d) = set_RepoBranch v d.
Proof. reflexivity. Qed.

Lemma set_branches_twice v w s :
  set_branches v (set_branches w s) = set_branches v s.
Proof. reflexivity. Qed.

(** The loop over the branches works on the table [RepoBranch] and on
    the branch store, and on nothing else. *)
Lemma branch_loop_state id bs e :
  db_ok (e_db e) = true ->
  e_db (fold_left (remove_branch id) bs e)
  = set_RepoBranch (fold_left unmap bs (RepoBranch (e_db e))) (e_db e)
  /\ e_session (fold_left (remove_branch id) bs e)
     = set_branches (fold_left (forget id) bs (branches (e_session e)))
         (e_session e).
Proof.
  revert e. induction bs as [|b bs IH]; intros e Hok.
  - cbn. split; [now destruct (e_db e) | now destruct (e_session e)].
  - cbn [fold_left]. destruct (remove_branch_state id e b Hok) as [Hd Hs].
    assert (Hok' : db_ok (e_db (remove_branch id e b)) = true)
      by (rewrite Hd; exact Hok).
    destruct (IH _ Hok') as [IHd IHs]. rewrite IHd, IHs, Hd, Hs.
    split; reflexivity.
Qed.

Lemma unmap_other id bs (m : gmap string string) id' :
  Forall (fun b => b_repo_id b = id) bs -> id' <> id ->
  fold_left unmap bs m !! id' = m !! id'.
Proof.
  intros Hall Hne. revert m. induction Hall as [|b bs Hb _ IH]; intros m;
    [reflexivity |].
  cbn [fold_left]. rewrite IH. unfold unmap. rewrite Hb.
  destruct (m !! id) as [n|]; [| reflexivity].
  destruct (String.eqb n (b_name b)); [| reflexivity].
  now apply lookup_delete_ne.
Qed.

Lemma unmap_none id bs (m : gmap string string) :
  Forall (fun b => b_repo_id b = id) bs -> m !! id = None ->
  fold_left unmap bs m !! id = None.
Proof.
  intros Hall. revert m. induction Hall as [|b bs Hb _ IH]; intros m Hm;
    [exact Hm |].
  cbn [fold_left]. apply IH. unfold unmap. rewrite Hb, Hm. exact Hm.
Qed.

Lemma unmap_same id bs (m : gmap string string) n :
  Forall (fun b => b_repo_id b = id) bs -> m !! id = Some n ->
  (In n (map b_name bs) -> fold_left unmap bs m !! id = None)
  /\ (~ In n (map b_name bs) -> fold_left unmap bs m !! id = Some n).
Proof.
  intros Hall. revert m. induction Hall as [|b bs Hb Hall IH]; intros m Hm.
  - cbn. split; [contradiction | intros _; exact Hm].
  - cbn [fold_left map]. unfold unmap at 2 4. rewrite Hb, Hm.
    destruct (String.eqb_spec n (b_name b)) as [->|Hne].
    + split.
      * intros _. apply (unmap_none id); [assumption |]. apply lookup_delete_eq.
      * intros Hnot. exfalso. apply Hnot. now left.
    + destruct (IH m Hm) as [IH1 IH2]. split.
      * intros [Heq|Hin]; [congruence | now apply IH1].
      * intros Hnot. apply IH2. intros Hin. apply Hnot. now right.
Qed.

Lemma forget_lookup (id : string) (bs : list SeafBranch)
    (m : gmap (string * string) string) (k : string * string) :
  (In k (map (fun b => (id, b_name b)) bs) -> fold_left (forget id) bs m !! k = None)
  /\ (~ In k (map (fun b => (id, b_name b)) bs) ->
      fold_left (forget id) bs m !! k = m !! k).
Proof.
  revert m. induction bs as [|b bs IH]; intros m.
  - cbn. split; [contradiction | reflexivity].
  - cbn [fold_left map]. destruct (IH (forget id m b)) as [IH1 IH2].
    destruct (decide (k = (id, b_name b))) as [->|Hne].
    + split; [| intros Hnot; exfalso; apply Hnot; now left].
      intros _.
      destruct (In_dec (prod_eq_dec) (id, b_name b)
                  (map (fun b => (id, b_name b)) bs)) as [Hin|Hnin].
      * now apply IH1.
      * rewrite (IH2 Hnin). apply lookup_delete_eq.
    + split.
      * intros [Heq|Hin]; [congruence | now apply IH1].
      * intros Hnot. rewrite IH2 by (intros Hin; apply Hnot; now right).
        unfold forget. now apply lookup_delete_ne.
Qed.

(** The branches [seaf_branch_manager_get_branch_list] returns for a
    repository are those the branch store holds for it. *)
Lemma branch_list_spec s id :
  Forall (fun b => b_repo_id b = id) (seaf_branch_manager_get_branch_list s id)
  /\ (forall n, In n (map b_name (seaf_branch_manager_get_branch_list s id))
                <-> is_Some (branches s !! (id, n)))
  /\ (forall id' n,
        In (id', n) (map (fun b => (id, b_name b))
                       (seaf_branch_manager_get_branch_list s id))
        <-> id' = id /\ is_Some (branches s !! (id, n))).
Proof.
  unfold seaf_branch_manager_get_branch_list.
  assert (Hnames : forall n,
            In n (map b_name
                    (map (fun kv : string * string * string =>
                            mkBranch kv.1.2 kv.1.1 kv.2)
                       (filter (fun kv : string * string * string => kv.1.1 = id)
                          (map_to_list (branches s)))))
            <-> is_Some (branches s !! (id, n))).
  { intros n. rewrite map_map. cbn [b_name]. rewrite in_map_iff. split.
    - intros ([[rid name] cid] & Hn & Hin). cbn in Hn. subst name.
      apply list_elem_of_In, list_elem_of_filter in Hin as [Hrid Hin].
      cbn in Hrid. subst rid. apply elem_of_map_to_list in Hin. now exists cid.
    - intros [cid Hcid]. exists ((id, n), cid). split; [reflexivity |].
      apply list_elem_of_In, list_elem_of_filter. split; [reflexivity |].
      now apply elem_of_map_to_list. }
  split; [| split].
  - apply List.Forall_forall. intros b Hb. apply in_map_iff in Hb as (kv & <- & Hkv).
    apply list_elem_of_In, list_elem_of_filter in Hkv as [Hrid _]. exact Hrid.
  - exact Hnames.
  - intros id' n. rewrite <- Hnames, !in_map_iff. split.
    + intros (b & [= <- <-] & Hb). split; [reflexivity |]. now exists b.
    + intros (-> & b & <- & Hb). now exists b.
Qed.

(** The store and the session after a purge. *)
Lemma remove_repo_ondisk_state e id :
  db_ok (e_db e) = true ->
  let d := e_db e in
  let s := e_session e in
  let bs := seaf_branch_manager_get_branch_list s id in
  e_db (remove_repo_ondisk e id)
  = mkDb true (Repo d ∖ {[id]}) (DeletedRepo d ∖ {[id]})
      (fold_left unmap bs (RepoBranch d)) (RepoLanToken d) (RepoTmpToken d)
      (delete id (RepoPasswd d)) (delete id (RepoKeys d))
      (filter (fun row => row.1.1 ≠ id) (RepoProperty d))
      (delete id (MergeInfo d))
  /\ e_session (remove_repo_ondisk e id)
     = set_branches (fold_left (forget id) bs (branches s))
         (set_index_files (delete id (index_files s)) s).
Proof.
  intros Hok d s bs. unfold remove_repo_ondisk.
  destruct (exec (DELETE_FROM_Repo id) e) as [ret e1] eqn:He1.
  assert (Hret : ret = 0)
    by (pose proof (exec_registry_row_ok e id Hok) as H; now rewrite He1 in H).
  subst ret. change (0 <? 0) with false. cbv iota.
  assert (Hd1 : e_db e1 = snd (sqlite_query_exec d (DELETE_FROM_Repo id)))
    by (pose proof (exec_db (DELETE_FROM_Repo id) e) as H; now rewrite He1 in H).
  assert (Hs1 : e_session e1 = s)
    by (pose proof (exec_session (DELETE_FROM_Repo id) e) as H; now rewrite He1 in H).
  clear He1.
  unfold seaf_repo_manager_del_repo_property.
  rewrite !exec_db, !exec_session.
  set (e3 := g_unlink_index id (snd (exec (DELETE_FROM_DeletedRepo id) e1))).
  assert (Hd3 : e_db e3
                = mkDb true (Repo d ∖ {[id]}) (DeletedRepo d ∖ {[id]}) (RepoBranch d)
                    (RepoLanToken d) (RepoTmpToken d) (RepoPasswd d) (RepoKeys d)
                    (RepoProperty d) (MergeInfo d)).
  { unfold e3. cbn [g_unlink_index e_db]. rewrite exec_db, Hd1.
    unfold sqlite_query_exec. fold d in Hok. rewrite Hok. cbn. now rewrite Hok. }
  assert (Hs3 : e_session e3 = set_index_files (delete id (index_files s)) s).
  { unfold e3. cbn [g_unlink_index e_session]. now rewrite exec_session, Hs1. }
  assert (Hbs : seaf_branch_manager_get_branch_list (e_session e3) id = bs)
    by (rewrite Hs3; reflexivity).
  rewrite Hbs.
  assert (Hok3 : db_ok (e_db e3) = true) by (rewrite Hd3; reflexivity).
  destruct (branch_loop_state id bs e3 Hok3) as [Hd4 Hs4].
  rewrite Hd4, Hs4, Hd3, Hs3. split; reflexivity.
Qed.

(** X30. After the purge of a repository with a working store, the
    store holds no [Repo], [DeletedRepo], [RepoPasswd], [RepoKeys],
    [MergeInfo] or [RepoProperty] row of it, the index directory no index
    file of it and the branch store no branch of it.  Its [RepoBranch]
    row is removed when the branch it names is in the branch store, and
    stays otherwise.  The tables [RepoLanToken] and [RepoTmpToken] are
    not touched: the tokens of the repository outlive it.  What the store,
    the index directory and the branch store hold for any other
    repository is as it was. *)
Theorem purge_removes_the_repository_but_not_its_tokens (e : env) (id : string) :
  db_ok (e_db e) = true ->
  let d := e_db e in
  let s := e_session e in
  let d' := e_db (remove_repo_ondisk e id) in
  let s' := e_session (remove_repo_ondisk e id) in
  ((id ∉ Repo d') /\ (id ∉ DeletedRepo d')
   /\ RepoPasswd d' !! id = None /\ RepoKeys d' !! id = None
   /\ MergeInfo d' !! id = None
   /\ (forall row, In row (RepoProperty d') -> row.1.1 <> id)
   /\ index_files s' !! id = None
   /\ (forall name, branches s' !! (id, name) = None))
  /\ (forall n, RepoBranch d !! id = Some n ->
        (is_Some (branches s !! (id, n)) -> RepoBranch d' !! id = None)
        /\ (branches s !! (id, n) = None -> RepoBranch d' !! id = Some n))
  /\ (RepoLanToken d' = RepoLanToken d /\ RepoTmpToken d' = RepoTmpToken d)
  /\ (forall id', id' <> id ->
        (id' ∈ Repo d' <-> id' ∈ Repo d)
        /\ (id' ∈ DeletedRepo d' <-> id' ∈ DeletedRepo d)
        /\ RepoBranch d' !! id' = RepoBranch d !! id'
        /\ RepoPasswd d' !! id' = RepoPasswd d !! id'
        /\ RepoKeys d' !! id' = RepoKeys d !! id'
        /\ MergeInfo d' !! id' = MergeInfo d !! id'
        /\ (forall row, row.1.1 = id' ->
              (In row (RepoProperty d') <-> In row (RepoProperty d)))
        /\ index_files s' !! id' = index_files s !! id'
        /\ (forall name, branches s' !! (id', name) = branches s !! (id', name))).
Proof.
  intros Hok d s d' s'.
  destruct (remove_repo_ondisk_state e id Hok) as [Hd Hs].
  fold d in Hd. fold s in Hs. fold d' in Hd. fold s' in Hs.
  destruct (branch_list_spec s id) as (Hall & Hnames & Hkeys).
  rewrite Hd, Hs. cbn [Repo DeletedRepo RepoBranch RepoLanToken RepoTmpToken
    RepoPasswd RepoKeys RepoProperty MergeInfo set_branches set_index_files
    index_files branches].
  split; [| split; [| split]].
  - split; [| split; [| split; [| split; [| split; [| split; [| split]]]]]].
    + intros H. apply elem_of_difference in H as [_ H]. apply H.
      now apply elem_of_singleton.
    + intros H. apply elem_of_difference in H as [_ H]. apply H.
      now apply elem_of_singleton.
    + apply lookup_delete_eq.
    + apply lookup_delete_eq.
    + apply lookup_delete_eq.
    + intros row Hrow. now apply list_elem_of_In, list_elem_of_filter in Hrow as [H _].
    + apply lookup_delete_eq.
    + intros name.
      destruct (forget_lookup id (seaf_branch_manager_get_branch_list s id)
                  (branches s) (id, name)) as [H1 H2].
      destruct (branches s !! (id, name)) as [cid|] eqn:Hb.
      * apply H1, Hkeys. split; [reflexivity | rewrite Hb; now eexists].
      * apply H2. intros Hin. apply Hkeys in Hin as [_ [c Hc]]. congruence.
  - intros n Hn.
    destruct (unmap_same id _ (RepoBranch d) n Hall Hn) as [H1 H2]. split.
    + intros Hsome. apply H1. now apply Hnames.
    + intros Hnone. apply H2. intros Hin. apply Hnames in Hin as [c Hc]. congruence.
  - split; reflexivity.
  - intros id' Hne.
    split; [| split; [| split; [| split; [| split; [| split; [| split; [| split]]]]]]].
    + rewrite elem_of_difference, elem_of_singleton. tauto.
    + rewrite elem_of_difference, elem_of_singleton. tauto.
    + now apply (unmap_other id).
    + now apply lookup_delete_ne.
    + now apply lookup_delete_ne.
    + now apply lookup_delete_ne.
    + intros row Hrow. rewrite <- !list_elem_of_In, list_elem_of_filter.
      split; [tauto | intros H; split; [congruence | exact H]].
    + now apply lookup_delete_ne.
    + intros name.
      destruct (forget_lookup id (seaf_branch_manager_get_branch_list s id)
                  (branches s) (id', name)) as [_ H2].
      apply H2. intros Hin. apply Hkeys in Hin as [Heq _]. contradiction.
Qed.

End PurgeStateFacts.

(** ** The further properties on the concrete installation *)

Section MoreWitnesses.
Import CStr Fs Index Ignore Worktree Crypt Commit Db DbMore Manager Purge.
Import Registry Persist Head Describe Sweep PurgeState Scenario ScenarioMore.
Local Open Scope list_scope.

Lemma ordered_mgr0 : ordered (repo_tree mgr0).
Proof. simpl. repeat split; constructor. Defined.

Lemma get_repo_finds_exactly_the_visible_repo_witness :
  ordered (repo_tree mgr0)
  /\ seaf_repo_manager_get_repo mgr0 id0 = Some repo0.
Proof.
  split; [exact ordered_mgr0 |].
  apply (get_repo_finds_exactly_the_visible_repo mgr0 id0 repo0 ordered_mgr0).
  repeat split; [simpl; now left | simpl; lia].
Defined.

Lemma add_repo_then_get_repo_witness :
  seaf_repo_manager_get_repo (snd (seaf_repo_manager_add_repo mgr0 repo_a)) id_a
  = Some repo_a
  /\ seaf_repo_manager_get_repo (snd (seaf_repo_manager_add_repo mgr0 repo_a)) id0
     = seaf_repo_manager_get_repo mgr0 id0.
Proof.
  destruct (add_repo_then_get_repo mgr0 repo_a ordered_mgr0) as (_ & _ & Hnew & Hold & _).
  - intros x [<-|[]]. discriminate.
  - split.
    + apply Hnew; [simpl; lia | reflexivity].
    + apply Hold. discriminate.
Defined.

Lemma add_repo_twice_keeps_the_first_witness :
  repo_tree (snd (seaf_repo_manager_add_repo mgr0 repo0_again)) = repo_tree mgr0
  /\ snd (seaf_repo_manager_add_repo mgr0 repo0_again) = mgr0.
Proof.
  destruct (add_repo_twice_keeps_the_first mgr0 repo0_again repo0 ordered_mgr0)
    as (_ & Htree & Hmgr).
  - simpl. now left.
  - reflexivity.
  - split; [exact Htree |]. apply Hmgr. vm_compute. reflexivity.
Defined.

Lemma mark_repo_deleted_hides_only_that_repo_witness :
  fst (seaf_repo_manager_mark_repo_deleted mgr0 id0) = 0
  /\ seaf_repo_manager_get_repo (snd (seaf_repo_manager_mark_repo_deleted mgr0 id0)) id0
     = None.
Proof.
  assert (H : fst (seaf_repo_manager_mark_repo_deleted mgr0 id0) = 0)
    by (vm_compute; reflexivity).
  split; [exact H |].
  exact (proj1 (mark_repo_deleted_hides_only_that_repo mgr0 id0 H)).
Defined.

Lemma get_repo_prefix_returns_a_repo_with_the_prefix_witness :
  seaf_repo_manager_get_repo_prefix mgr0 "1111" = Some repo0
  /\ is_prefix "1111" (repo_id repo0).
Proof.
  assert (H : seaf_repo_manager_get_repo_prefix mgr0 "1111" = Some repo0)
    by (vm_compute; reflexivity).
  split; [exact H |].
  exact (proj1 (proj2 (get_repo_prefix_returns_a_repo_with_the_prefix mgr0 "1111"
                         repo0 H))).
Defined.

Lemma NUL_free_by_run (t : string) :
  forallb (fun c => negb (Ascii.eqb c NUL)) (chars t) = true -> ~ In NUL (chars t).
Proof.
  intros H Hin. apply (proj1 (List.forallb_forall _ _) H) in Hin.
  rewrite Ascii.eqb_refl in Hin. discriminate Hin.
Defined.

Lemma verify_repo_lantoken_accepts_prefixes_witness :
  ~ In NUL (chars "default")
  /\ seaf_repo_manager_verify_repo_lantoken (defaults := demo_defaults) mgr0 id0
       (Some "default") = Done 1
  /\ seaf_repo_manager_verify_repo_lantoken (defaults := demo_defaults) mgr0 id0
       (Some long_token) = Fault.
Proof.
  split; [exact (NUL_free_by_run "default" eq_refl) |].
  destruct (verify_repo_lantoken_accepts_prefixes (defaults := demo_defaults) mgr0
              id0 "default" (NUL_free_by_run "default" eq_refl)) as (Hin & _).
  destruct (verify_repo_lantoken_accepts_prefixes (defaults := demo_defaults) mgr0
              id0 long_token (NUL_free_by_run long_token eq_refl)) as (_ & Hout & _).
  split.
  - destruct Hin as [_ Hiff]; [vm_compute; lia |].
    apply Hiff. now exists "-repo-token".
  - apply Hout. vm_compute. lia.
Defined.

Lemma set_repo_lantoken_then_get_witness :
  SqlText.plain SqlText.lantoken_room "token" = true
  /\ seaf_repo_manager_get_repo_lantoken
       (snd (seaf_repo_manager_set_repo_lantoken (engine := demo_engine) mgr0 id0
               "token")) id0 = Some "token"
  /\ seaf_repo_manager_set_repo_lantoken (engine := demo_engine) mgr_down id0
       "token" = (-1, mgr_down).
Proof.
  destruct (set_repo_lantoken_then_get (engine := demo_engine) mgr0 id0 "token"
              eq_refl) as [Hup _].
  destruct (set_repo_lantoken_then_get (engine := demo_engine) mgr_down id0 "token"
              eq_refl) as [_ Hdown].
  split; [reflexivity |]. split.
  - apply Hup. reflexivity.
  - apply Hdown. reflexivity.
Defined.

Lemma merge_flag_set_then_clear_witness :
  seaf_repo_manager_get_merge_info
    (snd (seaf_repo_manager_set_merge mgr0 id0 "master")) id0 = (0, true)
  /\ seaf_repo_manager_get_merge_info mgr_down id0 = (-1, false).
Proof.
  destruct (merge_flag_set_then_clear mgr0 id0 "master") as [Hup _].
  destruct (merge_flag_set_then_clear mgr_down id0 "master") as [_ Hdown].
  split.
  - apply Hup. reflexivity.
  - apply Hdown. reflexivity.
Defined.

Lemma save_then_load_repo_property_witness :
  seaf_repo_manager_get_repo_property (engine := demo_engine)
    (save_repo_property mgr0 id0 "worktree" "/w2") id0 "worktree" = Some "/w2"
  /\ length (property_rows (save_repo_property mgr0 id0 "worktree" "/w2") id0
               "worktree") = 1%nat
  /\ save_repo_property mgr_down id0 "worktree" "/w2" = mgr_down.
Proof.
  destruct (save_then_load_repo_property (engine := demo_engine) mgr0 id0
              "worktree" "/w2") as [Hup _].
  destruct (save_then_load_repo_property (engine := demo_engine) mgr_down id0
              "worktree" "/w2") as [_ Hdown].
  destruct (Hup eq_refl) as (Hrows & Hload & _).
  split; [exact (Hload eq_refl) |]. split; [exact Hrows |].
  apply Hdown. reflexivity.
Defined.

Lemma set_then_get_repo_relay_info_witness :
  seaf_repo_manager_get_repo_relay_info (engine := demo_engine)
    (snd (seaf_repo_manager_set_repo_relay_info mgr0 id0 "relay.example" "10001"))
    id0
  = (Some "relay.example", Some "10001").
Proof.
  apply (set_then_get_repo_relay_info (engine := demo_engine) mgr0 id0
           "relay.example" "10001").
  reflexivity.
Defined.

Lemma set_repo_email_in_registry_and_store_witness :
  seaf_repo_manager_get_repo
    (snd (seaf_repo_manager_set_repo_email mgr0 id0 "bob@example.com")) id0
  = Some (set_email (Some "bob@example.com") repo0)
  /\ seaf_repo_manager_get_repo_property (engine := demo_engine)
       (snd (seaf_repo_manager_set_repo_email mgr0 id0 "bob@example.com")) id0
       REPO_PROP_EMAIL = Some "bob@example.com".
Proof.
  destruct (set_repo_email_in_registry_and_store (engine := demo_engine) mgr0 id0
              "bob@example.com" repo0)
    as (_ & Hget & _ & Hprop & _).
  - reflexivity.
  - split; [exact Hget |]. apply Hprop. reflexivity.
Defined.

Lemma create_new_repo_is_registered_without_head_witness :
  exists repo mgr',
    seaf_repo_manager_create_new_repo mgr0 "a" "first" id_a = Done (repo, mgr')
    /\ seaf_repo_manager_get_repo mgr' id_a = Some repo
    /\ check_worktree_common session0 repo = (false, repo).
Proof.
  destruct (create_new_repo_is_registered_without_head mgr0 "a" "first" id_a
              session0 ordered_mgr0)
    as ((repo & mgr' & Hrun & _ & _ & Hget & _ & _ & Hcheck) & _).
  - reflexivity.
  - intros x [<-|[]]. discriminate.
  - exists repo, mgr'. split; [exact Hrun |]. split; [exact Hget | exact Hcheck].
Defined.

Lemma repo_exists_agrees_with_get_repo_witness :
  seaf_repo_manager_repo_exists mgr0 "1111" = Fault
  /\ seaf_repo_manager_repo_exists mgr0 id0
     = Done (bool_decide (is_Some (seaf_repo_manager_get_repo mgr0 id0)))
  /\ seaf_repo_manager_repo_exists mgr0 long_id = Done false
  /\ seaf_repo_manager_repo_exists_prefix mgr0 long_id = Done true.
Proof.
  destruct (repo_exists_agrees_with_get_repo mgr0 "1111") as (Hshort & _).
  destruct (repo_exists_agrees_with_get_repo mgr0 id0) as (_ & Hexact & _).
  destruct (repo_exists_agrees_with_get_repo mgr0 long_id) as (_ & _ & Hlong).
  split; [apply Hshort; vm_compute; lia |].
  split; [apply Hexact; reflexivity |].
  destruct Hlong as (Hex & Hpre & _).
  - vm_compute. lia.
  - apply List.Forall_cons; [vm_compute; lia | apply List.Forall_nil].
  - split; [exact Hex | exact Hpre].
Defined.

Lemma get_repo_prefix_finds_whole_ids_witness :
  seaf_repo_manager_get_repo_prefix mgr0 (repo_id repo0) = Some repo0.
Proof.
  apply (get_repo_prefix_finds_whole_ids mgr0 repo0 ordered_mgr0).
  - simpl. now left.
  - simpl. lia.
Defined.

Lemma set_head_never_fails_witness :
  load_branch (snd (seaf_repo_set_head mgr0 repo0 master0)) id0 = Some "master"
  /\ snd (seaf_repo_set_head mgr_down repo0 master0) = mgr_down
  /\ repo_head (snd (fst (seaf_repo_set_head mgr_down repo0 master0))) = Some master0.
Proof.
  destruct (set_head_never_fails mgr0 repo0 master0) as (_ & _ & _ & Hup & _).
  destruct (set_head_never_fails mgr_down repo0 master0) as (_ & Hhead & _ & _ & Hdown).
  split; [apply Hup; reflexivity |]. split; [apply Hdown; reflexivity |].
  now rewrite Hhead.
Defined.

Lemma to_commit_then_from_commit_witness :
  seaf_repo_from_commit repo_enc (seaf_repo_to_commit repo_enc commit0)
  = Done repo_enc.
Proof.
  destruct (to_commit_then_from_commit repo_enc repo_enc commit0) as (Hdef & _ & Hsame).
  destruct (proj2 Hdef) as [r Hr]; [intros _ _; reflexivity |].
  rewrite Hr. f_equal. now apply Hsame.
Defined.

Lemma tmp_token_one_per_pair_witness :
  let m1 := snd (seaf_repo_manager_generate_tmp_token mgr0 id0 "peer-1" 0 "t1") in
  let m2 := snd (seaf_repo_manager_generate_tmp_token m1 id0 "peer-1" 1 "t2") in
  seaf_repo_manager_verify_tmp_token (engine := demo_engine) true m2 (Some id0)
    (Some "peer-1") (Some "t1")
  = (0, m2)
  /\ fst (seaf_repo_manager_verify_tmp_token (engine := demo_engine) true m2
            (Some id0) (Some "peer-1") (Some "t2")) = 1.
Proof.
  intros m1 m2.
  destruct (tmp_token_one_per_pair (engine := demo_engine) mgr0 id0 "peer-1" true)
    as (Hrevoke & _).
  apply (Hrevoke 0 1 "t1" "t2" m1 m2);
    [reflexivity | reflexivity | reflexivity | reflexivity | discriminate].
Defined.

Lemma x_txt_has_no_slash : ~ In "/"%char (chars "x.txt").
Proof.
  intros H. vm_compute in H.
  repeat (destruct H as [H|H]; [discriminate H |]). exact H.
Defined.

Lemma get_basename_is_the_last_component_witness :
  get_basename "d/x.txt" = "x.txt".
Proof.
  destruct (get_basename_is_the_last_component "d/x.txt") as (_ & Hlast & _).
  apply (Hlast "d" "x.txt"); [reflexivity | exact x_txt_has_no_slash].
Defined.

Lemma status_to_description_by_status_witness :
  status_to_description diff0
  = Some ("Added " +:+ dq +:+ "x.txt" +:+ dq +:+ " and 1 more files." +:+ nl)
  /\ status_to_description [mkDiffEntry DIFF_STATUS_UNMERGED "u"] = Some "".
Proof.
  destruct (status_to_description_by_status diff0) as (_ & Hlines & _).
  destruct (status_to_description_by_status [mkDiffEntry DIFF_STATUS_UNMERGED "u"])
    as (_ & _ & _ & _ & Hunmerged).
  split.
  - rewrite Hlines by discriminate. reflexivity.
  - apply Hunmerged; [discriminate | repeat constructor].
Defined.

Lemma commit_tree_writes_this_commit_witness :
  exists cid repo' s' c,
    commit_tree (ids := demo_ids) session0 repo0 "root" "msg" true ""
    = Done (0, cid, repo', s')
    /\ commits s' = c :: commits session0
    /\ c_creator_name c = "alice"
    /\ c_desc c = "Auto merge by seafile system".
Proof.
  do 3 eexists.
  assert (Hrun : commit_tree (ids := demo_ids) session0 repo0 "root" "msg" true ""
                 = Done (0, _, _, _)) by reflexivity.
  destruct (commit_tree_writes_this_commit (ids := demo_ids) _ _ _ _ _ _ _ _ _ Hrun)
    as (c & h & Hc & _ & _ & _ & Hcreator & _ & Hdesc & _).
  exists c. split; [exact Hrun |]. split; [exact Hc |].
  split; [exact Hcreator | exact Hdesc].
Defined.

Lemma index_commit_succeeds_witness :
  exists c h repo' s',
    seaf_repo_index_commit (store := demo_store) (differ := demo_differ)
      (ids := demo_ids) session0 repo0 "msg" false ""
    = Done (Some (commit_id c), None, repo', s')
    /\ commits s' = c :: commits session0
    /\ c_root_id c = "root"
    /\ c_desc c = "msg"
    /\ repo_head repo0 = Some h
    /\ repo_head repo' = Some (seaf_branch_set_commit h (commit_id c)).
Proof.
  destruct (index_commit_succeeds (store := demo_store) (differ := demo_differ)
              (ids := demo_ids) session0 repo0 "msg" false "" [] "root")
    as (c & h & repo' & s' & Hrun & Hc & Hroot & Hdesc & Hh & _ & Hhead & _).
  - reflexivity.
  - reflexivity.
  - reflexivity.
  - reflexivity.
  - discriminate.
  - intros _ H. discriminate H.
  - exists c, h, repo', s'. repeat split; assumption.
Defined.

Lemma remove_deleted_only_removes_witness :
  ~ In (mkCe "gone.txt" (st_mode FsReg) "blocks:/w/gone.txt" 0)
      (remove_deleted fs0 index_gone "/w" "")
  /\ remove_deleted fs0 (remove_deleted fs0 index_gone "/w" "") "/w" ""
     = remove_deleted fs0 index_gone "/w" "".
Proof.
  destruct (remove_deleted_only_removes fs0 index_gone "/w" "")
    as (_ & _ & _ & Hgone & Hidem).
  split; [| exact Hidem].
  apply Hgone; reflexivity.
Defined.

Lemma index_add_adds_only_regular_files_witness :
  exists repo' s' istate',
    seaf_repo_index_add (store := demo_store) session0 repo0 "bar.txt"
    = Done (0, repo', s')
    /\ read_index_from s' (repo_id repo0) = Some istate'
    /\ forall ce, In ce istate' -> S_ISREG (ce_mode ce) = true /\ unflagged ce.
Proof.
  do 2 eexists.
  assert (Hrun : seaf_repo_index_add (store := demo_store) session0 repo0 "bar.txt"
                 = Done (0, _, _)) by reflexivity.
  destruct (index_add_adds_only_regular_files (store := demo_store) _ _ _ _ _ []
              Hrun eq_refl) as (istate' & Hread & Hall & _).
  exists istate'. split; [exact Hrun |]. split; [exact Hread |].
  intros ce Hce. destruct (Hall ce Hce) as [[[] | Hreg] Hu]. now split.
Defined.

Lemma named_worktree0 : named worktree0.
Proof.
  unfold worktree0.
  repeat (first [ apply named_reg | apply named_dir | apply List.Forall_nil
                | apply List.Forall_cons;
                  [cbn [fst snd]; split; [discriminate |] |] ]).
Defined.




Lemma empty_dir_entries_follow_is_empty_dir_witness :
  exists ret istate' e',
    add_recursive_node (store := demo_store) (FsDir DirOk [(".DS_Store", FsReg)])
      [] false "/w" "cache" None false = Done (ret, istate', e')
    /\ ret = 0
    /\ istate' = add_empty_dir_to_index [] "cache"
    /\ ~ In (mkCe "gone" S_IFDIR "" 0) (remove_deleted fs0 index_gone "/w" "").
Proof.
  do 3 eexists.
  assert (Hrun : add_recursive_node (store := demo_store)
                   (FsDir DirOk [(".DS_Store", FsReg)]) [] false "/w" "cache" None
                   false
                 = Done (_, _, _)) by reflexivity.
  destruct (empty_dir_entries_follow_is_empty_dir (store := demo_store) fs0
              [(".DS_Store", FsReg)] index_gone false "/w" "cache" "" None)
    as [_ Hsweep].
  destruct (empty_dir_entries_follow_is_empty_dir (store := demo_store) fs0
              [(".DS_Store", FsReg)] [] false "/w" "cache" "" None)
    as [Hadd _].
  destruct (Hadd _ _ _ Hrun) as (Hempty & _).
  destruct (Hempty eq_refl) as (Hret & _ & Hist & _).
  split; [exact Hrun |]. split; [exact Hret |]. split; [exact Hist |].
  intros Hin.
  apply (Hsweep (mkCe "gone" S_IFDIR "" 0)) in Hin;
    [discriminate Hin | simpl; tauto | reflexivity | reflexivity | reflexivity].
Defined.

Lemma index_add_fails_exactly_on_these_witness :
  (exists repo' s',
     seaf_repo_index_add (store := demo_store) session0 repo_a "bar.txt"
     = Done (-1, repo', s')
     /\ index_files s' = index_files session0)
  /\ (exists repo' s' r,
        seaf_repo_index_add (store := demo_store) session0 repo0 "/"
        = Done (0, repo', s')
        /\ add_recursive (store := demo_store) fs0 [] ["/"%char] "/w" "" None true
           = Done r
        /\ index_files s'
           = <[id0 := IndexData (remove_deleted fs0 (snd r) "/w" "")]>
               (index_files session0)).
Proof.
  split.
  - do 2 eexists.
    assert (Hrun : seaf_repo_index_add (store := demo_store) session0 repo_a
                     "bar.txt" = Done (-1, _, _)) by reflexivity.
    destruct (index_add_fails_exactly_on_these (store := demo_store) _ _ _ _ _ _
                Hrun) as (_ & _ & _ & _ & Hsame & _).
    split; [exact Hrun | exact (Hsame eq_refl)].
  - do 2 eexists.
    assert (Hrun : seaf_repo_index_add (store := demo_store) session0 repo0 "/"
                   = Done (0, _, _)) by reflexivity.
    destruct (index_add_fails_exactly_on_these (store := demo_store) _ _ _ _ _ _
                Hrun) as (_ & _ & _ & _ & _ & Hdone).
    destruct (Hdone eq_refl) as (istate & r & [Hidx Hadd] & Hfiles).
    assert (Hnil : istate = []) by (vm_compute in Hidx; congruence).
    subst istate.
    exists r. split; [exact Hrun |]. split; [exact Hadd | exact Hfiles].
Defined.

Lemma index_add_of_a_missing_path_records_the_deletion_witness :
  exists repo' s',
    seaf_repo_index_add (store := demo_store) session_gone repo0 "/gone.txt"
    = Done (0, repo', s')
    /\ read_index_from s' (repo_id repo0)
       = Some (remove_deleted fs0 index_gone "/w" "gone.txt").
Proof.
  destruct (index_add_of_a_missing_path_records_the_deletion (store := demo_store)
              session_gone repo0 "/gone.txt" index_gone)
    as (repo' & s' & Hrun & _ & Hread & _); try reflexivity.
  exists repo', s'. split; [exact Hrun | exact Hread].
Defined.

Lemma purge_removes_the_repository_but_not_its_tokens_witness :
  (id0 ∉ Repo (e_db (remove_repo_ondisk env_full id0)))
  /\ RepoLanToken (e_db (remove_repo_ondisk env_full id0)) = RepoLanToken db_full
  /\ RepoTmpToken (e_db (remove_repo_ondisk env_full id0)) = RepoTmpToken db_full
  /\ RepoBranch (e_db (remove_repo_ondisk env_full id0)) !! id_a = Some "local".
Proof.
  destruct (purge_removes_the_repository_but_not_its_tokens env_full id0 eq_refl)
    as ((Hrepo & _) & _ & (Hlan & Htmp) & Hframe).
  split; [exact Hrepo |]. split; [exact Hlan |]. split; [exact Htmp |].
  destruct (Hframe id_a) as (_ & _ & Hbranch & _); [discriminate |].
  rewrite Hbranch. reflexivity.
Defined.

End MoreWitnesses.
